(** * ShootingGame4: the per-frame simulation of the arcade shooter

    Two implementations of the same game live in the repository:
    - [ECS]  : src/app/page.tsx, the entity-component version
               (class [Game] with [system_*] methods);
    - [Flat] : the flat object-list version (class [Game] with [update]).

    Numbers.  Coordinates, sizes and velocities are JavaScript numbers; they
    are modelled as exact rationals in lowest terms, [Qc].  Score, hit points, entity ids and
    millisecond clocks are integers [Z].  [Math.sqrt]/[Math.hypot] is not a
    rational function: it is a parameter [sqrt] of each development, so every
    theorem holds for whatever rounding the host implements.  Rationals have
    neither NaN nor infinities: where those decide what the code does (the
    clamp of the player), module [F64] repeats the player's path over
    binary64 numbers.

    Effects.  [Date.now()] and [Math.random()] are read from an oracle record
    handed to each call; every call site of [Math.random()] has its own
    oracle field, since successive draws are independent. *)

From Stdlib Require Import ZArith QArith Qcanon Qcabs List Bool String Lia Lqa.
From Stdlib Require PrimFloat.
Import ListNotations.
Open Scope Q_scope.
Open Scope Qc_scope.
Open Scope list_scope.

(** A decimal literal of the source is the canonical rational it denotes. *)
Coercion Q2Qc : Q >-> Qc.

(** ** Shared by both source files: constants and utilities *)

Definition GAME_WIDTH : Qc := 320.
Definition GAME_HEIGHT : Qc := 568.
Definition PLAYER_SIZE : Qc := 20.
Definition PLAYER_SPEED : Qc := 9 # 2.
Definition BULLET_SIZE : Qc := 4.
Definition BULLET_SPEED : Qc := 7.
Definition ENEMY_SIZE : Qc := 16.
Definition ENEMY_SPEED : Qc := 3 # 2.
Definition STAR_COUNT : nat := 50.
Definition ENEMY_SPAWN_RATE : Qc := 15 # 1000.
Definition BULLET_FIRE_RATE : Z := 120.

Record Vec2 : Type := createVector2 { x : Qc; y : Qc }.

Inductive Phase : Type := playing | gameOver.

Definition Phase_eqb (a b : Phase) : bool :=
  match a, b with
  | playing, playing | gameOver, gameOver => true
  | _, _ => false
  end.

Definition Qltb (a b : Qc) : bool :=
  match a ?= b with Lt => true | _ => false end.

(** [Math.min] and [Math.max] *)
Definition Qcmin (a b : Qc) : Qc := if Qltb b a then b else a.
Definition Qcmax (a b : Qc) : Qc := if Qltb a b then b else a.

(** [clamp v min max = Math.max(min, Math.min(max, v))] *)
Definition clamp (v lo hi : Qc) : Qc := Qcmax lo (Qcmin hi v).

(** [lerp a b t = a + (b - a) * t] *)
Definition lerp (a b t : Qc) : Qc := a + (b - a) * t.

(** The keyboard / pointer snapshot (same fields in both files). *)
Record Input : Type := mkInput {
  left : bool; right : bool; up : bool; down : bool; shoot : bool;
  touching : bool; mousePos : Vec2
}.

(** What a frame paints, in paint order. *)
Inductive DrawOp : Type :=
| DrawBackground
| DrawStar (pos : Vec2) (size brightness : Qc)
| DrawShip (pos : Vec2) (size : Qc)
| DrawFlame (pos : Vec2) (size : Qc)
| DrawBullet (pos : Vec2) (size : Qc)
| DrawEnemy (pos : Vec2) (size : Qc)
| DrawScore (score : Z)
| DrawHeart (filled : bool) (slot : Z)
| DrawGameOver (score : Z).

(** [for (let i = from; i < upto; i++) fillText(heart, 10 + i * 20, 45)] *)
Definition hearts (filled : bool) (from upto : Z) : list DrawOp :=
  map (fun k => DrawHeart filled (from + Z.of_nat k)) (seq 0 (Z.to_nat (upto - from))).

Definition Qabs_gt (v bound : Qc) : bool := Qltb bound (Qcabs v).

(** The target velocity of the player: keyboard axes, overridden by the
    pursuit of the pointer while it is down (identical in both files, up to
    [Math.hypot(dx, dy)] being written [Math.sqrt(dx * dx + dy * dy)]). *)
Section Intent.
Variable sqrt : Qc -> Qc.

Definition hypot (dx dy : Qc) : Qc := sqrt (dx * dx + dy * dy).

(** [distance a b = Math.hypot(a.x - b.x, a.y - b.y)] *)
Definition distance (a b : Vec2) : Qc := hypot (x a - x b) (y a - y b).

Definition targetVel (inp : Input) (pos : Vec2) : Vec2 :=
  let targetVelX := 0 in
  let targetVelY := 0 in
  let targetVelX := if left inp then targetVelX - PLAYER_SPEED else targetVelX in
  let targetVelX := if right inp then targetVelX + PLAYER_SPEED else targetVelX in
  let targetVelY := if up inp then targetVelY - PLAYER_SPEED else targetVelY in
  let targetVelY := if down inp then targetVelY + PLAYER_SPEED else targetVelY in
  if touching inp then
    let dx := x (mousePos inp) - x pos in
    let dy := y (mousePos inp) - y pos in
    let dist := hypot dx dy in
    if Qltb 8 dist then
      let factor := Qcmin 1 (dist / 60) in
      let targetVelX := dx * (15 # 100) * factor in
      let targetVelY := dy * (15 # 100) * factor in
      let speed := hypot targetVelX targetVelY in
      if Qltb PLAYER_SPEED speed then
        createVector2 ((targetVelX / speed) * PLAYER_SPEED)
                      ((targetVelY / speed) * PLAYER_SPEED)
      else createVector2 targetVelX targetVelY
    else createVector2 targetVelX targetVelY
  else createVector2 targetVelX targetVelY.
End Intent.

(** A concrete square root for closed examples: rounded down to 32
    fractional bits (exact on the perfect squares the examples use). *)
Definition sqrt_fix (q : Qc) : Qc :=
  Q2Qc (Z.sqrt ((Qnum q * 2 ^ 64) / Zpos (Qden q)) # (2 ^ 32)).

(** ** The entity-component implementation (src/app/page.tsx) *)
Module ECS.

(** Component payloads. *)
Record Render : Type := mkRender { color : string; size : Qc }.
Inductive Owner : Type := owner_player.
Record BulletC : Type := mkBullet { owner : Owner; damage : Z }.
Inductive EnemyType : Type := basic.

(** The nine component names of the source. *)
Inductive CName : Type :=
| C_POSITION | C_VELOCITY | C_RENDER | C_PLAYER | C_BULLET
| C_ENEMY | C_STAR | C_INPUT | C_LIFETIME.

(** An entity: its id and its component map.  The map's keys are the nine
    names above, so it is a record of optional components. *)
Record Entity : Type := mkEntity {
  id : Z;
  position : option Vec2;
  velocity : option Vec2;
  render : option Render;
  player : option Z;          (* { health } *)
  bullet : option BulletC;
  enemy : option EnemyType;
  star : option Qc;            (* { brightness } *)
  input : option Input;
  lifetime : option Z          (* { t }, in ms *)
}.

Definition isSome {A : Type} (o : option A) : bool :=
  match o with Some _ => true | None => false end.

Definition has (e : Entity) (c : CName) : bool :=
  match c with
  | C_POSITION => isSome (position e)
  | C_VELOCITY => isSome (velocity e)
  | C_RENDER => isSome (render e)
  | C_PLAYER => isSome (player e)
  | C_BULLET => isSome (bullet e)
  | C_ENEMY => isSome (enemy e)
  | C_STAR => isSome (star e)
  | C_INPUT => isSome (input e)
  | C_LIFETIME => isSome (lifetime e)
  end.

Definition with_position (e : Entity) (p : option Vec2) : Entity :=
  mkEntity (id e) p (velocity e) (render e) (player e) (bullet e) (enemy e)
           (star e) (input e) (lifetime e).
Definition with_velocity (e : Entity) (v : option Vec2) : Entity :=
  mkEntity (id e) (position e) v (render e) (player e) (bullet e) (enemy e)
           (star e) (input e) (lifetime e).
Definition with_input (e : Entity) (i : option Input) : Entity :=
  mkEntity (id e) (position e) (velocity e) (render e) (player e) (bullet e)
           (enemy e) (star e) i (lifetime e).
Definition with_lifetime (e : Entity) (t : option Z) : Entity :=
  mkEntity (id e) (position e) (velocity e) (render e) (player e) (bullet e)
           (enemy e) (star e) (input e) t.

(** The game object.  [entities] is the [Map<number, Entity>] in insertion
    order (the order [values()] iterates in). *)
Record Game : Type := mkGame {
  nextId : Z;
  entities : list Entity;
  score : Z;
  hp : Z;
  gameState : Phase;
  lastFireTime : Z
}.

Definition with_entities (g : Game) (es : list Entity) : Game :=
  mkGame (nextId g) es (score g) (hp g) (gameState g) (lastFireTime g).

(** [Map.prototype.set]: an existing key keeps its place, a new one goes
    last. *)
Fixpoint map_set (es : list Entity) (e : Entity) : list Entity :=
  match es with
  | [] => [e]
  | e0 :: rest => if (id e0 =? id e)%Z then e :: rest else e0 :: map_set rest e
  end.

(** [createEntity] followed by the [add] calls that fill the new entity:
    [mk] receives the fresh id. *)
Definition createEntity (g : Game) (mk : Z -> Entity) : Game :=
  let e := mk (nextId g) in
  mkGame (nextId g + 1)%Z (map_set (entities g) e) (score g) (hp g)
         (gameState g) (lastFireTime g).

(** [destroyEntity e = this.entities.delete(e.id)] *)
Definition destroyEntity (g : Game) (e : Entity) : Game :=
  with_entities g (filter (fun e0 => negb (id e0 =? id e)%Z) (entities g)).

Definition findAllWith (g : Game) (components : list CName) : list Entity :=
  filter (fun e => forallb (has e) components) (entities g).

(** Oracles. *)
Record ResetOracle : Type := mkResetOracle {
  reset_now : Z;
  star_brightness0 : nat -> Qc;
  star_x0 : nat -> Qc;
  star_y0 : nat -> Qc;
  star_vy0 : nat -> Qc;
  star_size0 : nat -> Qc
}.

Record Oracle : Type := mkOracle {
  now : Z;                  (* nowMs() in system_Shooting *)
  spawn_roll : Qc;           (* Math.random() < ENEMY_SPAWN_RATE *)
  spawn_x : Qc;              (* the spawn column draw *)
  wrap_x : Z -> Qc;          (* per star id: new column on wrap *)
  wrap_vy : Z -> Qc          (* per star id: new speed on wrap *)
}.

Definition newPlayer (i : Z) : Entity :=
  mkEntity i (Some (createVector2 (GAME_WIDTH / 2) (GAME_HEIGHT - 60)))
           (Some (createVector2 0 0))
           (Some (mkRender "#00ff88" PLAYER_SIZE))
           (Some 3%Z) None None None None None.

Definition initialInput : Input :=
  mkInput false false false false false false
          (createVector2 (GAME_WIDTH / 2) (GAME_HEIGHT - 60)).

Definition newInput (i : Z) : Entity :=
  mkEntity i None None None None None None None (Some initialInput) None.

Definition newStar (ro : ResetOracle) (k : nat) (i : Z) : Entity :=
  mkEntity i
           (Some (createVector2 (star_x0 ro k * GAME_WIDTH) (star_y0 ro k * GAME_HEIGHT)))
           (Some (createVector2 0 (star_vy0 ro k * (3 # 2) + (3 # 10))))
           (Some (mkRender "#fff" (star_size0 ro k * 2 + (1 # 2))))
           None None None
           (Some (star_brightness0 ro k * (4 # 5) + (1 # 5)))
           None None.

(** [reset(skipScore)] *)
Definition reset (g : Game) (skipScore : bool) (ro : ResetOracle) : Game :=
  let g := mkGame 1 [] 0 3
                  (if skipScore then gameState g else playing)
                  (lastFireTime g) in
  let g := createEntity g newPlayer in
  let g := createEntity g newInput in
  let g := fold_left (fun g k => createEntity g (newStar ro k)) (seq 0 STAR_COUNT) g in
  mkGame (nextId g) (entities g) (score g) (hp g) (gameState g) (reset_now ro).

(** [new Game()]: the field initialisers, then [reset(true)]. *)
Definition new_Game (ro : ResetOracle) : Game :=
  reset (mkGame 1 [] 0 3 playing 0) true ro.

(** [setInput(updates)]: [Object.assign] over the input component of the
    first entity that has one. *)
Record InputUpdates : Type := mkUpdates {
  u_left : option bool; u_right : option bool; u_up : option bool;
  u_down : option bool; u_shoot : option bool; u_touching : option bool;
  u_mousePos : option Vec2
}.

Definition orElse {A : Type} (o : option A) (d : A) : A :=
  match o with Some a => a | None => d end.

Definition assign (inp : Input) (u : InputUpdates) : Input :=
  mkInput (orElse (u_left u) (left inp)) (orElse (u_right u) (right inp))
          (orElse (u_up u) (up inp)) (orElse (u_down u) (down inp))
          (orElse (u_shoot u) (shoot inp)) (orElse (u_touching u) (touching inp))
          (orElse (u_mousePos u) (mousePos inp)).

(** The object mutated lives in the first entity carrying [C_INPUT]. *)
Fixpoint assign_first (es : list Entity) (u : InputUpdates) : list Entity :=
  match es with
  | [] => []
  | e :: rest =>
      match input e with
      | Some inp => with_input e (Some (assign inp u)) :: rest
      | None => e :: assign_first rest u
      end
  end.

Definition setInput (g : Game) (u : InputUpdates) : Game :=
  with_entities g (assign_first (entities g) u).


Section Systems.
Variable sqrt : Qc -> Qc.

(** *** InputSystem *)
Definition steer (inp : Input) (p : Entity) : Entity :=
  match position p, velocity p with
  | Some pos, Some vel =>
      let target := targetVel sqrt inp pos in
      with_velocity p (Some (createVector2 (lerp (x vel) (x target) (15 # 100))
                                           (lerp (y vel) (y target) (15 # 100))))
  | _, _ => p
  end.

Definition system_InputToPlayer (g : Game) (dt : Z) : Game :=
  match findAllWith g [C_INPUT] with
  | [] => g
  | inputEntity :: _ =>
      match input inputEntity with
      | None => g
      | Some inp =>
          with_entities g
            (map (fun p => if forallb (has p) [C_PLAYER; C_POSITION; C_VELOCITY]
                           then steer inp p else p)
                 (entities g))
      end
  end.

(** *** MovementSystem *)
Definition integrate (e : Entity) : Entity :=
  match position e, velocity e with
  | Some pos, Some vel =>
      with_position e (Some (createVector2 (x pos + x vel) (y pos + y vel)))
  | _, _ => e
  end.

Definition wrap_star (o : Oracle) (e : Entity) : Entity :=
  match star e, position e, velocity e with
  | Some _, Some pos, Some vel =>
      if Qltb (GAME_HEIGHT + 5) (y pos) then
        with_velocity
          (with_position e (Some (createVector2 (wrap_x o (id e) * GAME_WIDTH) (-5))))
          (Some (createVector2 (x vel) (wrap_vy o (id e) * (3 # 2) + (3 # 10))))
      else e
  | _, _, _ => e
  end.

Definition age (dt : Z) (e : Entity) : Entity :=
  match lifetime e with
  | Some t => with_lifetime e (Some (t - dt)%Z)
  | None => e
  end.

Definition expired (e : Entity) : bool :=
  match lifetime e with
  | Some t => (t <=? 0)%Z
  | None => false
  end.

Definition move_one (o : Oracle) (dt : Z) (e : Entity) : Entity :=
  age dt (wrap_star o (integrate e)).

Definition clamp_player (p : Entity) : Entity :=
  if forallb (has p) [C_PLAYER; C_POSITION; C_RENDER] then
    match position p, render p with
    | Some pos, Some r =>
        let half := size r / 2 in
        with_position p
          (Some (createVector2 (clamp (x pos) half (GAME_WIDTH - half))
                               (clamp (y pos) half (GAME_HEIGHT - half))))
    | _, _ => p
    end
  else p.

Definition system_Movement (g : Game) (dt : Z) (o : Oracle) : Game :=
  let moved := map (move_one o dt) (entities g) in
  let g := fold_left destroyEntity (filter expired moved) (with_entities g moved) in
  with_entities g (map clamp_player (entities g)).

(** *** ShootingSystem *)
Definition newBullet (ppos : Vec2) (i : Z) : Entity :=
  mkEntity i (Some (createVector2 (x ppos) (y ppos)))
           (Some (createVector2 0 (- BULLET_SPEED)))
           (Some (mkRender "#ffff00" BULLET_SIZE))
           None (Some (mkBullet owner_player 1)) None None None
           (Some 3000%Z).

Definition with_lastFireTime (g : Game) (t : Z) : Game :=
  mkGame (nextId g) (entities g) (score g) (hp g) (gameState g) t.

Definition system_Shooting (g : Game) (o : Oracle) : Game :=
  match findAllWith g [C_INPUT] with
  | [] => g
  | inputEntity :: _ =>
      match input inputEntity with
      | None => g
      | Some inp =>
          match findAllWith g [C_PLAYER; C_POSITION] with
          | [] => g
          | player :: _ =>
              if shoot inp && (BULLET_FIRE_RATE <? now o - lastFireTime g)%Z then
                match position player with
                | Some ppos =>
                    with_lastFireTime (createEntity g (newBullet ppos)) (now o)
                | None => g
                end
              else g
          end
      end
  end.

(** *** EnemySpawnSystem *)
Definition newEnemy (ex : Qc) (i : Z) : Entity :=
  mkEntity i (Some (createVector2 ex (- ENEMY_SIZE)))
           (Some (createVector2 0 ENEMY_SPEED))
           (Some (mkRender "#ff4444" ENEMY_SIZE))
           None None (Some basic) None None None.

Definition system_EnemySpawn (g : Game) (o : Oracle) : Game :=
  if Qltb (spawn_roll o) ENEMY_SPAWN_RATE then
    createEntity g (newEnemy (spawn_x o * (GAME_WIDTH - ENEMY_SIZE) + ENEMY_SIZE / 2))
  else g.

(** *** CleanupSystem *)
Definition margin_of (e : Entity) : Qc :=
  match render e with Some r => size r | None => 16 end + 20.

Definition out_of_bounds (e : Entity) : bool :=
  if has e C_BULLET || has e C_ENEMY then
    match position e with
    | None => false
    | Some pos =>
        let margin := margin_of e in
        Qltb (y pos) (- margin) || Qltb (GAME_HEIGHT + margin) (y pos)
        || Qltb (x pos) (- margin) || Qltb (GAME_WIDTH + margin) (x pos)
    end
  else false.

Definition system_Cleanup (g : Game) : Game :=
  fold_left (fun g e => if out_of_bounds e then destroyEntity g e else g)
            (entities g) g.

(** *** CollisionSystem *)
(** [distance(apos, bpos) < (ars.size + brs.size) / 2] *)
Definition overlap (a b : Entity) : bool :=
  match position a, render a, position b, render b with
  | Some apos, Some ars, Some bpos, Some brs =>
      Qltb (distance sqrt apos bpos) ((size ars + size brs) / 2)
  | _, _, _, _ => false
  end.

Definition lose_hp (g : Game) : Game :=
  let hp1 := (hp g - 1)%Z in
  if (hp1 <=? 0)%Z
  then mkGame (nextId g) (entities g) (score g) 0 gameOver (lastFireTime g)
  else mkGame (nextId g) (entities g) (score g) hp1 (gameState g) (lastFireTime g).

Definition enemy_vs_players (players : list Entity) (g : Game) (enemy : Entity) : Game :=
  fold_left (fun g player =>
               if overlap enemy player then lose_hp (destroyEntity g enemy) else g)
            players g.

Definition add_score (g : Game) (n : Z) : Game :=
  mkGame (nextId g) (entities g) (score g + n) (hp g) (gameState g) (lastFireTime g).

(** The inner loop of the bullet pass, with its [break]. *)
Fixpoint bullet_vs_enemies (enemies : list Entity) (g : Game) (bullet : Entity) : Game :=
  match enemies with
  | [] => g
  | enemy :: rest =>
      if overlap bullet enemy then
        destroyEntity (destroyEntity (add_score g 100) enemy) bullet
      else bullet_vs_enemies rest g bullet
  end.

Definition system_Collision (g : Game) : Game :=
  let bullets := findAllWith g [C_BULLET; C_POSITION; C_RENDER] in
  let enemies := findAllWith g [C_ENEMY; C_POSITION; C_RENDER] in
  let players := findAllWith g [C_PLAYER; C_POSITION; C_RENDER] in
  let g := fold_left (enemy_vs_players players) enemies g in
  fold_left (bullet_vs_enemies enemies) bullets g.

(** *** RenderSystem (what is painted, not how) *)
Definition draw_all (g : Game) (cs : list CName) (f : Entity -> list DrawOp) : list DrawOp :=
  flat_map f (findAllWith g cs).

Definition system_Render (g : Game) : list DrawOp :=
  [DrawBackground]
  ++ draw_all g [C_STAR; C_POSITION; C_RENDER]
       (fun s => match position s, render s, star s with
                 | Some pos, Some r, Some b => [DrawStar pos (size r) b]
                 | _, _, _ => []
                 end)
  ++ draw_all g [C_PLAYER; C_POSITION; C_RENDER; C_VELOCITY]
       (fun p => match position p, render p, velocity p with
                 | Some pos, Some r, Some vel =>
                     DrawShip pos (size r)
                     :: (if Qabs_gt (x vel) (1 # 2) || Qabs_gt (y vel) (1 # 2)
                         then [DrawFlame pos (size r)] else [])
                 | _, _, _ => []
                 end)
  ++ draw_all g [C_BULLET; C_POSITION; C_RENDER]
       (fun b => match position b, render b with
                 | Some pos, Some r => [DrawBullet pos (size r)]
                 | _, _ => []
                 end)
  ++ draw_all g [C_ENEMY; C_POSITION; C_RENDER]
       (fun e => match position e, render e with
                 | Some pos, Some r => [DrawEnemy pos (size r)]
                 | _, _ => []
                 end)
  ++ [DrawScore (score g)]
  ++ hearts true 0 (hp g)
  ++ hearts false (hp g) 3
  ++ (if Phase_eqb (gameState g) gameOver then [DrawGameOver (score g)] else []).

(** *** One frame *)
Definition updateAndRender (g : Game) (dtMs : Z) (o : Oracle) : Game * list DrawOp :=
  if Phase_eqb (gameState g) gameOver then
    let g := system_Movement g dtMs o in
    (g, system_Render g)
  else
    let g := system_InputToPlayer g dtMs in
    let g := system_Shooting g o in
    let g := system_EnemySpawn g o in
    let g := system_Movement g dtMs o in
    let g := system_Collision g in
    let g := system_Cleanup g in
    (g, system_Render g).

Definition tick (g : Game) (dtMs : Z) (o : Oracle) : Game :=
  fst (updateAndRender g dtMs o).

(** The states a host can bring the game into. *)
Inductive reachable : Game -> Prop :=
| reach_new : forall ro, reachable (new_Game ro)
| reach_tick : forall g dt o, reachable g -> reachable (tick g dt o)
| reach_reset : forall g ro, reachable g -> reachable (reset g false ro)
| reach_setInput : forall g u, reachable g -> reachable (setInput g u).

(** A run of frames: the handlers' input writes, then the frame. *)
Record Frame : Type := mkFrame {
  f_input : InputUpdates; f_dt : Z; f_oracle : Oracle
}.

Definition step (g : Game) (f : Frame) : Game :=
  tick (setInput g (f_input f)) (f_dt f) (f_oracle f).

Definition run (g : Game) (frames : list Frame) : Game :=
  fold_left step frames g.

(** The recorded fire time after each frame in which it changed. *)
Fixpoint fire_times (g : Game) (frames : list Frame) : list Z :=
  match frames with
  | [] => []
  | f :: rest =>
      let g' := step g f in
      if (lastFireTime g' =? lastFireTime g)%Z then fire_times g' rest
      else lastFireTime g' :: fire_times g' rest
  end.

End Systems.

End ECS.

(** ** The flat object-list implementation *)
Module Flat.

Inductive Owner : Type := owner_player | owner_enemy.
Inductive EnemyType : Type := basic.

Record GameObject : Type := mkObject {
  position : Vec2; velocity : Vec2; size : Qc; color : string; active : bool
}.
Record Player : Type := mkPlayer { player_base :> GameObject; health : Z }.
Record Enemy : Type := mkEnemy { enemy_base :> GameObject; type : EnemyType }.
Record Bullet : Type := mkBullet { bullet_base :> GameObject; owner : Owner }.
Record Star : Type := mkStar { star_base :> GameObject; brightness : Qc }.

(** The [input] object also has a [targetPos] field, which nothing reads or
    writes; it is left out. *)
Record Game : Type := mkGame {
  score : Z;
  hp : Z;
  gameState : Phase;
  player : Player;
  bullets : list Bullet;
  enemies : list Enemy;
  stars : list Star;
  input : Input;
  lastFireTime : Z
}.

Record ResetOracle : Type := mkResetOracle {
  star_x0 : nat -> Qc;
  star_y0 : nat -> Qc;
  star_vy0 : nat -> Qc;
  star_size0 : nat -> Qc;
  star_brightness0 : nat -> Qc
}.

Record Oracle : Type := mkOracle {
  now : Z;                  (* Date.now() *)
  wrap_x : nat -> Qc;        (* per star index: new column on wrap *)
  wrap_vy : nat -> Qc;       (* per star index: new speed on wrap *)
  spawn_roll : Qc;           (* Math.random() < ENEMY_SPAWN_RATE *)
  spawn_x : Qc               (* the spawn column draw *)
}.

Definition with_position (o : GameObject) (p : Vec2) : GameObject :=
  mkObject p (velocity o) (size o) (color o) (active o).
Definition with_velocity (o : GameObject) (v : Vec2) : GameObject :=
  mkObject (position o) v (size o) (color o) (active o).

Definition initialPlayer : Player :=
  mkPlayer (mkObject (createVector2 (GAME_WIDTH / 2) (GAME_HEIGHT - 60))
                     (createVector2 0 0) PLAYER_SIZE "#00ff88" true) 3.

Definition initStars (ro : ResetOracle) : list Star :=
  map (fun k =>
         mkStar (mkObject (createVector2 (star_x0 ro k * GAME_WIDTH)
                                         (star_y0 ro k * GAME_HEIGHT))
                          (createVector2 0 (star_vy0 ro k * (3 # 2) + (3 # 10)))
                          (star_size0 ro k * 2 + (1 # 2)) "#fff" true)
                (star_brightness0 ro k * (4 # 5) + (1 # 5)))
      (seq 0 STAR_COUNT).

Definition initialInput : Input :=
  mkInput false false false false false false
          (createVector2 (GAME_WIDTH / 2) (GAME_HEIGHT / 2)).

(** [new Game()] *)
Definition new_Game (ro : ResetOracle) : Game :=
  mkGame 0 3 playing initialPlayer [] [] (initStars ro) initialInput 0.

(** [reset()] *)
Definition reset (g : Game) (ro : ResetOracle) : Game :=
  mkGame 0 3 playing initialPlayer [] [] (initStars ro) (input g) (lastFireTime g).

(** The event handlers write the fields of [game.input] directly. *)
Definition set_input (g : Game) (inp : Input) : Game :=
  mkGame (score g) (hp g) (gameState g) (player g) (bullets g) (enemies g)
         (stars g) inp (lastFireTime g).

Fixpoint mapi_from {A B : Type} (k : nat) (f : nat -> A -> B) (l : list A) : list B :=
  match l with
  | [] => []
  | a :: rest => f k a :: mapi_from (S k) f rest
  end.

Section Update.
Variable sqrt : Qc -> Qc.

(** [isColliding a b = distance(a.position, b.position) < (a.size + b.size) / 2] *)
Definition isColliding (a b : GameObject) : bool :=
  Qltb (distance sqrt (position a) (position b)) ((size a + size b) / 2).

Definition move_player (inp : Input) (p : Player) : Player :=
  let target := targetVel sqrt inp (position p) in
  let vel := createVector2 (lerp (x (velocity p)) (x target) (15 # 100))
                           (lerp (y (velocity p)) (y target) (15 # 100)) in
  let px := x (position p) + x vel in
  let py := y (position p) + y vel in
  let px := clamp px (size p / 2) (GAME_WIDTH - size p / 2) in
  let py := clamp py (size p / 2) (GAME_HEIGHT - size p / 2) in
  mkPlayer (mkObject (createVector2 px py) vel (size p) (color p) (active p))
           (health p).

Definition newBullet (p : Player) : Bullet :=
  mkBullet (mkObject (createVector2 (x (position p)) (y (position p)))
                     (createVector2 0 (- BULLET_SPEED)) BULLET_SIZE "#ffff00" true)
           owner_player.

Definition fires (g : Game) (o : Oracle) : bool :=
  shoot (input g) && (BULLET_FIRE_RATE <? now o - lastFireTime g)%Z.

Definition move_star (o : Oracle) (k : nat) (s : Star) : Star :=
  let py := y (position s) + y (velocity s) in
  if Qltb (GAME_HEIGHT + 5) py then
    mkStar (mkObject (createVector2 (wrap_x o k * GAME_WIDTH) (-5))
                     (createVector2 (x (velocity s)) (wrap_vy o k * (3 # 2) + (3 # 10)))
                     (size s) (color s) (active s))
           (brightness s)
  else
    mkStar (with_position s (createVector2 (x (position s)) py)) (brightness s).

(** [o.position.y += o.velocity.y] *)
Definition fall (o : GameObject) : GameObject :=
  with_position o (createVector2 (x (position o)) (y (position o) + y (velocity o))).

Definition move_bullet (b : Bullet) : Bullet := mkBullet (fall b) (owner b).
Definition move_enemy (e : Enemy) : Enemy := mkEnemy (fall e) (type e).

Definition bullet_in_bounds (b : Bullet) : bool :=
  Qltb (-20) (y (position b)) && Qltb (y (position b)) (GAME_HEIGHT + 20).

Definition enemy_in_bounds (e : Enemy) : bool :=
  Qltb (y (position e)) (GAME_HEIGHT + size e + 10).

Definition newEnemy (o : Oracle) : Enemy :=
  mkEnemy (mkObject (createVector2 (spawn_x o * (GAME_WIDTH - ENEMY_SIZE)) (- ENEMY_SIZE))
                    (createVector2 0 ENEMY_SPEED) ENEMY_SIZE "#ff4444" true)
          basic.

(** The inner [this.enemies.filter] of the bullet pass: every enemy the
    bullet overlaps is dropped and scored; [hit] records whether any was. *)
Fixpoint hit_enemies (b : Bullet) (es : list Enemy) (sc : Z) (hit : bool)
  : list Enemy * Z * bool :=
  match es with
  | [] => ([], sc, hit)
  | e :: rest =>
      if isColliding b e then hit_enemies b rest (sc + 100)%Z true
      else
        let '(kept, sc', hit') := hit_enemies b rest sc hit in
        (e :: kept, sc', hit')
  end.

(** The outer [this.bullets.filter]. *)
Fixpoint bullets_pass (bs : list Bullet) (es : list Enemy) (sc : Z)
  : list Bullet * list Enemy * Z :=
  match bs with
  | [] => ([], es, sc)
  | b :: rest =>
      match owner b with
      | owner_player =>
          let '(es1, sc1, hit) := hit_enemies b es sc false in
          let '(kept, es2, sc2) := bullets_pass rest es1 sc1 in
          (if hit then kept else b :: kept, es2, sc2)
      | owner_enemy =>
          let '(kept, es2, sc2) := bullets_pass rest es sc in
          (b :: kept, es2, sc2)
      end
  end.

(** The final [this.enemies.filter]: player against every enemy. *)
Fixpoint player_pass (p : Player) (es : list Enemy) (h : Z) (st : Phase)
  : list Enemy * Z * Phase :=
  match es with
  | [] => ([], h, st)
  | e :: rest =>
      if isColliding p e then
        let h1 := (h - 1)%Z in
        player_pass p rest h1 (if (h1 <=? 0)%Z then gameOver else st)
      else
        let '(kept, h', st') := player_pass p rest h st in
        (e :: kept, h', st')
  end.

(** [update()] *)
Definition update (g : Game) (o : Oracle) : Game :=
  if Phase_eqb (gameState g) gameOver then g
  else
    let p := move_player (input g) (player g) in
    let fire := fires g o in
    let bs := if fire then bullets g ++ [newBullet p] else bullets g in
    let last := if fire then now o else lastFireTime g in
    let ss := mapi_from 0 (move_star o) (stars g) in
    let bs := filter bullet_in_bounds (map move_bullet bs) in
    let es := filter enemy_in_bounds (map move_enemy (enemies g)) in
    let es := if Qltb (spawn_roll o) ENEMY_SPAWN_RATE then es ++ [newEnemy o] else es in
    let '(bs, es, sc) := bullets_pass bs es (score g) in
    let '(es, h, st) := player_pass p es (hp g) (gameState g) in
    mkGame sc h st p bs es ss (input g) last.

(** [render(ctx)] *)
Definition render (g : Game) : list DrawOp :=
  [DrawBackground]
  ++ map (fun s : Star => DrawStar (position s) (size s) (brightness s)) (stars g)
  ++ (let p := player g in
      if active p then
        DrawShip (position p) (size p)
        :: (if Qabs_gt (x (velocity p)) (1 # 2) || Qabs_gt (y (velocity p)) (1 # 2)
            then [DrawFlame (position p) (size p)] else [])
      else [])
  ++ map (fun b : Bullet => DrawBullet (position b) (size b)) (bullets g)
  ++ map (fun e : Enemy => DrawEnemy (position e) (size e)) (enemies g)
  ++ [DrawScore (score g)]
  ++ hearts true 0 (hp g)
  ++ hearts false (hp g) 3
  ++ (if Phase_eqb (gameState g) gameOver then [DrawGameOver (score g)] else []).

(** One pass of the host's [loop]: [update()], then [render(ctx)]. *)
Definition loop (g : Game) (o : Oracle) : Game * list DrawOp :=
  let g := update g o in (g, render g).

Inductive reachable : Game -> Prop :=
| reach_new : forall ro, reachable (new_Game ro)
| reach_update : forall g o, reachable g -> reachable (update g o)
| reach_reset : forall g ro, reachable g -> reachable (reset g ro)
| reach_input : forall g inp, reachable g -> reachable (set_input g inp).

(** A run of frames, each with the input written before it. *)
Definition step (g : Game) (f : Input * Oracle) : Game :=
  update (set_input g (fst f)) (snd f).

Definition run (g : Game) (frames : list (Input * Oracle)) : Game :=
  fold_left step frames g.

(** The recorded fire time after each frame in which it changed. *)
Fixpoint fire_times (g : Game) (frames : list (Input * Oracle)) : list Z :=
  match frames with
  | [] => []
  | f :: rest =>
      let g' := step g f in
      if (lastFireTime g' =? lastFireTime g)%Z then fire_times g' rest
      else lastFireTime g' :: fire_times g' rest
  end.

End Update.

End Flat.


(** ** Concrete runs used by the closed examples *)
Module Examples.

(** Oracles whose star draws are all 0. *)
Definition flat_stars0 : Flat.ResetOracle :=
  Flat.mkResetOracle (fun _ => 0) (fun _ => 0) (fun _ => 0) (fun _ => 0) (fun _ => 0).

Definition ecs_stars0 (t : Z) : ECS.ResetOracle :=
  ECS.mkResetOracle t (fun _ => 0) (fun _ => 0) (fun _ => 0) (fun _ => 0) (fun _ => 0).

Definition idle : Input :=
  mkInput false false false false false false (createVector2 160 284).

Definition holding : Input :=
  mkInput false false false false true false (createVector2 160 284).

(** A flat frame at time [t]: no spawn ([spawn_roll = 1/2]). *)
Definition flat_quiet (t : Z) : Flat.Oracle :=
  Flat.mkOracle t (fun _ => 0) (fun _ => 0) (1 # 2) 0.

(** A flat frame at time [t] that spawns an enemy in column [ex]. *)
Definition flat_spawn (t : Z) (ex : Qc) : Flat.Oracle :=
  Flat.mkOracle t (fun _ => 0) (fun _ => 0) 0 (ex / 304).

(** Frames every 16 ms from [t0]. *)
Definition flat_quiet_frames (inp : Input) (t0 : Z) (n : nat) : list (Input * Flat.Oracle) :=
  map (fun k => (inp, flat_quiet (t0 + 16 * Z.of_nat k))) (seq 0 n).

(** Four enemies spawned on consecutive frames in columns 172, 170, 166
    and 160, then 338 quiet frames; the player never moves. *)
Definition frames_four_enemies : list (Input * Flat.Oracle) :=
  [(idle, flat_spawn 1000 172); (idle, flat_spawn 1016 170);
   (idle, flat_spawn 1032 166); (idle, flat_spawn 1048 160)]
  ++ flat_quiet_frames idle 1064 338.

(** One shot and two enemies spawned on consecutive frames in the player's
    column, then 59 quiet frames. *)
Definition frames_one_bullet_two_enemies : list (Input * Flat.Oracle) :=
  [(holding, flat_spawn 1000 160); (idle, flat_spawn 1016 160)]
  ++ flat_quiet_frames idle 1032 59.


Definition no_updates : ECS.InputUpdates :=
  ECS.mkUpdates None None None None None None None.

Definition press_shoot : ECS.InputUpdates :=
  ECS.mkUpdates None None None None (Some true) None None.

Definition ecs_quiet (t : Z) : ECS.Oracle :=
  ECS.mkOracle t (1 # 2) 0 (fun _ => 0) (fun _ => 0).

(** An ECS frame that spawns an enemy in column [ex]. *)
Definition ecs_spawn (t : Z) (ex : Qc) : ECS.Oracle :=
  ECS.mkOracle t 0 ((ex - 8) / 304) (fun _ => 0) (fun _ => 0).

Definition ecs_quiet_frames (t0 : Z) (n : nat) : list ECS.Frame :=
  map (fun k => ECS.mkFrame no_updates 16 (ecs_quiet (t0 + 16 * Z.of_nat k))) (seq 0 n).

(** Shoot pressed at the first frame and held; a frame every 16 ms from
    1016 to 1496, after a reset at 1000. *)
Definition ecs_hold_16ms : list ECS.Frame :=
  ECS.mkFrame press_shoot 16 (ecs_quiet 1016) :: ecs_quiet_frames 1032 30.

(** Three enemies in the player's column and a fourth in column 20. *)
Definition ecs_four_enemies : list ECS.Frame :=
  [ECS.mkFrame no_updates 16 (ecs_spawn 16 160);
   ECS.mkFrame no_updates 16 (ecs_spawn 32 160);
   ECS.mkFrame no_updates 16 (ecs_spawn 48 160);
   ECS.mkFrame no_updates 16 (ecs_spawn 64 20)].

(** The enemies of a store with their heights. *)
Definition ecs_enemy_heights (g : ECS.Game) : list (Z * Q) :=
  flat_map (fun e => match ECS.position e with
                     | Some pos => [(ECS.id e, this (y pos))]
                     | None => []
                     end)
           (ECS.findAllWith g [ECS.C_ENEMY]).

(** Shoot pressed on the first frame and held, an enemy spawned in column
    20 on that frame; [n] more frames, one every 16 ms, after a reset
    at 1000. *)
Definition ecs_volley (n : nat) : list ECS.Frame :=
  ECS.mkFrame press_shoot 16 (ecs_spawn 1016 20) :: ecs_quiet_frames 1032 n.

(** The same for the flat version, from time 1000. *)
Definition flat_volley (n : nat) : list (Input * Flat.Oracle) :=
  (holding, flat_spawn 1000 20) :: flat_quiet_frames holding 1016 n.

(** How many bullets, enemies and time-to-live components a store holds. *)
Definition ecs_counts (g : ECS.Game) : nat * nat * nat :=
  (List.length (ECS.findAllWith g [ECS.C_BULLET]),
   List.length (ECS.findAllWith g [ECS.C_ENEMY]),
   List.length (ECS.findAllWith g [ECS.C_LIFETIME])).

Definition flat_counts (g : Flat.Game) : nat * nat :=
  (List.length (Flat.bullets g), List.length (Flat.enemies g)).





(** Two states in which the game is over. *)
Definition ecs_over : ECS.Game :=
  ECS.mkGame 3 [ECS.newPlayer 1; ECS.newInput 2] 300 0 gameOver 0.

Definition flat_over : Flat.Game :=
  Flat.mkGame 300 0 gameOver Flat.initialPlayer [] [] [] idle 0.

End Examples.

(** ** More of src/app/page.tsx: class Entity and the React host *)
Module ECSHost.
Import ECS.

(** *** class Entity: [add], [remove], [get] on the component map.
    Every [add] of the source pairs a component name with a payload of that
    component's shape, so a payload carries its name. *)
Inductive Component : Type :=
| position_c (v : Vec2)
| velocity_c (v : Vec2)
| render_c (r : Render)
| player_c (health : Z)
| bullet_c (b : BulletC)
| enemy_c (t : EnemyType)
| star_c (brightness : Qc)
| input_c (i : Input)
| lifetime_c (t : Z).

Definition name_of (c : Component) : CName :=
  match c with
  | position_c _ => C_POSITION
  | velocity_c _ => C_VELOCITY
  | render_c _ => C_RENDER
  | player_c _ => C_PLAYER
  | bullet_c _ => C_BULLET
  | enemy_c _ => C_ENEMY
  | star_c _ => C_STAR
  | input_c _ => C_INPUT
  | lifetime_c _ => C_LIFETIME
  end.

(** [new Entity(id)]: an empty component map. *)
Definition new_Entity (i : Z) : Entity :=
  mkEntity i None None None None None None None None None.

(** [add(name, comp)] *)
Definition add (e : Entity) (c : Component) : Entity :=
  match c with
  | position_c v => with_position e (Some v)
  | velocity_c v => with_velocity e (Some v)
  | render_c r =>
      mkEntity (id e) (position e) (velocity e) (Some r) (player e) (bullet e)
               (enemy e) (star e) (input e) (lifetime e)
  | player_c h =>
      mkEntity (id e) (position e) (velocity e) (render e) (Some h) (bullet e)
               (enemy e) (star e) (input e) (lifetime e)
  | bullet_c b =>
      mkEntity (id e) (position e) (velocity e) (render e) (player e) (Some b)
               (enemy e) (star e) (input e) (lifetime e)
  | enemy_c t =>
      mkEntity (id e) (position e) (velocity e) (render e) (player e) (bullet e)
               (Some t) (star e) (input e) (lifetime e)
  | star_c b =>
      mkEntity (id e) (position e) (velocity e) (render e) (player e) (bullet e)
               (enemy e) (Some b) (input e) (lifetime e)
  | input_c i => with_input e (Some i)
  | lifetime_c t => with_lifetime e (Some t)
  end.

(** [remove(name)] *)
Definition remove (e : Entity) (name : CName) : Entity :=
  match name with
  | C_POSITION => with_position e None
  | C_VELOCITY => with_velocity e None
  | C_RENDER =>
      mkEntity (id e) (position e) (velocity e) None (player e) (bullet e)
               (enemy e) (star e) (input e) (lifetime e)
  | C_PLAYER =>
      mkEntity (id e) (position e) (velocity e) (render e) None (bullet e)
               (enemy e) (star e) (input e) (lifetime e)
  | C_BULLET =>
      mkEntity (id e) (position e) (velocity e) (render e) (player e) None
               (enemy e) (star e) (input e) (lifetime e)
  | C_ENEMY =>
      mkEntity (id e) (position e) (velocity e) (render e) (player e) (bullet e)
               None (star e) (input e) (lifetime e)
  | C_STAR =>
      mkEntity (id e) (position e) (velocity e) (render e) (player e) (bullet e)
               (enemy e) None (input e) (lifetime e)
  | C_INPUT => with_input e None
  | C_LIFETIME => with_lifetime e None
  end.

(** [get(name)]: [undefined] is [None]. *)
Definition get (e : Entity) (name : CName) : option Component :=
  match name with
  | C_POSITION => option_map position_c (position e)
  | C_VELOCITY => option_map velocity_c (velocity e)
  | C_RENDER => option_map render_c (render e)
  | C_PLAYER => option_map player_c (player e)
  | C_BULLET => option_map bullet_c (bullet e)
  | C_ENEMY => option_map enemy_c (enemy e)
  | C_STAR => option_map star_c (star e)
  | C_INPUT => option_map input_c (input e)
  | C_LIFETIME => option_map lifetime_c (lifetime e)
  end.

Definition CName_eqb (a b : CName) : bool :=
  match a, b with
  | C_POSITION, C_POSITION | C_VELOCITY, C_VELOCITY | C_RENDER, C_RENDER
  | C_PLAYER, C_PLAYER | C_BULLET, C_BULLET | C_ENEMY, C_ENEMY
  | C_STAR, C_STAR | C_INPUT, C_INPUT | C_LIFETIME, C_LIFETIME => true
  | _, _ => false
  end.

(** *** The keyboard handlers of the component *)
Definition only_left (b : bool) : InputUpdates :=
  mkUpdates (Some b) None None None None None None.
Definition only_right (b : bool) : InputUpdates :=
  mkUpdates None (Some b) None None None None None.
Definition only_up (b : bool) : InputUpdates :=
  mkUpdates None None (Some b) None None None None.
Definition only_down (b : bool) : InputUpdates :=
  mkUpdates None None None (Some b) None None None.
Definition only_shoot (b : bool) : InputUpdates :=
  mkUpdates None None None None (Some b) None None.

Definition is_code (code name : string) : bool := String.eqb code name.

(** [onKeyDown]: the [switch (e.code)] with its fall-through pairs. *)
Definition onKeyDown (g : Game) (code : string) : Game :=
  if is_code code "ArrowLeft" || is_code code "KeyA" then setInput g (only_left true)
  else if is_code code "ArrowRight" || is_code code "KeyD" then setInput g (only_right true)
  else if is_code code "ArrowUp" || is_code code "KeyW" then setInput g (only_up true)
  else if is_code code "ArrowDown" || is_code code "KeyS" then setInput g (only_down true)
  else if is_code code "Space" then setInput g (only_shoot true)
  else g.

(** [onKeyUp] *)
Definition onKeyUp (g : Game) (code : string) : Game :=
  if is_code code "ArrowLeft" || is_code code "KeyA" then setInput g (only_left false)
  else if is_code code "ArrowRight" || is_code code "KeyD" then setInput g (only_right false)
  else if is_code code "ArrowUp" || is_code code "KeyW" then setInput g (only_up false)
  else if is_code code "ArrowDown" || is_code code "KeyS" then setInput g (only_down false)
  else if is_code code "Space" then setInput g (only_shoot false)
  else g.

(** *** The pointer handlers *)

(** [getBoundingClientRect()] of the canvas. *)
Record Rect : Type := mkRect {
  rect_left : Qc; rect_top : Qc; rect_width : Qc; rect_height : Qc
}.

(** A mouse event, or a touch event with its list of touches. *)
Inductive PointerEvent : Type :=
| MouseEvent (clientX clientY : Qc)
| TouchEvent (touches : list (Qc * Qc)).

(** [getCanvasCoordinates(clientX, clientY)]; [rect] is [None] while the
    canvas is not mounted.  (A zero-sized rect divides by zero, which in the
    source gives a non-finite number and here gives 0: the properties below
    assume positive sizes.) *)
Definition getCanvasCoordinates (rect : option Rect) (clientX clientY : Qc) : option Vec2 :=
  match rect with
  | None => None
  | Some r =>
      Some (createVector2 (((clientX - rect_left r) / rect_width r) * GAME_WIDTH)
                          (((clientY - rect_top r) / rect_height r) * GAME_HEIGHT))
  end.

(** The position an event points at: its first touch, or the mouse. *)
Definition event_position (rect : option Rect) (e : PointerEvent) : option Vec2 :=
  match e with
  | TouchEvent [] => None
  | TouchEvent ((cx, cy) :: _) => getCanvasCoordinates rect cx cy
  | MouseEvent cx cy => getCanvasCoordinates rect cx cy
  end.

(** [resetGame] *)
Definition resetGame (g : Game) (ro : ResetOracle) : Game := reset g false ro.

(** [handlePointerStart] *)
Definition handlePointerStart (g : Game) (rect : option Rect) (e : PointerEvent)
           (ro : ResetOracle) : Game :=
  if Phase_eqb (gameState g) gameOver then resetGame g ro
  else
    match event_position rect e with
    | Some pos =>
        setInput g (mkUpdates None None None None (Some true) (Some true) (Some pos))
    | None => g
    end.

(** [handlePointerMove] *)
Definition handlePointerMove (g : Game) (rect : option Rect) (e : PointerEvent) : Game :=
  match event_position rect e with
  | Some pos => setInput g (mkUpdates None None None None None (Some true) (Some pos))
  | None => g
  end.

(** [handlePointerEnd] *)
Definition handlePointerEnd (g : Game) : Game :=
  setInput g (mkUpdates None None None None (Some false) (Some false) None).

End ECSHost.

(** ** The React host of the flat version: handlers that write the fields of
    [game.input] directly *)
Module FlatHost.
Import Flat.

Definition set_left (i : Input) (b : bool) : Input :=
  mkInput b (right i) (up i) (down i) (shoot i) (touching i) (mousePos i).
Definition set_right (i : Input) (b : bool) : Input :=
  mkInput (left i) b (up i) (down i) (shoot i) (touching i) (mousePos i).
Definition set_up (i : Input) (b : bool) : Input :=
  mkInput (left i) (right i) b (down i) (shoot i) (touching i) (mousePos i).
Definition set_down (i : Input) (b : bool) : Input :=
  mkInput (left i) (right i) (up i) b (shoot i) (touching i) (mousePos i).
Definition set_shoot (i : Input) (b : bool) : Input :=
  mkInput (left i) (right i) (up i) (down i) b (touching i) (mousePos i).
Definition set_touching (i : Input) (b : bool) : Input :=
  mkInput (left i) (right i) (up i) (down i) (shoot i) b (mousePos i).
Definition set_mousePos (i : Input) (p : Vec2) : Input :=
  mkInput (left i) (right i) (up i) (down i) (shoot i) (touching i) p.

(** [handleKeyDown] *)
Definition handleKeyDown (g : Game) (code : string) : Game :=
  if ECSHost.is_code code "ArrowLeft" || ECSHost.is_code code "KeyA"
  then set_input g (set_left (input g) true)
  else if ECSHost.is_code code "ArrowRight" || ECSHost.is_code code "KeyD"
  then set_input g (set_right (input g) true)
  else if ECSHost.is_code code "ArrowUp" || ECSHost.is_code code "KeyW"
  then set_input g (set_up (input g) true)
  else if ECSHost.is_code code "ArrowDown" || ECSHost.is_code code "KeyS"
  then set_input g (set_down (input g) true)
  else if ECSHost.is_code code "Space" then set_input g (set_shoot (input g) true)
  else g.

(** [handleKeyUp] *)
Definition handleKeyUp (g : Game) (code : string) : Game :=
  if ECSHost.is_code code "ArrowLeft" || ECSHost.is_code code "KeyA"
  then set_input g (set_left (input g) false)
  else if ECSHost.is_code code "ArrowRight" || ECSHost.is_code code "KeyD"
  then set_input g (set_right (input g) false)
  else if ECSHost.is_code code "ArrowUp" || ECSHost.is_code code "KeyW"
  then set_input g (set_up (input g) false)
  else if ECSHost.is_code code "ArrowDown" || ECSHost.is_code code "KeyS"
  then set_input g (set_down (input g) false)
  else if ECSHost.is_code code "Space" then set_input g (set_shoot (input g) false)
  else g.

(** [getCanvasCoordinates(e)]: here the event is taken apart inside. *)
Definition getCanvasCoordinates (rect : option ECSHost.Rect) (e : ECSHost.PointerEvent)
  : option Vec2 :=
  match rect with
  | None => None
  | Some r =>
      let at_client (clientX clientY : Qc) :=
        Some (createVector2
                (((clientX - ECSHost.rect_left r) / ECSHost.rect_width r) * GAME_WIDTH)
                (((clientY - ECSHost.rect_top r) / ECSHost.rect_height r) * GAME_HEIGHT)) in
      match e with
      | ECSHost.TouchEvent [] => None
      | ECSHost.TouchEvent ((cx, cy) :: _) => at_client cx cy
      | ECSHost.MouseEvent cx cy => at_client cx cy
      end
  end.

(** [resetGame] *)
Definition resetGame (g : Game) (ro : ResetOracle) : Game := reset g ro.

(** [handlePointerStart] *)
Definition handlePointerStart (g : Game) (rect : option ECSHost.Rect)
           (e : ECSHost.PointerEvent) (ro : ResetOracle) : Game :=
  if Phase_eqb (gameState g) gameOver then resetGame g ro
  else
    match getCanvasCoordinates rect e with
    | Some pos =>
        set_input g (set_shoot (set_mousePos (set_touching (input g) true) pos) true)
    | None => g
    end.

(** [handlePointerEnd] *)
Definition handlePointerEnd (g : Game) : Game :=
  set_input g (set_shoot (set_touching (input g) false) false).

(** [handlePointerMove] *)
Definition handlePointerMove (g : Game) (rect : option ECSHost.Rect)
           (e : ECSHost.PointerEvent) : Game :=
  match getCanvasCoordinates rect e with
  | Some pos => set_input g (set_touching (set_mousePos (input g) pos) true)
  | None => g
  end.

End FlatHost.

(** ** The player's path through a frame, over binary64 numbers

    JavaScript numbers are IEEE 754 binary64 values.  The modules above
    compute with exact rationals, which have neither NaN nor infinities.
    This module repeats, over the kernel's binary64 floats, the part of both
    source files that moves the player: the pointer coordinates, the target
    velocity, the smoothing, the integration and the clamp. *)
Module F64.
Import PrimFloat.
Local Open Scope float_scope.

(** The literal 0.15 denotes the binary64 value nearest to it, as in the
    source. *)
Set Warnings "-inexact-float".

Definition GAME_WIDTH : float := 320.
Definition GAME_HEIGHT : float := 568.
Definition PLAYER_SIZE : float := 20.
Definition PLAYER_SPEED : float := 4.5.

Record Vec2 : Type := createVector2 { x : float; y : float }.

(** [Math.min] and [Math.max]: NaN as soon as an argument is NaN.  (Which
    zero is returned for arguments of different sign is not modelled.) *)
Definition Math_min (a b : float) : float :=
  if is_nan a || is_nan b then nan else if b <? a then b else a.

Definition Math_max (a b : float) : float :=
  if is_nan a || is_nan b then nan else if a <? b then b else a.

(** [Math.hypot]: infinite as soon as an argument is infinite, as the
    language standard requires; otherwise taken to be the rounded square root
    of the sum of the squares. *)
Definition Math_hypot (dx dy : float) : float :=
  if is_infinity dx || is_infinity dy then infinity else sqrt (dx * dx + dy * dy).

(** [Math.sqrt(dx * dx + dy * dy)], the norm of the flat version. *)
Definition sqrt_sum (dx dy : float) : float := sqrt (dx * dx + dy * dy).

Definition clamp (v min max : float) : float := Math_max min (Math_min max v).

Definition lerp (a b t : float) : float := a + (b - a) * t.

Record Input : Type := mkInput {
  left : bool; right : bool; up : bool; down : bool;
  shoot : bool; touching : bool; mousePos : Vec2
}.

(** The input component made by [reset]. *)
Definition initialInput : Input :=
  mkInput false false false false false false
          (createVector2 (GAME_WIDTH / 2) (GAME_HEIGHT - 60)).

(** [getBoundingClientRect()] of the canvas. *)
Record Rect : Type := mkRect {
  rect_left : float; rect_top : float; rect_width : float; rect_height : float
}.

(** [getCanvasCoordinates] on a mounted canvas. *)
Definition getCanvasCoordinates (r : Rect) (clientX clientY : float) : Vec2 :=
  createVector2 (((clientX - rect_left r) / rect_width r) * GAME_WIDTH)
                (((clientY - rect_top r) / rect_height r) * GAME_HEIGHT).

(** What [handlePointerStart] writes while playing:
    [{ touching: true, mousePos: pos, shoot: true }]. *)
Definition press (inp : Input) (pos : Vec2) : Input :=
  mkInput (left inp) (right inp) (up inp) (down inp) true true pos.

(** What [handlePointerEnd] writes: [{ touching: false, shoot: false }]. *)
Definition release (inp : Input) : Input :=
  mkInput (left inp) (right inp) (up inp) (down inp) false false (mousePos inp).

(** The target velocity; [norm] is [Math.hypot] in the entity-component
    version and [sqrt_sum] in the flat one. *)
Definition targetVel (norm : float -> float -> float) (inp : Input) (pos : Vec2) : Vec2 :=
  let targetVelX := 0 in
  let targetVelY := 0 in
  let targetVelX := if left inp then targetVelX - PLAYER_SPEED else targetVelX in
  let targetVelX := if right inp then targetVelX + PLAYER_SPEED else targetVelX in
  let targetVelY := if up inp then targetVelY - PLAYER_SPEED else targetVelY in
  let targetVelY := if down inp then targetVelY + PLAYER_SPEED else targetVelY in
  if touching inp then
    let dx := x (mousePos inp) - x pos in
    let dy := y (mousePos inp) - y pos in
    let dist := norm dx dy in
    if 8 <? dist then
      let factor := Math_min 1 (dist / 60) in
      let targetVelX := dx * 0.15 * factor in
      let targetVelY := dy * 0.15 * factor in
      let speed := norm targetVelX targetVelY in
      if PLAYER_SPEED <? speed then
        createVector2 ((targetVelX / speed) * PLAYER_SPEED)
                      ((targetVelY / speed) * PLAYER_SPEED)
      else createVector2 targetVelX targetVelY
    else createVector2 targetVelX targetVelY
  else createVector2 targetVelX targetVelY.

(** The player: the position, velocity and render size of the
    entity-component version, the [player] object of the flat one. *)
Record Player : Type := mkPlayer { position : Vec2; velocity : Vec2; size : float }.

Definition initialPlayer : Player :=
  mkPlayer (createVector2 (GAME_WIDTH / 2) (GAME_HEIGHT - 60)) (createVector2 0 0)
           PLAYER_SIZE.

(** [vel.x = lerp(vel.x, targetVelX, 0.15)], and the same for [y]. *)
Definition steer (norm : float -> float -> float) (inp : Input) (p : Player) : Player :=
  let target := targetVel norm inp (position p) in
  mkPlayer (position p)
           (createVector2 (lerp (x (velocity p)) (x target) 0.15)
                          (lerp (y (velocity p)) (y target) 0.15))
           (size p).

(** [pos.x += vel.x; pos.y += vel.y] *)
Definition integrate (p : Player) : Player :=
  mkPlayer (createVector2 (x (position p) + x (velocity p))
                          (y (position p) + y (velocity p)))
           (velocity p) (size p).

(** The clamp of the player to the playfield. *)
Definition clamp_player (p : Player) : Player :=
  let half := size p / 2 in
  mkPlayer (createVector2 (clamp (x (position p)) half (GAME_WIDTH - half))
                          (clamp (y (position p)) half (GAME_HEIGHT - half)))
           (velocity p) (size p).

(** What a playing frame does to the player: the input system and then the
    movement system (entity-component), the first part of [update] (flat). *)
Definition player_frame (norm : float -> float -> float) (inp : Input) (p : Player) : Player :=
  clamp_player (integrate (steer norm inp p)).

(** A canvas that has no extent, and a press one unit right of and below
    its corner. *)
Definition empty_rect : Rect := mkRect 0 0 0 0.
Definition press_on_empty_rect : Vec2 := getCanvasCoordinates empty_rect 1 1.

(** A canvas shown at twice its logical size, and a press at its centre. *)
Definition double_rect : Rect := mkRect 0 0 640 1136.
Definition press_at_centre : Vec2 := getCanvasCoordinates double_rect 320 568.

(** The horizontal clamp of the player at a NaN position. *)
Definition clamp_of_nan : float :=
  clamp nan (PLAYER_SIZE / 2) (GAME_WIDTH - PLAYER_SIZE / 2).

(** The centre keeps a square of side [size] inside the playfield. *)
Definition within_field (size : float) (p : Vec2) : bool :=
  (size / 2 <=? x p) && (x p <=? GAME_WIDTH - size / 2)
  && (size / 2 <=? y p) && (y p <=? GAME_HEIGHT - size / 2).

Set Warnings "inexact-float".

End F64.
(** * Specification vocabulary *)

(** A score is a non-negative multiple of the kill bonus. *)
Definition multiple_of_100 (n : Z) : Prop := exists k : Z, (0 <= k)%Z /\ n = (100 * k)%Z.

(** A centre that keeps a square of side [size] inside the playfield. *)
Definition within_field (size : Qc) (p : Vec2) : Prop :=
  (size / 2 <= x p /\ x p <= GAME_WIDTH - size / 2)
  /\ (size / 2 <= y p /\ y p <= GAME_HEIGHT - size / 2).



Module ECSSpec.
Import ECS.

Definition hp_ok (g : Game) : Prop :=
  (0 <= hp g <= 3)%Z /\ (hp g = 0%Z <-> gameState g = gameOver).

(** What the entity created for the player looks like, for as long as it
    lives. *)
Definition player_shape (e : Entity) : Prop :=
  player e <> None ->
  (exists pos, position e = Some pos)
  /\ (exists r, render e = Some r /\ size r = PLAYER_SIZE)
  /\ bullet e = None /\ enemy e = None /\ lifetime e = None.

Definition is_player (e : Entity) : bool := has e C_PLAYER.

Definition ids_ok (g : Game) : Prop :=
  NoDup (map id (entities g))
  /\ Forall (fun e => (id e < nextId g)%Z) (entities g).

(** The structural invariant of the store. *)
Definition store_ok (g : Game) : Prop :=
  ids_ok g
  /\ Forall player_shape (entities g)
  /\ List.length (filter is_player (entities g)) = 1%nat.

(** [e'] is [e] after an in-place update that keeps its identity and
    kind. *)
Definition similar (e e' : Entity) : Prop :=
  id e' = id e /\ player e' = player e /\ render e' = render e
  /\ bullet e' = bullet e /\ enemy e' = enemy e
  /\ isSome (lifetime e') = isSome (lifetime e)
  /\ isSome (position e') = isSome (position e).

(** [g] is [g0] with some entities deleted, none of them a player. *)
Definition pruned (g0 g : Game) : Prop :=
  nextId g = nextId g0
  /\ exists keep : Entity -> bool,
       entities g = filter keep (entities g0)
       /\ forall e, In e (entities g0) -> is_player e = true -> keep e = true.

Definition player_in_field (g : Game) : Prop :=
  forall p pos, In p (entities g) -> is_player p = true ->
                position p = Some pos -> within_field PLAYER_SIZE pos.

(** The input component the systems read: that of the first entity
    carrying one. *)
Definition current_input (g : Game) : option Input :=
  match findAllWith g [C_INPUT] with
  | inputEntity :: _ => input inputEntity
  | [] => None
  end.

(** Neither the fire clock nor the id counter moved. *)
Definition same_clock (g g' : Game) : Prop :=
  lastFireTime g' = lastFireTime g /\ nextId g' = nextId g.

(** The store after the per-entity part of the movement loop. *)
Definition moved_store (g : Game) (dt : Z) (o : Oracle) : Game :=
  with_entities g (map (move_one o dt) (entities g)).

(** The state the collision pass of a playing frame starts from. *)
Definition before_collision (sqrt : Qc -> Qc) (g : Game) (dt : Z) (o : Oracle) : Game :=
  system_Movement
    (system_EnemySpawn (system_Shooting (system_InputToPlayer sqrt g dt) o) o) dt o.

(** Bullets and enemies inside the playfield widened by their margin. *)
Definition evicted_ok (g : Game) : Prop :=
  forall e pos,
    In e (entities g) -> has e C_BULLET || has e C_ENEMY = true ->
    position e = Some pos ->
    (- margin_of e <= y pos /\ y pos <= GAME_HEIGHT + margin_of e)
    /\ (- margin_of e <= x pos /\ x pos <= GAME_WIDTH + margin_of e).

(** Which systems leave the session scalars alone. *)
Definition same_session (g g' : Game) : Prop :=
  score g' = score g /\ hp g' = hp g /\ gameState g' = gameState g.

(** The bullets of the collision snapshot that overlap some enemy of the
    snapshot: the bullet-enemy collisions a pass resolves. *)
Definition bullet_hits (sqrt : Qc -> Qc) (bullets enemies : list Entity) : list Entity :=
  filter (fun b => existsb (overlap sqrt b) enemies) bullets.

Definition collision_hits (sqrt : Qc -> Qc) (g : Game) : list Entity :=
  bullet_hits sqrt (findAllWith g [C_BULLET; C_POSITION; C_RENDER])
                   (findAllWith g [C_ENEMY; C_POSITION; C_RENDER]).

Definition ttl_ok (g : Game) : Prop :=
  forall e t, In e (entities g) -> lifetime e = Some t -> (0 < t)%Z.
End ECSSpec.

Module FlatSpec.
Import Flat.

(** The bullets and enemies the collision passes of a playing frame start
    from. *)
Definition moved_bullets (sqrt : Qc -> Qc) (g : Game) (o : Oracle) : list Bullet :=
  filter bullet_in_bounds
         (map move_bullet
              (if fires g o
               then bullets g ++ [newBullet (move_player sqrt (input g) (player g))]
               else bullets g)).

Definition moved_enemies (g : Game) (o : Oracle) : list Enemy :=
  let es := filter enemy_in_bounds (map move_enemy (enemies g)) in
  if Qltb (spawn_roll o) ENEMY_SPAWN_RATE then es ++ [newEnemy o] else es.

(** The enemies left by the bullet pass of a playing frame. *)
Definition after_bullets (sqrt : Qc -> Qc) (g : Game) (o : Oracle) : list Enemy :=
  snd (fst (bullets_pass sqrt (moved_bullets sqrt g o) (moved_enemies g o) (score g))).

(** What the flat version does keep of the hit-point invariant. *)
Definition hp_loose (g : Game) : Prop :=
  (hp g <= 3)%Z /\ ((hp g <= 0)%Z <-> gameState g = gameOver).

Definition player_ok (g : Game) : Prop :=
  size (player g) = PLAYER_SIZE /\ within_field PLAYER_SIZE (position (player g)).

Definition hp_ok (g : Game) : Prop :=
  (0 <= hp g <= 3)%Z /\ (hp g = 0%Z <-> gameState g = gameOver).

Definition evicted_ok (g : Game) : Prop :=
  (forall b, In b (bullets g) ->
             - (20 : Qc) < y (position b) /\ y (position b) < GAME_HEIGHT + 20)
  /\ (forall e, In e (enemies g) -> y (position e) < GAME_HEIGHT + size e + 10).
End FlatSpec.


(** ** Vocabulary for the further properties *)

(** A draw of [Math.random()]. *)
Definition in_unit (q : Qc) : Prop := 0 <= q /\ q < 1.

(** The keyboard part of a target velocity along one axis. *)
Definition axis (plus minus : bool) : Qc :=
  match plus, minus with
  | true, false => PLAYER_SPEED
  | false, true => - PLAYER_SPEED
  | _, _ => 0
  end.

Definition is_heart (d : DrawOp) : bool :=
  match d with DrawHeart _ _ => true | _ => false end.

Module ECSMore.
Import ECS ECSSpec.

Definition unit_reset_draws (ro : ResetOracle) : Prop :=
  forall k, in_unit (star_x0 ro k) /\ in_unit (star_y0 ro k) /\ in_unit (star_vy0 ro k)
            /\ in_unit (star_size0 ro k) /\ in_unit (star_brightness0 ro k).

(** What a freshly drawn star looks like.  The upper bounds are closed:
    the source rounds, and a draw just below 1 can give the bound itself. *)
Definition fresh_star (e : Entity) : Prop :=
  exists pos vel r br,
    position e = Some pos /\ velocity e = Some vel /\ render e = Some r /\ star e = Some br
    /\ (0 <= x pos /\ x pos <= GAME_WIDTH) /\ (0 <= y pos /\ y pos <= GAME_HEIGHT)
    /\ x vel = 0 /\ (Q2Qc (3 # 10) <= y vel /\ y vel <= Q2Qc (18 # 10))
    /\ (Q2Qc (1 # 2) <= size r /\ size r <= Q2Qc (5 # 2))
    /\ (Q2Qc (1 # 5) <= br /\ br <= 1).

(** [Object.assign] twice is [Object.assign] once with the later fields
    winning. *)
Definition merge (u1 u2 : InputUpdates) : InputUpdates :=
  let pick {A : Type} (a b : option A) := match b with Some _ => b | None => a end in
  mkUpdates (pick (u_left u1) (u_left u2)) (pick (u_right u1) (u_right u2))
            (pick (u_up u1) (u_up u2)) (pick (u_down u1) (u_down u2))
            (pick (u_shoot u1) (u_shoot u2)) (pick (u_touching u1) (u_touching u2))
            (pick (u_mousePos u1) (u_mousePos u2)).

(** The overlapping (enemy, player) pairs of a collision snapshot, in the
    order the player pass visits them. *)
Definition player_hits (sqrt : Qc -> Qc) (players enemies : list Entity) : nat :=
  List.length (filter (fun ep => overlap sqrt (fst ep) (snd ep)) (list_prod enemies players)).

(** Stars and the input entity: the entities no system ever deletes. *)
Definition is_star (e : Entity) : bool := has e C_STAR.
Definition is_input (e : Entity) : bool := has e C_INPUT.
Definition is_passive (e : Entity) : bool := is_star e || is_input e.

Definition passive_shape (e : Entity) : Prop :=
  is_passive e = true -> bullet e = None /\ enemy e = None /\ lifetime e = None.

Definition census_ok (g : Game) : Prop :=
  Forall passive_shape (entities g)
  /\ List.length (filter is_star (entities g)) = STAR_COUNT
  /\ List.length (filter is_input (entities g)) = 1%nat.

(** An in-place update that also keeps the star and input components'
    presence. *)
Definition similar_kind (e e' : Entity) : Prop :=
  similar e e' /\ isSome (star e') = isSome (star e)
  /\ isSome (input e') = isSome (input e).

(** [g] is [g0] with some entities deleted, none of them passive. *)
Definition kept_passive (g0 g : Game) : Prop :=
  exists keep : Entity -> bool,
    entities g = filter keep (entities g0)
    /\ forall e, In e (entities g0) -> is_passive e = true -> keep e = true.

(** The session scalars after [k] lost hit points. *)
Definition after_hits (k : nat) (h : Z) (st : Phase) : Z * Phase :=
  (Z.max 0 (h - Z.of_nat k),
   if (0 <? Z.of_nat k)%Z && (h - Z.of_nat k <=? 0)%Z then gameOver else st).

End ECSMore.

Module FlatMore.
Import Flat.

Definition unit_reset_draws (ro : ResetOracle) : Prop :=
  forall k, in_unit (star_x0 ro k) /\ in_unit (star_y0 ro k) /\ in_unit (star_vy0 ro k)
            /\ in_unit (star_size0 ro k) /\ in_unit (star_brightness0 ro k).

Definition fresh_star (s : Star) : Prop :=
  (0 <= x (position s) /\ x (position s) <= GAME_WIDTH)
  /\ (0 <= y (position s) /\ y (position s) <= GAME_HEIGHT)
  /\ x (velocity s) = 0
  /\ (Q2Qc (3 # 10) <= y (velocity s) /\ y (velocity s) <= Q2Qc (18 # 10))
  /\ (Q2Qc (1 # 2) <= size s /\ size s <= Q2Qc (5 # 2))
  /\ (Q2Qc (1 # 5) <= brightness s /\ brightness s <= 1).

End FlatMore.
(** * Properties *)

(** ** Numbers and folds *)

Lemma Qltb_true (a b : Qc) : Qltb a b = true <-> a < b.
Proof.
  unfold Qltb. rewrite Qclt_alt. destruct (a ?= b); intuition congruence.
Qed.

Lemma Qltb_false (a b : Qc) : Qltb a b = false <-> b <= a.
Proof.
  split; intro H.
  - apply Qcnot_lt_le. rewrite <- Qltb_true. congruence.
  - destruct (Qltb a b) eqn:E; [|reflexivity].
    apply Qltb_true in E. exfalso. exact (Qcle_not_lt _ _ H E).
Qed.

Lemma clamp_range (v lo hi : Qc) : lo <= hi -> lo <= clamp v lo hi /\ clamp v lo hi <= hi.
Proof.
  intro Hlh. unfold clamp, Qcmax, Qcmin.
  destruct (Qltb v hi) eqn:E1.
  - destruct (Qltb lo v) eqn:E2.
    + apply Qltb_true in E1, E2. split; apply Qclt_le_weak; assumption.
    + split; [apply Qcle_refl | assumption].
  - destruct (Qltb lo hi) eqn:E2.
    + split; [assumption | apply Qcle_refl].
    + split; [apply Qcle_refl | assumption].
Qed.

Lemma fold_left_invariant {A B : Type} (P : A -> Prop) (f : A -> B -> A) (l : list B) :
  (forall a b, In b l -> P a -> P (f a b)) -> forall a, P a -> P (fold_left f l a).
Proof.
  induction l as [|b l IH]; simpl; intros Hf a Ha; [exact Ha|].
  apply IH; [intros; apply Hf; auto | apply Hf; auto].
Qed.

(** ** Fire times under a cooldown *)






(** ** The entity-component implementation *)
Section ECS_Facts.
Import ECS ECSSpec.
Variable sqrt : Qc -> Qc.

Lemma same_session_refl g : same_session g g.
Proof. repeat split. Qed.

Lemma same_session_trans g1 g2 g3 :
  same_session g1 g2 -> same_session g2 g3 -> same_session g1 g3.
Proof. unfold same_session; intuition congruence. Qed.

Lemma destroyEntity_session g e : same_session g (destroyEntity g e).
Proof. repeat split. Qed.

Lemma createEntity_session g mk : same_session g (createEntity g mk).
Proof. repeat split. Qed.

Lemma fold_destroy_session l g : same_session g (fold_left destroyEntity l g).
Proof.
  apply (fold_left_invariant (same_session g)); [|apply same_session_refl].
  intros a b _ H. eapply same_session_trans; [exact H | apply destroyEntity_session].
Qed.

Lemma system_InputToPlayer_session g dt : same_session g (system_InputToPlayer sqrt g dt).
Proof.
  unfold system_InputToPlayer.
  destruct (findAllWith g [C_INPUT]) as [|ie ?]; [apply same_session_refl|].
  destruct (input ie); repeat split.
Qed.

Lemma system_Shooting_session g o : same_session g (system_Shooting g o).
Proof.
  unfold system_Shooting.
  destruct (findAllWith g [C_INPUT]) as [|ie ?]; [apply same_session_refl|].
  destruct (input ie) as [inp|]; [|apply same_session_refl].
  destruct (findAllWith g [C_PLAYER; C_POSITION]) as [|p ?]; [apply same_session_refl|].
  destruct (shoot inp && _); [|apply same_session_refl].
  destruct (position p); repeat split.
Qed.

Lemma system_EnemySpawn_session g o : same_session g (system_EnemySpawn g o).
Proof. unfold system_EnemySpawn. destruct (Qltb _ _); repeat split. Qed.

Lemma system_Movement_session g dt o : same_session g (system_Movement g dt o).
Proof.
  unfold system_Movement.
  eapply same_session_trans;
    [|apply (fold_destroy_session _ (with_entities g (map (move_one o dt) (entities g))))].
  repeat split.
Qed.

Lemma system_Cleanup_session g : same_session g (system_Cleanup g).
Proof.
  unfold system_Cleanup.
  apply (fold_left_invariant (same_session g)); [|apply same_session_refl].
  intros a b _ H. destruct (out_of_bounds b); [|exact H].
  eapply same_session_trans; [exact H | apply destroyEntity_session].
Qed.

(** *** Collisions: hit points *)

Lemma lose_hp_ok g : hp_ok g -> hp_ok (lose_hp g).
Proof.
  unfold hp_ok, lose_hp. intros [Hr Hiff].
  destruct (hp g - 1 <=? 0)%Z eqn:E; simpl.
  - split; [lia | tauto].
  - apply Z.leb_gt in E. split; [lia|].
    split; intro H; [lia|]. apply Hiff in H. lia.
Qed.

Lemma lose_hp_le g : (0 <= hp g)%Z -> (0 <= hp (lose_hp g) <= hp g)%Z.
Proof.
  unfold lose_hp. intro H. destruct (hp g - 1 <=? 0)%Z eqn:E; simpl; [lia|].
  apply Z.leb_gt in E. lia.
Qed.

Lemma lose_hp_score g : score (lose_hp g) = score g.
Proof. unfold lose_hp. destruct (_ <=? _)%Z; reflexivity. Qed.

Lemma lose_hp_entities g : entities (lose_hp g) = entities g.
Proof. unfold lose_hp. destruct (_ <=? _)%Z; reflexivity. Qed.

Lemma lose_hp_nextId g : nextId (lose_hp g) = nextId g.
Proof. unfold lose_hp. destruct (_ <=? _)%Z; reflexivity. Qed.

Lemma lose_hp_lastFireTime g : lastFireTime (lose_hp g) = lastFireTime g.
Proof. unfold lose_hp. destruct (_ <=? _)%Z; reflexivity. Qed.

(** Any property of the session that a lost hit point and a destroyed
    entity preserve survives the player pass. *)
Lemma player_pass_invariant (P : Game -> Prop) players enemies :
  (forall g e, P g -> P (destroyEntity g e)) ->
  (forall g, P g -> P (lose_hp g)) ->
  forall g, P g -> P (fold_left (enemy_vs_players sqrt players) enemies g).
Proof.
  intros Hd Hl. apply fold_left_invariant. intros g enemy _ Hg.
  unfold enemy_vs_players. revert Hg. apply fold_left_invariant.
  intros g' p _ Hg'. destruct (overlap sqrt enemy p); auto.
Qed.

Lemma bullet_vs_enemies_find enemies g bullet :
  bullet_vs_enemies sqrt enemies g bullet =
  match find (overlap sqrt bullet) enemies with
  | Some enemy => destroyEntity (destroyEntity (add_score g 100) enemy) bullet
  | None => g
  end.
Proof.
  induction enemies as [|e rest IH]; simpl; [reflexivity|].
  destruct (overlap sqrt bullet e); [reflexivity | exact IH].
Qed.

Lemma find_existsb {A : Type} (f : A -> bool) (l : list A) :
  existsb f l = match find f l with Some _ => true | None => false end.
Proof.
  induction l as [|a l IH]; simpl; [reflexivity|].
  destruct (f a); [reflexivity | exact IH].
Qed.

Lemma bullet_pass_invariant (P : Game -> Prop) bullets enemies :
  (forall g e, P g -> P (destroyEntity g e)) ->
  (forall g, P g -> P (add_score g 100)) ->
  forall g, P g -> P (fold_left (bullet_vs_enemies sqrt enemies) bullets g).
Proof.
  intros Hd Hs. apply fold_left_invariant. intros g b _ Hg.
  rewrite bullet_vs_enemies_find. destruct (find _ _); auto.
Qed.

Lemma bullet_pass_score enemies bullets : forall g,
  score (fold_left (bullet_vs_enemies sqrt enemies) bullets g)
  = (score g + 100 * Z.of_nat (List.length (bullet_hits sqrt bullets enemies)))%Z.
Proof.
  unfold bullet_hits.
  induction bullets as [|b rest IH]; intro g; [simpl; lia|].
  cbn [fold_left filter].
  rewrite IH, bullet_vs_enemies_find, find_existsb.
  destruct (find (overlap sqrt b) enemies);
    cbn [List.length score destroyEntity with_entities add_score];
    rewrite ?Nat2Z.inj_succ; lia.
Qed.

Lemma system_Collision_hp_ok g : hp_ok g -> hp_ok (system_Collision sqrt g).
Proof.
  intro H. unfold system_Collision.
  apply bullet_pass_invariant; [intros g0 e H0; exact H0 | intros g0 H0; exact H0 |].
  apply player_pass_invariant; [intros g0 e H0; exact H0 | apply lose_hp_ok | exact H].
Qed.

Lemma system_Collision_hp_le g :
  (0 <= hp g)%Z -> (0 <= hp (system_Collision sqrt g) <= hp g)%Z.
Proof.
  intro H. unfold system_Collision.
  apply (bullet_pass_invariant (fun g' => 0 <= hp g' <= hp g)%Z); [auto | auto |].
  apply (player_pass_invariant (fun g' => 0 <= hp g' <= hp g)%Z);
    [auto | | cbv beta; lia].
  intros g0 H0. pose proof (lose_hp_le g0). cbv beta in *. lia.
Qed.

Lemma system_Collision_score g :
  score (system_Collision sqrt g)
  = (score g + 100 * Z.of_nat (List.length (collision_hits sqrt g)))%Z.
Proof.
  unfold system_Collision, collision_hits. rewrite bullet_pass_score. f_equal.
  apply (player_pass_invariant (fun g' => score g' = score g));
    [auto | intros; rewrite lose_hp_score; auto | reflexivity].
Qed.

(** *** The store: identities and the player *)

Lemma similar_refl e : similar e e.
Proof. repeat split. Qed.

Lemma similar_trans e1 e2 e3 : similar e1 e2 -> similar e2 e3 -> similar e1 e3.
Proof. unfold similar. intuition congruence. Qed.

Lemma similar_map (F : Entity -> Entity) es :
  (forall e, similar e (F e)) -> Forall2 similar es (map F es).
Proof. intro HF. induction es; simpl; constructor; auto. Qed.

Lemma similar_ids es es' : Forall2 similar es es' -> map id es' = map id es.
Proof.
  induction 1 as [|e e' es es' He _ IH]; simpl; [reflexivity|].
  destruct He as [-> _]. now rewrite IH.
Qed.

Lemma similar_shape e e' : similar e e' -> player_shape e -> player_shape e'.
Proof.
  unfold similar, player_shape.
  intros (_ & Hp & Hr & Hb & He & Hl & Hpos) H Hpl.
  rewrite Hp in Hpl. destruct (H Hpl) as ([pos Ep] & Hr' & Hb' & He' & Hl').
  rewrite Hr, Hb, He. repeat split; auto.
  - rewrite Ep in Hpos. destruct (position e'); [eauto | discriminate].
  - rewrite Hl' in Hl. destruct (lifetime e'); [discriminate | reflexivity].
Qed.

Lemma similar_players es es' :
  Forall2 similar es es' ->
  List.length (filter is_player es') = List.length (filter is_player es).
Proof.
  induction 1 as [|e e' es es' He _ IH]; [reflexivity|].
  destruct He as (_ & Hp & _). cbn [filter].
  replace (is_player e') with (is_player e) by (unfold is_player, has; now rewrite Hp).
  destruct (is_player e); cbn [List.length]; congruence.
Qed.

Lemma store_ok_similar g es' :
  Forall2 similar (entities g) es' -> store_ok g -> store_ok (with_entities g es').
Proof.
  intros HS ((Hnd & Hlt) & Hshape & Hone). unfold store_ok, ids_ok. simpl.
  rewrite (similar_ids _ _ HS), (similar_players _ _ HS).
  repeat split; auto.
  - clear - HS Hlt. induction HS as [|e e' es es' He _ IH]; [constructor|].
    inversion Hlt as [|? ? Hhd Htl]; subst. constructor; [|auto].
    destruct He as [-> _]. assumption.
  - clear - HS Hshape. induction HS as [|e e' es es' He _ IH]; [constructor|].
    inversion Hshape as [|? ? Hhd Htl]; subst.
    constructor; [eapply similar_shape; eauto | auto].
Qed.

Lemma NoDup_ids_inj es (e1 e2 : Entity) :
  NoDup (map id es) -> In e1 es -> In e2 es -> id e1 = id e2 -> e1 = e2.
Proof.
  induction es as [|e es IH]; simpl; [tauto|].
  intros Hnd [<-|H1] [<-|H2] Hid; inversion Hnd as [|? ? Hnot Hnd']; subst; auto.
  - exfalso. apply Hnot. rewrite Hid. now apply in_map.
  - exfalso. apply Hnot. rewrite <- Hid. now apply in_map.
Qed.

Lemma NoDup_ids_filter (f : Entity -> bool) es :
  NoDup (map id es) -> NoDup (map id (filter f es)).
Proof.
  induction es as [|e es IH]; simpl; [auto|].
  intro Hnd. inversion Hnd as [|? ? Hnot Hnd']; subst.
  destruct (f e); simpl; [constructor|]; auto.
  intro Hin. apply Hnot. apply in_map_iff in Hin. destruct Hin as (e' & He' & Hin).
  apply filter_In in Hin. apply in_map_iff. exists e'. tauto.
Qed.

Lemma filter_filter_absorb {A : Type} (f keep : A -> bool) l :
  (forall a, In a l -> f a = true -> keep a = true) ->
  filter f (filter keep l) = filter f l.
Proof.
  induction l as [|a l IH]; simpl; intro H; [reflexivity|].
  destruct (keep a) eqn:Ek; simpl.
  - destruct (f a); rewrite IH; auto.
  - destruct (f a) eqn:Ef; [|apply IH; auto].
    rewrite (H a) in Ek; auto. discriminate.
Qed.

Lemma pruned_refl g : pruned g g.
Proof.
  split; [reflexivity|]. exists (fun _ => true). split; [|auto].
  induction (entities g); simpl; congruence.
Qed.

Lemma pruned_players g0 g :
  pruned g0 g -> filter is_player (entities g) = filter is_player (entities g0).
Proof.
  intros (_ & keep & -> & Hk). now apply filter_filter_absorb.
Qed.

Lemma pruned_incl g0 g : pruned g0 g -> incl (entities g) (entities g0).
Proof.
  intros (_ & keep & -> & _) e He. apply filter_In in He. tauto.
Qed.

Lemma not_player_of_shape e :
  player_shape e -> (bullet e <> None \/ enemy e <> None \/ lifetime e <> None) ->
  is_player e = false.
Proof.
  unfold player_shape, is_player, has. intros H Hk.
  destruct (player e); [|reflexivity].
  destruct H as (_ & _ & Hb & He & Hl); [discriminate|]. tauto.
Qed.

Lemma pruned_destroy g0 g e :
  store_ok g0 -> pruned g0 g -> In e (entities g0) -> is_player e = false ->
  pruned g0 (destroyEntity g e).
Proof.
  intros ((Hnd & _) & _) (Hn & keep & Hk & Hp) He Hnp.
  split; [exact Hn|].
  exists (fun e0 => keep e0 && negb (id e0 =? id e)%Z). split.
  - simpl. rewrite Hk. clear. induction (entities g0) as [|a l IH]; simpl; [reflexivity|].
    destruct (keep a); simpl; [|exact IH].
    destruct (negb (id a =? id e)%Z); simpl; congruence.
  - intros p Hin Hpl. rewrite (Hp p Hin Hpl). simpl.
    destruct (id p =? id e)%Z eqn:E; [|reflexivity].
    apply Z.eqb_eq in E. rewrite (NoDup_ids_inj _ _ _ Hnd Hin He E) in Hpl. congruence.
Qed.

Lemma pruned_store_ok g0 g : store_ok g0 -> pruned g0 g -> store_ok g.
Proof.
  intros Hok Hpr. pose proof (pruned_players _ _ Hpr) as Hpl.
  destruct Hok as ((Hnd & Hlt) & Hshape & Hone).
  destruct Hpr as (Hn & keep & Hk & Hp).
  unfold store_ok, ids_ok. rewrite Hpl, Hn, Hk. repeat split; auto.
  - now apply NoDup_ids_filter.
  - apply Forall_forall. intros e He. apply filter_In in He.
    rewrite Forall_forall in Hlt. apply Hlt. tauto.
  - apply Forall_forall. intros e He. apply filter_In in He.
    rewrite Forall_forall in Hshape. apply Hshape. tauto.
Qed.

Lemma pruned_in_field g0 g : pruned g0 g -> player_in_field g0 -> player_in_field g.
Proof.
  intros Hpr H p pos Hin. apply H. now apply (pruned_incl _ _ Hpr).
Qed.

(** *** In-place updates keep identity and kind *)

Lemma similar_steer inp e : similar e (steer sqrt inp e).
Proof.
  unfold steer. destruct (position e) eqn:Ep; [|apply similar_refl].
  destruct (velocity e); [|apply similar_refl].
  unfold similar; simpl. rewrite Ep. repeat split.
Qed.

Lemma similar_integrate e : similar e (integrate e).
Proof.
  unfold integrate. destruct (position e) eqn:Ep; [|apply similar_refl].
  destruct (velocity e); [|apply similar_refl].
  unfold similar; simpl. rewrite Ep. repeat split.
Qed.

Lemma similar_wrap_star o e : similar e (wrap_star o e).
Proof.
  unfold wrap_star. destruct (star e); [|apply similar_refl].
  destruct (position e) eqn:Ep; [|apply similar_refl].
  destruct (velocity e); [|apply similar_refl].
  destruct (Qltb _ _); [|apply similar_refl].
  unfold similar; simpl. rewrite Ep. repeat split.
Qed.

Lemma similar_age dt e : similar e (age dt e).
Proof.
  unfold age. destruct (lifetime e) eqn:El; [|apply similar_refl].
  unfold similar; simpl. rewrite El. repeat split.
Qed.

Lemma similar_move_one o dt e : similar e (move_one o dt e).
Proof.
  unfold move_one.
  eapply similar_trans; [apply similar_integrate|].
  eapply similar_trans; [apply similar_wrap_star | apply similar_age].
Qed.

Lemma similar_clamp_player e : similar e (clamp_player e).
Proof.
  unfold clamp_player. destruct (forallb _ _); [|apply similar_refl].
  destruct (position e) eqn:Ep; [|apply similar_refl].
  destruct (render e); [|apply similar_refl].
  unfold similar; simpl. rewrite Ep. repeat split.
Qed.

Lemma clamp_player_lifetime e : lifetime (clamp_player e) = lifetime e.
Proof.
  unfold clamp_player. destruct (forallb _ _); [|reflexivity].
  destruct (position e); [|reflexivity]. destruct (render e); reflexivity.
Qed.

Lemma similar_assign_first es u : Forall2 similar es (assign_first es u).
Proof.
  induction es as [|e es IH]; simpl; [constructor|].
  destruct (input e).
  - constructor; [repeat split|].
    clear. induction es; constructor; [apply similar_refl | assumption].
  - constructor; [apply similar_refl | exact IH].
Qed.

Lemma store_ok_setInput g u : store_ok g -> store_ok (setInput g u).
Proof. apply store_ok_similar, similar_assign_first. Qed.

Lemma store_ok_InputToPlayer g dt : store_ok g -> store_ok (system_InputToPlayer sqrt g dt).
Proof.
  intro H. unfold system_InputToPlayer.
  destruct (findAllWith g [C_INPUT]) as [|ie ?]; [exact H|].
  destruct (input ie) as [inp|]; [|exact H].
  apply store_ok_similar; [|exact H]. apply similar_map.
  intro e. destruct (forallb _ _); [apply similar_steer | apply similar_refl].
Qed.

(** *** Creation *)

Lemma map_set_fresh es e :
  (forall e0, In e0 es -> id e0 <> id e) -> map_set es e = es ++ [e].
Proof.
  induction es as [|a es IH]; simpl; intro H; [reflexivity|].
  destruct (id a =? id e)%Z eqn:E.
  - apply Z.eqb_eq in E. exfalso. apply (H a); auto.
  - rewrite IH; auto.
Qed.

Lemma createEntity_entities g mk :
  ids_ok g -> id (mk (nextId g)) = nextId g ->
  entities (createEntity g mk) = entities g ++ [mk (nextId g)].
Proof.
  intros (_ & Hlt) Hid. simpl. apply map_set_fresh.
  intros e0 Hin. rewrite Forall_forall in Hlt. specialize (Hlt _ Hin). lia.
Qed.

Lemma ids_ok_create g mk :
  ids_ok g -> id (mk (nextId g)) = nextId g -> ids_ok (createEntity g mk).
Proof.
  intros Hok Hid. pose proof (createEntity_entities g mk Hok Hid) as Hes.
  destruct Hok as (Hnd & Hlt). unfold ids_ok. rewrite Hes. split.
  - rewrite map_app. simpl. rewrite Hid.
    apply NoDup_app; [exact Hnd | repeat constructor; auto | ].
    intros i Hin [<-|[]]. apply in_map_iff in Hin. destruct Hin as (e & He & Hin).
    rewrite Forall_forall in Hlt. specialize (Hlt _ Hin). lia.
  - apply Forall_app. split.
    + eapply Forall_impl; [|exact Hlt]. simpl. intros; lia.
    + repeat constructor. rewrite Hid. simpl. lia.
Qed.

Lemma store_ok_create g mk :
  store_ok g -> id (mk (nextId g)) = nextId g -> player (mk (nextId g)) = None ->
  store_ok (createEntity g mk).
Proof.
  intros (Hids & Hshape & Hone) Hid Hnp.
  pose proof (createEntity_entities g mk Hids Hid) as Hes.
  split; [now apply ids_ok_create|]. rewrite Hes. split.
  - apply Forall_app. split; [exact Hshape|]. constructor; [|constructor].
    unfold player_shape. intro Hp. congruence.
  - rewrite filter_app, length_app. simpl.
    unfold is_player at 2, has. rewrite Hnp. simpl. lia.
Qed.

Lemma store_ok_Shooting g o : store_ok g -> store_ok (system_Shooting g o).
Proof.
  intro H. unfold system_Shooting.
  destruct (findAllWith g [C_INPUT]) as [|ie ?]; [exact H|].
  destruct (input ie) as [inp|]; [|exact H].
  destruct (findAllWith g [C_PLAYER; C_POSITION]) as [|p ?]; [exact H|].
  destruct (shoot inp && _); [|exact H].
  destruct (position p) as [ppos|]; [|exact H].
  pose proof (store_ok_create g (newBullet ppos) H eq_refl eq_refl) as H'.
  exact H'.
Qed.

Lemma store_ok_EnemySpawn g o : store_ok g -> store_ok (system_EnemySpawn g o).
Proof.
  intro H. unfold system_EnemySpawn. destruct (Qltb _ _); [|exact H].
  now apply store_ok_create.
Qed.

(** *** Deletion *)

Lemma destroyEntity_In g d e :
  In e (entities (destroyEntity g d)) <-> In e (entities g) /\ id e <> id d.
Proof.
  simpl. rewrite filter_In, negb_true_iff, Z.eqb_neq. tauto.
Qed.

(** What is left after a loop that deletes the entities [c] selects. *)
Lemma cond_destroy_In (c : Entity -> bool) l : forall g e,
  In e (entities (fold_left (fun g d => if c d then destroyEntity g d else g) l g))
  <-> In e (entities g) /\ forall d, In d l -> c d = true -> id e <> id d.
Proof.
  induction l as [|d0 l IH]; intros g e; simpl.
  - intuition.
  - rewrite IH. destruct (c d0) eqn:Ec.
    + rewrite destroyEntity_In. split.
      * intros ((Hin & Hne) & Hrest). split; [exact Hin|].
        intros d [<-|Hd] Hc; auto.
      * intros (Hin & Hall). repeat split; auto.
    + split; intros (Hin & Hall); (split; [exact Hin|]).
      * intros d [<-|Hd] Hc; [congruence | auto].
      * intros d Hd Hc. auto.
Qed.

Lemma fold_destroy_In l g e :
  In e (entities (fold_left destroyEntity l g))
  <-> In e (entities g) /\ forall d, In d l -> id e <> id d.
Proof.
  pose proof (cond_destroy_In (fun _ => true) l g e) as H.
  change (fold_left (fun g d => if (fun _ => true) d then destroyEntity g d else g) l g)
    with (fold_left destroyEntity l g) in H.
  rewrite H. split; intros [Hin Hall]; (split; [exact Hin | auto]).
Qed.

Lemma pruned_fold_destroy g0 l :
  store_ok g0 ->
  (forall d, In d l -> In d (entities g0) /\ is_player d = false) ->
  forall g, pruned g0 g -> pruned g0 (fold_left destroyEntity l g).
Proof.
  intros Hok Hl. apply fold_left_invariant. intros g d Hd Hg.
  destruct (Hl d Hd). now apply pruned_destroy.
Qed.

(** *** MovementSystem *)

Lemma store_ok_moved g dt o : store_ok g -> store_ok (moved_store g dt o).
Proof.
  apply store_ok_similar, similar_map. intro e. apply similar_move_one.
Qed.

Lemma expired_not_player e : player_shape e -> expired e = true -> is_player e = false.
Proof.
  intros Hs He. apply not_player_of_shape; [exact Hs|].
  right; right. unfold expired in He. destruct (lifetime e); [discriminate | discriminate].
Qed.

Lemma system_Movement_eq g dt o :
  system_Movement g dt o =
  let g1 := fold_left destroyEntity
                      (filter expired (entities (moved_store g dt o)))
                      (moved_store g dt o) in
  with_entities g1 (map clamp_player (entities g1)).
Proof. reflexivity. Qed.

Lemma store_ok_swept g dt o :
  store_ok g ->
  store_ok (fold_left destroyEntity (filter expired (entities (moved_store g dt o)))
                      (moved_store g dt o)).
Proof.
  intro H. pose proof (store_ok_moved g dt o H) as Hm.
  apply (pruned_store_ok (moved_store g dt o)); [exact Hm|].
  apply pruned_fold_destroy; [exact Hm | | apply pruned_refl].
  intros d Hd. apply filter_In in Hd. destruct Hd as [Hin He].
  split; [exact Hin|]. apply expired_not_player; [|exact He].
  destruct Hm as (_ & Hshape & _). rewrite Forall_forall in Hshape. auto.
Qed.

Lemma store_ok_Movement g dt o : store_ok g -> store_ok (system_Movement g dt o).
Proof.
  intro H. rewrite system_Movement_eq. cbv zeta.
  apply store_ok_similar; [|now apply store_ok_swept].
  apply similar_map, similar_clamp_player.
Qed.

Lemma field_fits : PLAYER_SIZE / 2 <= GAME_WIDTH - PLAYER_SIZE / 2
                   /\ PLAYER_SIZE / 2 <= GAME_HEIGHT - PLAYER_SIZE / 2.
Proof. split; vm_compute; discriminate. Qed.

Lemma clamp_player_in_field e pos :
  player_shape e -> is_player (clamp_player e) = true ->
  position (clamp_player e) = Some pos -> within_field PLAYER_SIZE pos.
Proof.
  intros Hs Hpl Hpos.
  assert (Hpl' : is_player e = true).
  { destruct (similar_clamp_player e) as (_ & Hp & _).
    unfold is_player, has in *. now rewrite <- Hp. }
  destruct Hs as ([p Ep] & (r & Er & Hsz) & _).
  { unfold is_player, has in Hpl'. destruct (player e); [discriminate | discriminate]. }
  unfold is_player, has in Hpl'.
  unfold clamp_player in Hpos. cbn [forallb has] in Hpos.
  rewrite Hpl', Ep, Er in Hpos. cbn [isSome andb with_position position] in Hpos.
  injection Hpos as <-.
  rewrite Hsz. unfold within_field. cbn [x y].
  destruct field_fits as [Hw Hh]. split; apply clamp_range; assumption.
Qed.

Lemma in_field_Movement g dt o : store_ok g -> player_in_field (system_Movement g dt o).
Proof.
  intros H p pos Hin Hpl Hpos. rewrite system_Movement_eq in Hin. cbv zeta in Hin.
  simpl in Hin. apply in_map_iff in Hin. destruct Hin as (e & <- & Hin).
  apply (clamp_player_in_field e); auto.
  destruct (store_ok_swept g dt o H) as (_ & Hshape & _).
  rewrite Forall_forall in Hshape. auto.
Qed.


Lemma ttl_ok_Movement g dt o : ttl_ok (system_Movement g dt o).
Proof.
  intros e t Hin Ht. rewrite system_Movement_eq in Hin. cbv zeta in Hin.
  simpl in Hin. apply in_map_iff in Hin. destruct Hin as (e1 & <- & Hin).
  rewrite clamp_player_lifetime in Ht.
  apply fold_destroy_In in Hin. destruct Hin as [Hin Hall].
  destruct (Z.ltb_spec 0 t) as [|Hle]; [assumption|]. exfalso.
  apply (Hall e1); [|reflexivity].
  apply filter_In. split; [exact Hin|]. unfold expired. rewrite Ht.
  now apply Z.leb_le.
Qed.

(** *** CollisionSystem and CleanupSystem only delete non-players *)

Lemma findAllWith_In g cs e :
  In e (findAllWith g cs) <-> In e (entities g) /\ forallb (has e) cs = true.
Proof. unfold findAllWith. apply filter_In. Qed.

Lemma snapshot_enemy g cs e :
  store_ok g -> In e (findAllWith g (C_ENEMY :: cs)) ->
  In e (entities g) /\ is_player e = false.
Proof.
  intros (_ & Hshape & _) Hin. apply findAllWith_In in Hin. destruct Hin as [Hin Hhas].
  split; [exact Hin|]. rewrite Forall_forall in Hshape.
  apply not_player_of_shape; [auto|]. right; left.
  simpl in Hhas. apply andb_prop in Hhas. destruct Hhas as [He _].
  destruct (enemy e); [discriminate | discriminate].
Qed.

Lemma snapshot_bullet g cs e :
  store_ok g -> In e (findAllWith g (C_BULLET :: cs)) ->
  In e (entities g) /\ is_player e = false.
Proof.
  intros (_ & Hshape & _) Hin. apply findAllWith_In in Hin. destruct Hin as [Hin Hhas].
  split; [exact Hin|]. rewrite Forall_forall in Hshape.
  apply not_player_of_shape; [auto|]. left.
  simpl in Hhas. apply andb_prop in Hhas. destruct Hhas as [He _].
  destruct (bullet e); [discriminate | discriminate].
Qed.

Lemma pruned_lose_hp g0 g : pruned g0 g -> pruned g0 (lose_hp g).
Proof.
  unfold pruned. now rewrite lose_hp_entities, lose_hp_nextId.
Qed.

Lemma pruned_Collision g : store_ok g -> pruned g (system_Collision sqrt g).
Proof.
  intro Hok. unfold system_Collision.
  apply fold_left_invariant.
  - intros g1 b Hb Hg1. rewrite bullet_vs_enemies_find.
    destruct (find _ _) as [e|] eqn:Ef; [|exact Hg1].
    apply find_some in Ef. destruct Ef as [He _].
    destruct (snapshot_enemy _ _ _ Hok He), (snapshot_bullet _ _ _ Hok Hb).
    apply pruned_destroy; auto. apply pruned_destroy; auto.
  - apply fold_left_invariant; [|apply pruned_refl].
    intros g1 e He Hg1. unfold enemy_vs_players. revert Hg1.
    apply fold_left_invariant. intros g2 p _ Hg2.
    destruct (overlap sqrt e p); [|exact Hg2].
    destruct (snapshot_enemy _ _ _ Hok He).
    apply pruned_lose_hp, pruned_destroy; auto.
Qed.

Lemma out_of_bounds_kind e :
  out_of_bounds e = true -> has e C_BULLET || has e C_ENEMY = true.
Proof. unfold out_of_bounds. destruct (_ || _); [reflexivity | discriminate]. Qed.

Lemma pruned_Cleanup g : store_ok g -> pruned g (system_Cleanup g).
Proof.
  intro Hok. unfold system_Cleanup.
  apply fold_left_invariant; [|apply pruned_refl].
  intros g1 d Hd Hg1. destruct (out_of_bounds d) eqn:Eo; [|exact Hg1].
  apply pruned_destroy; auto.
  destruct Hok as (_ & Hshape & _). rewrite Forall_forall in Hshape.
  apply not_player_of_shape; [auto|]. apply out_of_bounds_kind in Eo.
  simpl in Eo. destruct (bullet d); [left; discriminate|].
  destruct (enemy d); [right; left; discriminate | discriminate].
Qed.

Lemma incl_Collision g : incl (entities (system_Collision sqrt g)) (entities g).
Proof.
  unfold system_Collision.
  assert (Hd : forall g0 e, incl (entities g0) (entities g) ->
                            incl (entities (destroyEntity g0 e)) (entities g)).
  { intros g0 e H a Ha. apply destroyEntity_In in Ha. apply H. tauto. }
  apply (bullet_pass_invariant (fun g' => incl (entities g') (entities g)));
    [exact Hd | auto |].
  apply (player_pass_invariant (fun g' => incl (entities g') (entities g)));
    [exact Hd | intros g0; now rewrite lose_hp_entities | apply incl_refl].
Qed.

Lemma incl_Cleanup g : incl (entities (system_Cleanup g)) (entities g).
Proof.
  intros e He. unfold system_Cleanup in He. apply cond_destroy_In in He. tauto.
Qed.

(** *** After the cleanup nothing lies beyond its margin *)
Lemma evicted_ok_Cleanup g : evicted_ok (system_Cleanup g).
Proof.
  intros e pos Hin Hkind Hpos. unfold system_Cleanup in Hin.
  apply cond_destroy_In in Hin. destruct Hin as [Hin Hall].
  assert (Ho : out_of_bounds e = false).
  { destruct (out_of_bounds e) eqn:Eo; [|reflexivity].
    exfalso. now apply (Hall e Hin Eo). }
  unfold out_of_bounds in Ho. rewrite Hkind, Hpos in Ho.
  apply orb_false_elim in Ho. destruct Ho as [Ho H4].
  apply orb_false_elim in Ho. destruct Ho as [Ho H3].
  apply orb_false_elim in Ho. destruct Ho as [H1 H2].
  rewrite Qltb_false in H1, H2, H3, H4. tauto.
Qed.

(** *** One frame *)

Lemma tick_eq g dt o :
  tick sqrt g dt o =
  if Phase_eqb (gameState g) gameOver then system_Movement g dt o
  else system_Cleanup (system_Collision sqrt (before_collision sqrt g dt o)).
Proof.
  unfold tick, updateAndRender. destruct (Phase_eqb _ _); reflexivity.
Qed.

Lemma Phase_eqb_eq a b : Phase_eqb a b = true <-> a = b.
Proof. destruct a, b; simpl; intuition congruence. Qed.

Lemma before_collision_session g dt o : same_session g (before_collision sqrt g dt o).
Proof.
  unfold before_collision.
  eapply same_session_trans; [apply system_InputToPlayer_session|].
  eapply same_session_trans; [apply system_Shooting_session|].
  eapply same_session_trans; [apply system_EnemySpawn_session|].
  apply system_Movement_session.
Qed.

Lemma store_ok_before_collision g dt o :
  store_ok g -> store_ok (before_collision sqrt g dt o).
Proof.
  intro H. unfold before_collision.
  apply store_ok_Movement, store_ok_EnemySpawn, store_ok_Shooting,
        store_ok_InputToPlayer, H.
Qed.

Lemma store_ok_tick g dt o : store_ok g -> store_ok (tick sqrt g dt o).
Proof.
  intro H. rewrite tick_eq. destruct (Phase_eqb _ _); [now apply store_ok_Movement|].
  pose proof (store_ok_before_collision g dt o H) as H1.
  pose proof (pruned_store_ok _ _ H1 (pruned_Collision _ H1)) as H2.
  exact (pruned_store_ok _ _ H2 (pruned_Cleanup _ H2)).
Qed.

Lemma in_field_tick g dt o : store_ok g -> player_in_field (tick sqrt g dt o).
Proof.
  intro H. rewrite tick_eq. destruct (Phase_eqb _ _); [now apply in_field_Movement|].
  pose proof (store_ok_before_collision g dt o H) as H1.
  pose proof (pruned_Collision _ H1) as P1.
  pose proof (pruned_store_ok _ _ H1 P1) as H2.
  apply (pruned_in_field _ _ (pruned_Cleanup _ H2)).
  apply (pruned_in_field _ _ P1).
  unfold before_collision. apply in_field_Movement.
  apply store_ok_EnemySpawn, store_ok_Shooting, store_ok_InputToPlayer, H.
Qed.

Lemma ttl_ok_tick g dt o : ttl_ok (tick sqrt g dt o).
Proof.
  rewrite tick_eq. destruct (Phase_eqb _ _); [apply ttl_ok_Movement|].
  intros e t Hin. apply incl_Cleanup, incl_Collision in Hin. revert Hin.
  unfold before_collision. apply ttl_ok_Movement.
Qed.

Lemma hp_ok_tick g dt o : hp_ok g -> hp_ok (tick sqrt g dt o).
Proof.
  intro H. rewrite tick_eq.
  assert (Hs : forall g', same_session g g' -> hp_ok g').
  { intros g' (_ & Hh & Hg). unfold hp_ok. now rewrite Hh, Hg. }
  destruct (Phase_eqb _ _); [apply Hs, system_Movement_session|].
  assert (Hc : hp_ok (system_Collision sqrt (before_collision sqrt g dt o))).
  { apply system_Collision_hp_ok, Hs, before_collision_session. }
  destruct (system_Cleanup_session (system_Collision sqrt (before_collision sqrt g dt o)))
    as (_ & Hh & Hg).
  unfold hp_ok. now rewrite Hh, Hg.
Qed.

Lemma tick_score g dt o :
  score (tick sqrt g dt o) =
  if Phase_eqb (gameState g) gameOver then score g
  else (score g + 100 * Z.of_nat (List.length
          (collision_hits sqrt (before_collision sqrt g dt o))))%Z.
Proof.
  rewrite tick_eq. destruct (Phase_eqb _ _).
  - apply system_Movement_session.
  - destruct (system_Cleanup_session (system_Collision sqrt (before_collision sqrt g dt o)))
      as (-> & _).
    rewrite system_Collision_score.
    destruct (before_collision_session g dt o) as (-> & _). reflexivity.
Qed.

Lemma tick_hp_le g dt o : (0 <= hp g)%Z -> (0 <= hp (tick sqrt g dt o) <= hp g)%Z.
Proof.
  intro H. rewrite tick_eq. destruct (Phase_eqb _ _).
  - destruct (system_Movement_session g dt o) as (_ & -> & _). lia.
  - destruct (system_Cleanup_session (system_Collision sqrt (before_collision sqrt g dt o)))
      as (_ & -> & _).
    destruct (before_collision_session g dt o) as (_ & Hh & _).
    pose proof (system_Collision_hp_le (before_collision sqrt g dt o)) as Hc.
    rewrite Hh in Hc. auto.
Qed.

(** *** reset and the reachable states *)

Lemma reset_session g skipScore ro :
  score (reset g skipScore ro) = 0%Z /\ hp (reset g skipScore ro) = 3%Z
  /\ gameState (reset g skipScore ro) = if skipScore then gameState g else playing.
Proof. repeat split. Qed.

Lemma store_ok_stamp g sc h st t :
  store_ok g -> store_ok (mkGame (nextId g) (entities g) sc h st t).
Proof. exact (fun H => H). Qed.

Lemma store_ok_first_two st t :
  store_ok (createEntity (createEntity (mkGame 1 [] 0 3 st t) newPlayer) newInput).
Proof.
  apply store_ok_create; [|reflexivity|reflexivity].
  split; [split|split].
  - simpl. constructor; [simpl; tauto | constructor].
  - constructor; [simpl; lia | constructor].
  - constructor; [|constructor]. unfold player_shape. intros _. simpl.
    repeat split; eauto.
  - reflexivity.
Qed.

Lemma store_ok_stars ro ks : forall g,
  store_ok g -> store_ok (fold_left (fun g k => createEntity g (newStar ro k)) ks g).
Proof.
  apply fold_left_invariant. intros a k _ Ha.
  apply store_ok_create; [exact Ha | reflexivity | reflexivity].
Qed.

Lemma store_ok_reset g skipScore ro : store_ok (reset g skipScore ro).
Proof.
  unfold reset. cbv zeta.
  apply store_ok_stamp, store_ok_stars, store_ok_first_two.
Qed.

Theorem reachable_store_ok g : reachable sqrt g -> store_ok g.
Proof.
  induction 1 as [ro | g dt o _ IH | g ro _ IH | g u _ IH].
  - apply store_ok_reset.
  - now apply store_ok_tick.
  - apply store_ok_reset.
  - now apply store_ok_setInput.
Qed.

Lemma hp_ok_reset g skipScore ro :
  (skipScore = true -> gameState g = playing) -> hp_ok (reset g skipScore ro).
Proof.
  intro Hs. destruct (reset_session g skipScore ro) as (_ & Hh & Hg).
  unfold hp_ok. rewrite Hh, Hg. split; [lia|].
  split; [discriminate|]. destruct skipScore; [rewrite Hs; auto|]; discriminate.
Qed.

Theorem reachable_hp_ok g : reachable sqrt g -> hp_ok g.
Proof.
  induction 1 as [ro | g dt o _ IH | g ro _ IH | g u _ IH].
  - apply hp_ok_reset. reflexivity.
  - now apply hp_ok_tick.
  - apply hp_ok_reset. discriminate.
  - exact IH.
Qed.

Theorem reachable_score g : reachable sqrt g -> multiple_of_100 (score g).
Proof.
  induction 1 as [ro | g dt o _ IH | g ro _ IH | g u _ IH].
  - exists 0%Z. unfold new_Game.
    destruct (reset_session (mkGame 1 [] 0 3 playing 0) true ro) as (-> & _). lia.
  - rewrite tick_score. destruct (Phase_eqb _ _); [exact IH|].
    destruct IH as (k & Hk & ->).
    exists (k + Z.of_nat (List.length
              (collision_hits sqrt (before_collision sqrt g dt o))))%Z.
    lia.
  - exists 0%Z. destruct (reset_session g false ro) as (-> & _). lia.
  - exact IH.
Qed.

(** *** The fire clock *)

Lemma same_clock_refl g : same_clock g g.
Proof. split; reflexivity. Qed.

Lemma same_clock_trans g1 g2 g3 : same_clock g1 g2 -> same_clock g2 g3 -> same_clock g1 g3.
Proof. unfold same_clock. intuition congruence. Qed.

Lemma system_InputToPlayer_clock g dt : same_clock g (system_InputToPlayer sqrt g dt).
Proof.
  unfold system_InputToPlayer.
  destruct (findAllWith g [C_INPUT]) as [|ie ?]; [apply same_clock_refl|].
  destruct (input ie); split; reflexivity.
Qed.

Lemma system_Movement_clock g dt o : same_clock g (system_Movement g dt o).
Proof.
  rewrite system_Movement_eq. cbv zeta.
  assert (H : same_clock g (fold_left destroyEntity
                (filter expired (entities (moved_store g dt o))) (moved_store g dt o))).
  { apply (fold_left_invariant (same_clock g)); [|split; reflexivity].
    intros a d _ Ha. exact Ha. }
  exact H.
Qed.

Lemma system_Collision_clock g : same_clock g (system_Collision sqrt g).
Proof.
  unfold system_Collision.
  apply (bullet_pass_invariant (same_clock g)); [auto | auto |].
  apply (player_pass_invariant (same_clock g)); [auto | | apply same_clock_refl].
  intros g0 H. unfold same_clock. now rewrite lose_hp_lastFireTime, lose_hp_nextId.
Qed.

Lemma system_Cleanup_clock g : same_clock g (system_Cleanup g).
Proof.
  unfold system_Cleanup.
  apply (fold_left_invariant (same_clock g)); [|apply same_clock_refl].
  intros a d _ Ha. destruct (out_of_bounds d); exact Ha.
Qed.

Lemma findAllWith_map g cs (F : Entity -> Entity) :
  (forall e c, has (F e) c = has e c) ->
  findAllWith (with_entities g (map F (entities g))) cs = map F (findAllWith g cs).
Proof.
  intro HF. unfold findAllWith. simpl.
  induction (entities g) as [|e es IH]; simpl; [reflexivity|].
  assert (E : forallb (has (F e)) cs = forallb (has e) cs).
  { clear - HF. induction cs as [|c cs IH]; simpl; [reflexivity|]. now rewrite HF, IH. }
  rewrite E. destruct (forallb (has e) cs); simpl; now rewrite IH.
Qed.

Lemma steer_has inp e c : has (steer sqrt inp e) c = has e c.
Proof.
  unfold steer. destruct (position e) eqn:Ep; [|reflexivity].
  destruct (velocity e) eqn:Ev; [|reflexivity].
  destruct c; simpl; try reflexivity. now rewrite Ev.
Qed.

Lemma steer_input inp e : input (steer sqrt inp e) = input e.
Proof. unfold steer. destruct (position e), (velocity e); reflexivity. Qed.

Lemma current_input_InputToPlayer g dt :
  current_input (system_InputToPlayer sqrt g dt) = current_input g.
Proof.
  unfold system_InputToPlayer.
  destruct (findAllWith g [C_INPUT]) as [|ie rest] eqn:Ef; [reflexivity|].
  destruct (input ie) as [inp|] eqn:Ei; [|reflexivity].
  unfold current_input.
  rewrite (findAllWith_map g [C_INPUT]
             (fun p => if forallb (has p) [C_PLAYER; C_POSITION; C_VELOCITY]
                       then steer sqrt inp p else p)).
  - rewrite Ef. simpl. destruct (_ && _); [apply steer_input | reflexivity].
  - intros e c. destruct (forallb _ _); [apply steer_has | reflexivity].
Qed.

(** The shooting system either does nothing or appends one bullet and
    records the time; the latter only under the guard of the source. *)
Lemma system_Shooting_cases g o :
  system_Shooting g o = g
  \/ exists inp ppos,
       current_input g = Some inp /\ shoot inp = true
       /\ (BULLET_FIRE_RATE < now o - lastFireTime g)%Z
       /\ system_Shooting g o
          = with_lastFireTime (createEntity g (newBullet ppos)) (now o).
Proof.
  unfold system_Shooting, current_input.
  destruct (findAllWith g [C_INPUT]) as [|ie ?]; [now left|].
  destruct (input ie) as [inp|]; [|now left].
  destruct (findAllWith g [C_PLAYER; C_POSITION]) as [|p ?]; [now left|].
  destruct (shoot inp) eqn:Es; [|now left]. simpl.
  destruct (BULLET_FIRE_RATE <? now o - lastFireTime g)%Z eqn:Et; [|now left].
  destruct (position p) as [ppos|]; [|now left].
  right. exists inp, ppos. apply Z.ltb_lt in Et. auto.
Qed.

Lemma tick_clock_cases g dt o :
  lastFireTime (tick sqrt g dt o) = lastFireTime g
  \/ (gameState g = playing
      /\ (exists inp, current_input g = Some inp /\ shoot inp = true)
      /\ (BULLET_FIRE_RATE < now o - lastFireTime g)%Z
      /\ lastFireTime (tick sqrt g dt o) = now o).
Proof.
  rewrite tick_eq. destruct (Phase_eqb (gameState g) gameOver) eqn:Eg.
  - left. apply system_Movement_clock.
  - assert (Hpl : gameState g = playing)
      by (destruct (gameState g); [reflexivity | discriminate]).
    assert (Hrest : lastFireTime (system_Cleanup (system_Collision sqrt
                       (before_collision sqrt g dt o)))
                    = lastFireTime (system_Shooting (system_InputToPlayer sqrt g dt) o)).
    { destruct (system_Cleanup_clock (system_Collision sqrt (before_collision sqrt g dt o)))
        as [-> _].
      destruct (system_Collision_clock (before_collision sqrt g dt o)) as [-> _].
      unfold before_collision.
      destruct (system_Movement_clock
                  (system_EnemySpawn
                     (system_Shooting (system_InputToPlayer sqrt g dt) o) o) dt o)
        as [-> _].
      unfold system_EnemySpawn. destruct (Qltb _ _); reflexivity. }
    rewrite Hrest.
    destruct (system_InputToPlayer_clock g dt) as [Hl _].
    destruct (system_Shooting_cases (system_InputToPlayer sqrt g dt) o)
      as [-> | (inp & ppos & Hi & Hs & Ht & ->)].
    + left. exact Hl.
    + right. rewrite current_input_InputToPlayer in Hi.
      rewrite Hl in Ht. repeat split; eauto.
Qed.

Lemma setInput_lastFireTime g u : lastFireTime (setInput g u) = lastFireTime g.
Proof. reflexivity. Qed.


Lemma fire_times_nows frames : forall g,
  Forall (fun t => In t (map (fun f => now (f_oracle f)) frames))
         (fire_times sqrt g frames).
Proof.
  induction frames as [|f rest IH]; intro g; simpl; [constructor|].
  assert (Hrest : Forall (fun t => now (f_oracle f) = t
                                   \/ In t (map (fun f => now (f_oracle f)) rest))
                         (fire_times sqrt (step sqrt g f) rest)).
  { eapply Forall_impl; [|apply IH]. simpl. auto. }
  destruct (Z.eqb_spec (lastFireTime (step sqrt g f)) (lastFireTime g)) as [E|E];
    [exact Hrest|].
  constructor; [|exact Hrest]. left. unfold step in *.
  destruct (tick_clock_cases (setInput g (f_input f)) (f_dt f) (f_oracle f))
    as [H | (_ & _ & _ & ->)]; [|reflexivity].
  rewrite setInput_lastFireTime in H. contradiction.
Qed.

(** *** Frames after the game is over, eviction, reset *)

Lemma tick_gameOver g dt o :
  gameState g = gameOver -> tick sqrt g dt o = system_Movement g dt o.
Proof. intro H. rewrite tick_eq, H. reflexivity. Qed.

Lemma Movement_origin g dt o e' :
  In e' (entities (system_Movement g dt o)) ->
  exists e0, In e0 (entities g) /\ e' = clamp_player (move_one o dt e0).
Proof.
  rewrite system_Movement_eq. cbv zeta. simpl. intro Hin.
  apply in_map_iff in Hin. destruct Hin as (e1 & <- & Hin).
  apply fold_destroy_In in Hin. destruct Hin as [Hin _]. simpl in Hin.
  apply in_map_iff in Hin. destruct Hin as (e0 & <- & Hin). eauto.
Qed.

Lemma render_overlay g :
  gameState g = gameOver -> In (DrawGameOver (score g)) (system_Render g).
Proof.
  intro H. unfold system_Render. rewrite H.
  repeat (apply in_or_app; right). simpl. auto.
Qed.

Lemma evicted_ok_tick g dt o : gameState g = playing -> evicted_ok (tick sqrt g dt o).
Proof.
  intro H. rewrite tick_eq, H. simpl. apply evicted_ok_Cleanup.
Qed.

Lemma start_position :
  GAME_WIDTH / 2 = Q2Qc 160 /\ GAME_HEIGHT - 60 = Q2Qc 508.
Proof. split; apply Qc_is_canon; reflexivity. Qed.

Lemma reset_census g ro :
  findAllWith (reset g false ro) [C_PLAYER] = [newPlayer 1]
  /\ findAllWith (reset g false ro) [C_BULLET] = []
  /\ findAllWith (reset g false ro) [C_ENEMY] = []
  /\ List.length (findAllWith (reset g false ro) [C_STAR]) = STAR_COUNT.
Proof. repeat split. Qed.

(** A bullet scores on the first enemy of the snapshot it overlaps, and on
    no other. *)
Lemma bullet_scores_once enemies g bullet :
  (forall e, In e enemies -> overlap sqrt bullet e = false)
  /\ bullet_vs_enemies sqrt enemies g bullet = g
  \/ exists before enemy rest,
       enemies = before ++ enemy :: rest
       /\ (forall e, In e before -> overlap sqrt bullet e = false)
       /\ overlap sqrt bullet enemy = true
       /\ bullet_vs_enemies sqrt enemies g bullet
          = destroyEntity (destroyEntity (add_score g 100) enemy) bullet.
Proof.
  induction enemies as [|e es IH]; simpl.
  - left. split; [tauto | reflexivity].
  - destruct (overlap sqrt bullet e) eqn:Eo.
    + right. exists [], e, es. simpl. repeat split; tauto.
    + destruct IH as [[Hall Heq] | (before & enemy & rest & -> & Hb & Ho & Heq)].
      * left. split; [|exact Heq]. intros e' [<-|H]; auto.
      * right. exists (e :: before), enemy, rest. repeat split; auto.
        intros e' [<-|H]; auto.
Qed.

Lemma reachable_run g frames : reachable sqrt g -> reachable sqrt (run sqrt g frames).
Proof.
  unfold run. apply fold_left_invariant. intros a f _ Ha.
  unfold step. apply reach_tick, reach_setInput, Ha.
Qed.

End ECS_Facts.

(** ** The flat implementation *)
Section Flat_Facts.
Import Flat FlatSpec.
Variable sqrt : Qc -> Qc.

Lemma update_gameOver g o : gameState g = gameOver -> update sqrt g o = g.
Proof. intro H. unfold update. now rewrite H. Qed.

Lemma update_playing g o :
  gameState g = playing ->
  update sqrt g o =
  let p := move_player sqrt (input g) (player g) in
  let '(bs, es, sc) :=
    bullets_pass sqrt (moved_bullets sqrt g o) (moved_enemies g o) (score g) in
  let '(es, h, st) := player_pass sqrt p es (hp g) (gameState g) in
  mkGame sc h st p bs es
         (mapi_from 0 (move_star o) (stars g)) (input g)
         (if fires g o then now o else lastFireTime g).
Proof. intro H. unfold update. rewrite H. reflexivity. Qed.

(** *** The bullet pass *)

Lemma hit_enemies_eq b es : forall sc hit,
  hit_enemies sqrt b es sc hit
  = (filter (fun e : Enemy => negb (isColliding sqrt b e)) es,
     (sc + 100 * Z.of_nat (List.length (filter (fun e : Enemy => isColliding sqrt b e) es)))%Z,
     hit || existsb (fun e : Enemy => isColliding sqrt b e) es).
Proof.
  induction es as [|e rest IH]; intros sc hit.
  - cbn [hit_enemies filter existsb List.length]. rewrite orb_false_r.
    do 2 f_equal. lia.
  - cbn [hit_enemies filter existsb]. destruct (isColliding sqrt b e).
    + rewrite IH, orb_true_r. cbn [negb orb List.length]. rewrite Nat2Z.inj_succ.
      do 2 f_equal. lia.
    + rewrite IH. reflexivity.
Qed.

Lemma filter_length_split {A : Type} (f : A -> bool) (l : list A) :
  List.length l
  = (List.length (filter f l) + List.length (filter (fun a => negb (f a)) l))%nat.
Proof.
  induction l as [|a l IH]; simpl; [reflexivity|].
  destruct (f a); simpl; lia.
Qed.

(** Each enemy the bullet pass removes is worth exactly 100, and the pass
    removes but never adds. *)
Lemma bullets_pass_spec bs : forall es sc,
  let '(bs', es', sc') := bullets_pass sqrt bs es sc in
  sc' = (sc + 100 * (Z.of_nat (List.length es) - Z.of_nat (List.length es')))%Z
  /\ (List.length es' <= List.length es)%nat
  /\ incl bs' bs /\ incl es' es.
Proof.
  induction bs as [|b rest IH]; intros es sc; cbn [bullets_pass].
  - repeat split; [lia | lia | apply incl_refl | apply incl_refl].
  - destruct (owner b).
    + rewrite hit_enemies_eq.
      set (es1 := filter (fun e : Enemy => negb (isColliding sqrt b e)) es).
      set (sc1 := (sc + _)%Z).
      specialize (IH es1 sc1).
      destruct (bullets_pass sqrt rest es1 sc1) as [[kept es2] sc2].
      destruct IH as (Hsc & Hlen & Hbs & Hes).
      pose proof (filter_length_split (fun e : Enemy => isColliding sqrt b e) es) as Hsplit.
      cbv beta in Hsplit. fold es1 in Hsplit.
      assert (Hes1 : incl es1 es) by (intros a Ha; apply filter_In in Ha; tauto).
      split; [subst sc1; lia|]. split; [lia|]. split.
      * destruct (false || _); [apply incl_tl; exact Hbs|].
        intros a [<-|Ha]; [left; reflexivity | right; auto].
      * intros a Ha. auto.
    + specialize (IH es sc).
      destruct (bullets_pass sqrt rest es sc) as [[kept es2] sc2].
      destruct IH as (Hsc & Hlen & Hbs & Hes).
      split; [exact Hsc|]. split; [exact Hlen|]. split; [|exact Hes].
      intros a [<-|Ha]; [left; reflexivity | right; auto].
Qed.

(** *** The player pass *)

Lemma player_pass_spec p es : forall h st,
  let '(es', h', st') := player_pass sqrt p es h st in
  h' = (h - (Z.of_nat (List.length es) - Z.of_nat (List.length es')))%Z
  /\ (List.length es' <= List.length es)%nat
  /\ incl es' es
  /\ (((h <= 0)%Z <-> st = gameOver) -> ((h' <= 0)%Z <-> st' = gameOver)).
Proof.
  induction es as [|e rest IH]; intros h st; cbn [player_pass].
  - split; [cbn [List.length]; lia|]. split; [lia|]. split; [apply incl_refl | tauto].
  - destruct (isColliding sqrt p e).
    + specialize (IH (h - 1)%Z (if (h - 1 <=? 0)%Z then gameOver else st)).
      destruct (player_pass sqrt p rest _ _) as [[es' h'] st'].
      destruct IH as (Hh & Hlen & Hincl & Hiff).
      cbn [List.length]. rewrite Nat2Z.inj_succ.
      split; [lia|]. split; [lia|]. split; [apply incl_tl; exact Hincl|].
      intro H0. apply Hiff.
      destruct (Z.leb_spec (h - 1) 0); [tauto|].
      split; intro H1; [lia|]. apply H0 in H1. lia.
    + specialize (IH h st).
      destruct (player_pass sqrt p rest h st) as [[es' h'] st'].
      destruct IH as (Hh & Hlen & Hincl & Hiff).
      cbn [List.length]. rewrite !Nat2Z.inj_succ.
      split; [lia|]. split; [lia|]. split; [|exact Hiff].
      intros a [<-|Ha]; [left; reflexivity | right; auto].
Qed.

(** *** One update *)

(** Opens a playing update into its two passes, with their
    specifications in the context. *)
Ltac open_update g o Hpl :=
  rewrite (update_playing g o Hpl); cbv zeta;
  let Hb := fresh "Hbullets" in
  let Hp := fresh "Hplayer" in
  pose proof (bullets_pass_spec (moved_bullets sqrt g o) (moved_enemies g o) (score g)) as Hb;
  unfold after_bullets;
  destruct (bullets_pass sqrt (moved_bullets sqrt g o) (moved_enemies g o) (score g))
    as [[?bs ?es] ?sc];
  match goal with
  | |- context [player_pass sqrt ?p0 ?es0 ?h0 ?st0] =>
      pose proof (player_pass_spec p0 es0 h0 st0) as Hp;
      destruct (player_pass sqrt p0 es0 h0 st0) as [[?es ?h] ?st]
  end.

Lemma update_score g o :
  score (update sqrt g o) =
  match gameState g with
  | gameOver => score g
  | playing =>
      (score g + 100 * (Z.of_nat (List.length (moved_enemies g o))
                        - Z.of_nat (List.length (after_bullets sqrt g o))))%Z
  end.
Proof.
  destruct (gameState g) eqn:Eg; [|now rewrite update_gameOver].
  open_update g o Eg. simpl. tauto.
Qed.

Lemma update_score_le g o : (score g <= score (update sqrt g o))%Z.
Proof.
  destruct (gameState g) eqn:Eg; [|rewrite update_gameOver; auto; lia].
  open_update g o Eg. simpl. lia.
Qed.

Lemma update_hp_le g o : (hp (update sqrt g o) <= hp g)%Z.
Proof.
  destruct (gameState g) eqn:Eg; [|rewrite update_gameOver; auto; lia].
  open_update g o Eg. simpl. lia.
Qed.

Lemma update_hp_loose g o : hp_loose g -> hp_loose (update sqrt g o).
Proof.
  intro H. destruct (gameState g) eqn:Eg; [|now rewrite update_gameOver].
  destruct H as [H3 Hiff].
  open_update g o Eg. unfold hp_loose. cbn [hp gameState].
  destruct Hplayer as (Hh & Hlen & _ & Hkeep). split; [lia|].
  apply Hkeep. exact Hiff.
Qed.


(** *** Clamping *)

Lemma move_player_ok inp (p : Player) :
  size p = PLAYER_SIZE ->
  size (move_player sqrt inp p) = PLAYER_SIZE
  /\ within_field PLAYER_SIZE (position (move_player sqrt inp p)).
Proof.
  intro Hs. unfold move_player. cbn [size position player_base x y]. rewrite Hs.
  split; [reflexivity|].
  unfold within_field. cbn [x y].
  split; apply clamp_range; vm_compute; discriminate.
Qed.

Lemma update_player_ok g o : player_ok g -> player_ok (update sqrt g o).
Proof.
  intros [Hs Hf].
  destruct (gameState g) eqn:Eg; [|rewrite update_gameOver; auto; split; auto].
  open_update g o Eg. unfold player_ok. cbn [player]. now apply move_player_ok.
Qed.

(** *** Eviction *)

Lemma moved_bullets_in_bounds g o b :
  In b (moved_bullets sqrt g o) ->
  - (20 : Qc) < y (position b) /\ y (position b) < GAME_HEIGHT + 20.
Proof.
  unfold moved_bullets. intro H. apply filter_In in H. destruct H as [_ H].
  unfold bullet_in_bounds in H. apply andb_prop in H.
  now rewrite !Qltb_true in H.
Qed.

Lemma moved_enemies_in_bounds g o e :
  In e (moved_enemies g o) -> y (position e) < GAME_HEIGHT + size e + 10.
Proof.
  unfold moved_enemies.
  assert (Hf : forall e, In e (filter enemy_in_bounds (map move_enemy (enemies g))) ->
                         y (position e) < GAME_HEIGHT + size e + 10).
  { intros e0 H. apply filter_In in H. destruct H as [_ H]. now apply Qltb_true in H. }
  destruct (Qltb _ _); [|apply Hf].
  intro H. apply in_app_or in H. destruct H as [H | [<- | []]]; [now apply Hf|].
  vm_compute. reflexivity.
Qed.

Lemma update_evicted_ok g o : evicted_ok g -> evicted_ok (update sqrt g o).
Proof.
  intro H. destruct (gameState g) eqn:Eg; [|now rewrite update_gameOver].
  open_update g o Eg. unfold evicted_ok. simpl.
  destruct Hbullets as (_ & _ & Hbs & Hes). destruct Hplayer as (_ & _ & Hes' & _).
  split.
  - intros b Hb. eapply moved_bullets_in_bounds. apply Hbs, Hb.
  - intros e He. eapply moved_enemies_in_bounds. apply Hes, Hes', He.
Qed.

Lemma evicted_ok_playing g o : gameState g = playing -> evicted_ok (update sqrt g o).
Proof.
  intro Eg. open_update g o Eg. unfold evicted_ok. simpl.
  destruct Hbullets as (_ & _ & Hbs & Hes). destruct Hplayer as (_ & _ & Hes' & _).
  split.
  - intros b Hb. eapply moved_bullets_in_bounds. apply Hbs, Hb.
  - intros e He. eapply moved_enemies_in_bounds. apply Hes, Hes', He.
Qed.

(** *** The reachable states *)

Lemma initial_player_ok sc h st bs es ss inp t :
  player_ok (mkGame sc h st initialPlayer bs es ss inp t).
Proof.
  split; [reflexivity|]. unfold within_field. cbn [player position player_base initialPlayer x y].
  repeat split; vm_compute; discriminate.
Qed.

Theorem flat_reachable_score g : reachable sqrt g -> multiple_of_100 (score g).
Proof.
  induction 1 as [ro | g o _ IH | g ro _ IH | g inp _ IH].
  - exists 0%Z. simpl. lia.
  - destruct IH as (k & Hk & Hs).
    pose proof (update_score g o) as Hu. pose proof (update_score_le g o) as Hle.
    destruct (gameState g).
    + exists (k + (Z.of_nat (List.length (moved_enemies g o))
                   - Z.of_nat (List.length (after_bullets sqrt g o))))%Z.
      split; lia.
    + exists k. split; [lia | congruence].
  - exists 0%Z. simpl. lia.
  - exact IH.
Qed.

Theorem flat_reachable_hp_loose g : reachable sqrt g -> hp_loose g.
Proof.
  induction 1 as [ro | g o _ IH | g ro _ IH | g inp _ IH].
  - split; simpl; [lia | split; [lia | discriminate]].
  - now apply update_hp_loose.
  - split; simpl; [lia | split; [lia | discriminate]].
  - exact IH.
Qed.

Theorem flat_reachable_player_ok g : reachable sqrt g -> player_ok g.
Proof.
  induction 1 as [ro | g o _ IH | g ro _ IH | g inp _ IH].
  - apply initial_player_ok.
  - now apply update_player_ok.
  - apply initial_player_ok.
  - exact IH.
Qed.

Theorem flat_reachable_evicted_ok g : reachable sqrt g -> evicted_ok g.
Proof.
  induction 1 as [ro | g o _ IH | g ro _ IH | g inp _ IH].
  - split; simpl; tauto.
  - now apply update_evicted_ok.
  - split; simpl; tauto.
  - exact IH.
Qed.

Lemma mapi_from_length {A B : Type} (f : nat -> A -> B) (l : list A) :
  forall k, List.length (mapi_from k f l) = List.length l.
Proof. induction l as [|a l IH]; intro k; simpl; [reflexivity | now rewrite IH]. Qed.

Lemma update_stars_length g o :
  List.length (stars (update sqrt g o)) = List.length (stars g).
Proof.
  destruct (gameState g) eqn:Eg; [|now rewrite update_gameOver].
  open_update g o Eg. cbn [stars]. apply mapi_from_length.
Qed.

Theorem flat_reachable_stars g : reachable sqrt g -> List.length (stars g) = STAR_COUNT.
Proof.
  induction 1 as [ro | g o _ IH | g ro _ IH | g inp _ IH].
  - reflexivity.
  - now rewrite update_stars_length.
  - reflexivity.
  - exact IH.
Qed.

Lemma flat_reachable_run g frames :
  reachable sqrt g -> reachable sqrt (run sqrt g frames).
Proof.
  unfold run. apply fold_left_invariant. intros a f _ Ha.
  unfold step. apply reach_update, reach_input, Ha.
Qed.


End Flat_Facts.

(** ** What [reset] builds *)

Lemma reset_entities (g : ECS.Game) (skipScore : bool) (ro : ECS.ResetOracle) :
  ECS.entities (ECS.reset g skipScore ro)
  = ECS.newPlayer 1 :: ECS.newInput 2
    :: map (fun k => ECS.newStar ro k (Z.of_nat k + 3)) (seq 0 STAR_COUNT).
Proof. reflexivity. Qed.

Lemma reset_lastFireTime (g : ECS.Game) (skipScore : bool) (ro : ECS.ResetOracle) :
  ECS.lastFireTime (ECS.reset g skipScore ro) = ECS.reset_now ro.
Proof. reflexivity. Qed.

(** ** The census of the store: stars and the input entity *)

Section Census_Facts.
Import ECS ECSSpec ECSMore.
Variable sqrt : Qc -> Qc.

Lemma similar_kind_refl e : similar_kind e e.
Proof. split; [apply similar_refl | split; reflexivity]. Qed.

Lemma similar_kind_trans e1 e2 e3 :
  similar_kind e1 e2 -> similar_kind e2 e3 -> similar_kind e1 e3.
Proof.
  intros (S1 & A1 & B1) (S2 & A2 & B2).
  split; [eapply similar_trans; eauto | split; congruence].
Qed.

Lemma similar_kind_map (F : Entity -> Entity) es :
  (forall e, similar_kind e (F e)) -> Forall2 similar_kind es (map F es).
Proof. intro HF. induction es; simpl; constructor; auto. Qed.

Lemma similar_kind_steer inp e : similar_kind e (steer sqrt inp e).
Proof.
  split; [apply similar_steer|]. unfold steer.
  destruct (position e), (velocity e); split; reflexivity.
Qed.

Lemma similar_kind_move_one o dt e : similar_kind e (move_one o dt e).
Proof.
  split; [apply similar_move_one|].
  unfold move_one, age, wrap_star, integrate.
  destruct e as [i [pos|] [vel|] r pl b en [st|] inp [lt|]];
    cbn [position velocity star lifetime with_position with_velocity with_lifetime
         id render player bullet enemy input];
    try destruct (Qltb _ _); split; reflexivity.
Qed.

Lemma similar_kind_clamp_player e : similar_kind e (clamp_player e).
Proof.
  split; [apply similar_clamp_player|]. unfold clamp_player.
  destruct (forallb _ _); [|split; reflexivity].
  destruct (position e), (render e); split; reflexivity.
Qed.

Lemma similar_kind_assign_first es u : Forall2 similar_kind es (assign_first es u).
Proof.
  induction es as [|e es IH]; cbn [assign_first]; [constructor|].
  destruct (input e) eqn:Ei.
  - constructor.
    + split; [repeat split|]. cbn [with_input star input]. rewrite Ei. split; reflexivity.
    + clear. induction es; constructor; [apply similar_kind_refl | assumption].
  - constructor; [apply similar_kind_refl | exact IH].
Qed.

Lemma similar_kind_passive e e' : similar_kind e e' -> is_passive e' = is_passive e.
Proof.
  intros (_ & Hs & Hi). unfold is_passive, is_star, is_input, has. now rewrite Hs, Hi.
Qed.

Lemma similar_kind_shape e e' : similar_kind e e' -> passive_shape e -> passive_shape e'.
Proof.
  intros Hk H Hp. rewrite (similar_kind_passive _ _ Hk) in Hp.
  destruct (H Hp) as (Hb & He & Hl).
  destruct Hk as ((_ & _ & _ & Eb & Ee & El & _) & _).
  rewrite Eb, Ee. repeat split; auto.
  rewrite Hl in El. destruct (lifetime e'); [discriminate | reflexivity].
Qed.

Lemma similar_kind_count (f : Entity -> bool) es es' :
  (forall e e', similar_kind e e' -> f e' = f e) ->
  Forall2 similar_kind es es' ->
  List.length (filter f es') = List.length (filter f es).
Proof.
  intro Hf. induction 1 as [|e e' es es' He _ IH]; [reflexivity|].
  cbn [filter]. rewrite (Hf _ _ He). destruct (f e); cbn [List.length]; congruence.
Qed.

Lemma census_similar g es' :
  Forall2 similar_kind (entities g) es' -> census_ok g -> census_ok (with_entities g es').
Proof.
  intros HS (Hshape & Hstar & Hinp). unfold census_ok. cbn [with_entities entities].
  split; [|split].
  - clear - HS Hshape. induction HS as [|e e' es es' He _ IH]; [constructor|].
    inversion Hshape as [|? ? Hhd Htl]; subst.
    constructor; [eapply similar_kind_shape; eauto | auto].
  - rewrite <- Hstar. apply similar_kind_count; [|exact HS].
    intros e e' (_ & Hs & _). unfold is_star, has. exact Hs.
  - rewrite <- Hinp. apply similar_kind_count; [|exact HS].
    intros e e' (_ & _ & Hi). unfold is_input, has. exact Hi.
Qed.

Lemma census_create g mk :
  ids_ok g -> id (mk (nextId g)) = nextId g ->
  star (mk (nextId g)) = None -> input (mk (nextId g)) = None ->
  census_ok g -> census_ok (createEntity g mk).
Proof.
  intros Hids Hid Hs Hi (Hshape & Hstar & Hinp).
  unfold census_ok. rewrite (createEntity_entities g mk Hids Hid).
  split; [|split].
  - apply Forall_app. split; [exact Hshape|]. constructor; [|constructor].
    unfold passive_shape, is_passive, is_star, is_input, has. rewrite Hs, Hi. discriminate.
  - rewrite filter_app, length_app. cbn [filter]. unfold is_star at 2, has. rewrite Hs.
    cbn [isSome List.length]. lia.
  - rewrite filter_app, length_app. cbn [filter]. unfold is_input at 2, has. rewrite Hi.
    cbn [isSome List.length]. lia.
Qed.

Lemma not_passive_of_shape e :
  passive_shape e -> (bullet e <> None \/ enemy e <> None \/ lifetime e <> None) ->
  is_passive e = false.
Proof.
  intros H Hk. destruct (is_passive e) eqn:E; [|reflexivity].
  destruct (H E) as (Hb & He & Hl). tauto.
Qed.

Lemma kept_passive_refl g : kept_passive g g.
Proof.
  exists (fun _ => true). split; [|auto].
  induction (entities g); simpl; congruence.
Qed.

Lemma kept_passive_destroy g0 g d :
  NoDup (map id (entities g0)) -> kept_passive g0 g -> In d (entities g0) ->
  is_passive d = false -> kept_passive g0 (destroyEntity g d).
Proof.
  intros Hnd (keep & Hk & Hp) Hd Hnp.
  exists (fun e0 => keep e0 && negb (id e0 =? id d)%Z). split.
  - cbn [destroyEntity with_entities entities]. rewrite Hk. clear.
    induction (entities g0) as [|a l IH]; simpl; [reflexivity|].
    destruct (keep a); simpl; [|exact IH].
    destruct (negb (id a =? id d)%Z); simpl; congruence.
  - intros p Hin Hpl. rewrite (Hp p Hin Hpl). simpl.
    destruct (id p =? id d)%Z eqn:E; [|reflexivity].
    apply Z.eqb_eq in E. rewrite (NoDup_ids_inj _ _ _ Hnd Hin Hd E) in Hpl. congruence.
Qed.

Lemma kept_passive_entities g0 g g' :
  entities g' = entities g -> kept_passive g0 g -> kept_passive g0 g'.
Proof. unfold kept_passive. intros ->. auto. Qed.

Lemma kept_passive_census g0 g : kept_passive g0 g -> census_ok g0 -> census_ok g.
Proof.
  intros (keep & Hk & Hp) (Hshape & Hstar & Hinp). unfold census_ok. rewrite Hk.
  split; [|split].
  - apply Forall_forall. intros e He. apply filter_In in He.
    rewrite Forall_forall in Hshape. apply Hshape. tauto.
  - rewrite filter_filter_absorb; [exact Hstar|].
    intros e He Hs. apply Hp; [exact He|]. unfold is_passive. now rewrite Hs.
  - rewrite filter_filter_absorb; [exact Hinp|].
    intros e He Hi. apply Hp; [exact He|]. unfold is_passive. rewrite Hi. apply orb_true_r.
Qed.


Lemma census_setInput g u : census_ok g -> census_ok (setInput g u).
Proof. apply census_similar, similar_kind_assign_first. Qed.

Lemma census_InputToPlayer g dt : census_ok g -> census_ok (system_InputToPlayer sqrt g dt).
Proof.
  intro H. unfold system_InputToPlayer.
  destruct (findAllWith g [C_INPUT]) as [|ie ?]; [exact H|].
  destruct (input ie) as [inp|]; [|exact H].
  apply census_similar; [|exact H]. apply similar_kind_map.
  intro e. destruct (forallb _ _); [apply similar_kind_steer | apply similar_kind_refl].
Qed.

Lemma census_Shooting g o : store_ok g -> census_ok g -> census_ok (system_Shooting g o).
Proof.
  intros (Hids & _) H. unfold system_Shooting.
  destruct (findAllWith g [C_INPUT]) as [|ie ?]; [exact H|].
  destruct (input ie) as [inp|]; [|exact H].
  destruct (findAllWith g [C_PLAYER; C_POSITION]) as [|p ?]; [exact H|].
  destruct (shoot inp && _); [|exact H].
  destruct (position p) as [ppos|]; [|exact H].
  exact (census_create g (newBullet ppos) Hids eq_refl eq_refl eq_refl H).
Qed.

Lemma census_EnemySpawn g o : store_ok g -> census_ok g -> census_ok (system_EnemySpawn g o).
Proof.
  intros (Hids & _) H. unfold system_EnemySpawn. destruct (Qltb _ _); [|exact H].
  now apply census_create.
Qed.

Lemma census_Movement g dt o : store_ok g -> census_ok g -> census_ok (system_Movement g dt o).
Proof.
  intros Hok H. rewrite system_Movement_eq. cbv zeta.
  assert (Hm : census_ok (moved_store g dt o)).
  { apply census_similar; [|exact H]. apply similar_kind_map, similar_kind_move_one. }
  pose proof (store_ok_moved g dt o Hok) as ((Hnd & _) & _).
  apply census_similar; [apply similar_kind_map, similar_kind_clamp_player|].
  apply (kept_passive_census (moved_store g dt o)); [|exact Hm].
  apply fold_left_invariant; [|apply kept_passive_refl].
  intros g1 d Hd Hg1. apply filter_In in Hd. destruct Hd as [Hin He].
  apply kept_passive_destroy; auto.
  destruct Hm as (Hshape & _). rewrite Forall_forall in Hshape.
  apply not_passive_of_shape; [auto|]. right; right.
  unfold expired in He. destruct (lifetime d); [discriminate | discriminate].
Qed.

Lemma snapshot_not_passive g c cs e :
  census_ok g -> c = C_ENEMY \/ c = C_BULLET -> In e (findAllWith g (c :: cs)) ->
  In e (entities g) /\ is_passive e = false.
Proof.
  intros (Hshape & _) Hc Hin. apply findAllWith_In in Hin. destruct Hin as [Hin Hhas].
  split; [exact Hin|]. rewrite Forall_forall in Hshape.
  apply not_passive_of_shape; [auto|].
  cbn [forallb] in Hhas. apply andb_prop in Hhas. destruct Hhas as [Hk _].
  destruct Hc as [-> | ->]; cbn [has] in Hk.
  - right; left. destruct (enemy e); [discriminate | discriminate].
  - left. destruct (bullet e); [discriminate | discriminate].
Qed.

Lemma kept_passive_Collision g :
  store_ok g -> census_ok g -> kept_passive g (system_Collision sqrt g).
Proof.
  intros ((Hnd & _) & _) H.
  unfold system_Collision.
  apply fold_left_invariant.
  - intros g1 b Hb Hg1. rewrite bullet_vs_enemies_find.
    destruct (find _ _) as [e|] eqn:Ef; [|exact Hg1].
    apply find_some in Ef. destruct Ef as [He _].
    destruct (snapshot_not_passive g _ _ _ H (or_introl eq_refl) He).
    destruct (snapshot_not_passive g _ _ _ H (or_intror eq_refl) Hb).
    apply kept_passive_destroy; auto. apply kept_passive_destroy; auto.
  - apply fold_left_invariant; [|apply kept_passive_refl].
    intros g1 e He Hg1. unfold enemy_vs_players. revert Hg1.
    apply fold_left_invariant. intros g2 p _ Hg2.
    destruct (overlap sqrt e p); [|exact Hg2].
    destruct (snapshot_not_passive g _ _ _ H (or_introl eq_refl) He).
    apply (kept_passive_entities g (destroyEntity g2 e)); [apply lose_hp_entities|].
    apply kept_passive_destroy; auto.
Qed.

Lemma census_Collision g : store_ok g -> census_ok g -> census_ok (system_Collision sqrt g).
Proof.
  intros Hok H. apply (kept_passive_census g); [now apply kept_passive_Collision | exact H].
Qed.

Lemma kept_passive_Cleanup g :
  store_ok g -> census_ok g -> kept_passive g (system_Cleanup g).
Proof.
  intros ((Hnd & _) & _) H.
  unfold system_Cleanup.
  apply fold_left_invariant; [|apply kept_passive_refl].
  intros g1 d Hd Hg1. destruct (out_of_bounds d) eqn:Eo; [|exact Hg1].
  apply kept_passive_destroy; auto.
  destruct H as (Hshape & _). rewrite Forall_forall in Hshape.
  apply not_passive_of_shape; [auto|]. apply out_of_bounds_kind in Eo.
  cbn [has] in Eo. destruct (bullet d); [left; discriminate|].
  destruct (enemy d); [right; left; discriminate | discriminate].
Qed.

Lemma census_Cleanup g : store_ok g -> census_ok g -> census_ok (system_Cleanup g).
Proof.
  intros Hok H. apply (kept_passive_census g); [now apply kept_passive_Cleanup | exact H].
Qed.

Lemma census_tick g dt o : store_ok g -> census_ok g -> census_ok (tick sqrt g dt o).
Proof.
  intros Hok H. rewrite tick_eq. destruct (Phase_eqb _ _); [now apply census_Movement|].
  pose proof (store_ok_InputToPlayer sqrt g dt Hok) as H1.
  pose proof (store_ok_Shooting _ o H1) as H2.
  pose proof (store_ok_EnemySpawn _ o H2) as H3.
  pose proof (store_ok_before_collision sqrt g dt o Hok) as H4.
  pose proof (pruned_store_ok _ _ H4 (pruned_Collision sqrt _ H4)) as H5.
  apply census_Cleanup; [exact H5|].
  apply census_Collision; [exact H4|].
  unfold before_collision.
  apply census_Movement; [exact H3|].
  apply census_EnemySpawn; [exact H2|].
  apply census_Shooting; [exact H1|].
  now apply census_InputToPlayer.
Qed.

Lemma layout_shape ro :
  Forall passive_shape (newPlayer 1 :: newInput 2
    :: map (fun k => newStar ro k (Z.of_nat k + 3)) (seq 0 STAR_COUNT)).
Proof.
  constructor; [intro Hp; discriminate|].
  constructor; [intros _; repeat split|].
  apply Forall_forall. intros e He. apply in_map_iff in He. destruct He as (k & <- & _).
  intros _. repeat split.
Qed.

Lemma filter_skip {A : Type} (f : A -> bool) (a : A) (l : list A) :
  f a = false -> filter f (a :: l) = filter f l.
Proof. intro H. cbn [filter]. now rewrite H. Qed.

Lemma filter_take {A : Type} (f : A -> bool) (a : A) (l : list A) :
  f a = true -> filter f (a :: l) = a :: filter f l.
Proof. intro H. cbn [filter]. now rewrite H. Qed.

Lemma layout_stars ro :
  List.length (filter is_star (newPlayer 1 :: newInput 2
    :: map (fun k => newStar ro k (Z.of_nat k + 3)) (seq 0 STAR_COUNT))) = STAR_COUNT.
Proof.
  rewrite (filter_skip is_star (newPlayer 1)) by reflexivity.
  rewrite (filter_skip is_star (newInput 2)) by reflexivity.
  rewrite forallb_filter_id; [now rewrite length_map, length_seq|].
  apply forallb_forall. intros e He. apply in_map_iff in He. destruct He as (k & <- & _).
  reflexivity.
Qed.

Lemma layout_input ro :
  List.length (filter is_input (newPlayer 1 :: newInput 2
    :: map (fun k => newStar ro k (Z.of_nat k + 3)) (seq 0 STAR_COUNT))) = 1%nat.
Proof.
  rewrite (filter_skip is_input (newPlayer 1)) by reflexivity.
  rewrite (filter_take is_input (newInput 2)) by reflexivity.
  cbn [List.length]. apply eq_S. generalize (seq 0 STAR_COUNT). intro l.
  induction l as [|k l IH]; [reflexivity|].
  cbn [map]. rewrite filter_skip by reflexivity. exact IH.
Qed.

Lemma census_reset g skipScore ro : census_ok (reset g skipScore ro).
Proof.
  unfold census_ok. rewrite reset_entities.
  split; [apply layout_shape | split; [apply layout_stars | apply layout_input]].
Qed.

Lemma reachable_census g : reachable sqrt g -> census_ok g.
Proof.
  induction 1 as [ro | g dt o Hr IH | g ro _ IH | g u _ IH].
  - apply census_reset.
  - apply census_tick; [now apply (reachable_store_ok sqrt) | exact IH].
  - apply census_reset.
  - now apply census_setInput.
Qed.

Lemma findAllWith_one g c :
  findAllWith g [c] = filter (fun e => has e c) (entities g).
Proof.
  unfold findAllWith. apply filter_ext. intro e. cbn [forallb]. apply andb_true_r.
Qed.

End Census_Facts.

(** ** Where the stored bullets come from *)

Section ECS_Origin.
Import ECS ECSSpec ECSMore.
Variable sqrt : Qc -> Qc.

Lemma map_set_In es e a : In a (map_set es e) -> In a es \/ a = e.
Proof.
  induction es as [|e0 es IH]; cbn [map_set].
  - intros [<-|[]]. now right.
  - destruct (id e0 =? id e)%Z.
    + intros [<-|H]; [now right | left; now right].
    + intros [<-|H]; [left; now left|]. destruct (IH H); [left; now right | now right].
Qed.

Lemma createEntity_In g mk a :
  In a (entities (createEntity g mk)) -> In a (entities g) \/ a = mk (nextId g).
Proof. apply map_set_In. Qed.

Lemma InputToPlayer_origin g dt e1 :
  In e1 (entities (system_InputToPlayer sqrt g dt)) ->
  exists e0, In e0 (entities g) /\ similar_kind e0 e1.
Proof.
  unfold system_InputToPlayer.
  destruct (findAllWith g [C_INPUT]) as [|ie ?];
    [intro H; exists e1; split; [exact H | apply similar_kind_refl]|].
  destruct (input ie) as [inp|];
    [|intro H; exists e1; split; [exact H | apply similar_kind_refl]].
  cbn [with_entities entities]. intro H. apply in_map_iff in H.
  destruct H as (e0 & <- & Hin). exists e0. split; [exact Hin|].
  destruct (forallb _ _); [apply similar_kind_steer | apply similar_kind_refl].
Qed.

Lemma Movement_similar g dt o e' :
  In e' (entities (system_Movement g dt o)) ->
  exists e0, In e0 (entities g) /\ similar_kind e0 e'.
Proof.
  intro H. apply Movement_origin in H. destruct H as (e0 & Hin & ->).
  exists e0. split; [exact Hin|].
  eapply similar_kind_trans; [apply similar_kind_move_one | apply similar_kind_clamp_player].
Qed.

(** Every entity stored after a frame is an entity of the state before,
    updated in place, or the enemy spawned in this frame, or the bullet
    fired in it; a bullet is fired only through the open gate. *)
Lemma tick_origin g dt o e' :
  In e' (entities (tick sqrt g dt o)) ->
  (exists e0, In e0 (entities g) /\ similar_kind e0 e')
  \/ (gameState g = playing /\ exists ex i, similar_kind (newEnemy ex i) e')
  \/ (gameState g = playing
      /\ (exists inp, current_input g = Some inp /\ shoot inp = true)
      /\ (BULLET_FIRE_RATE < now o - lastFireTime g)%Z
      /\ lastFireTime (tick sqrt g dt o) = now o
      /\ exists ppos, similar_kind (newBullet ppos (nextId g)) e').
Proof.
  rewrite tick_eq. destruct (Phase_eqb (gameState g) gameOver) eqn:Eg.
  - intro H. left. exact (Movement_similar g dt o e' H).
  - assert (Hpl : gameState g = playing)
      by (destruct (gameState g); [reflexivity | discriminate]).
    set (g1 := system_InputToPlayer sqrt g dt).
    set (g2 := system_Shooting g1 o).
    set (g3 := system_EnemySpawn g2 o).
    assert (Hclock : lastFireTime (system_Cleanup (system_Collision sqrt
                        (before_collision sqrt g dt o))) = lastFireTime g2).
    { destruct (system_Cleanup_clock (system_Collision sqrt (before_collision sqrt g dt o)))
        as [-> _].
      destruct (system_Collision_clock sqrt (before_collision sqrt g dt o)) as [-> _].
      unfold before_collision. fold g1 g2 g3.
      destruct (system_Movement_clock g3 dt o) as [-> _].
      unfold g3, system_EnemySpawn. destruct (Qltb _ _); reflexivity. }
    rewrite Hclock. intro H.
    apply incl_Cleanup, incl_Collision in H. unfold before_collision in H. fold g1 g2 g3 in H.
    apply Movement_similar in H. destruct H as (e3 & H3 & S3).
    assert (H2 : In e3 (entities g2) \/ exists ex i, e3 = newEnemy ex i).
    { unfold g3, system_EnemySpawn in H3. destruct (Qltb _ _); [|now left].
      apply createEntity_In in H3. destruct H3 as [H3 | ->]; [now left | right; eauto]. }
    destruct H2 as [H2 | (ex & i & ->)]; [|right; left; split; [exact Hpl | eauto]].
    destruct (system_InputToPlayer_clock sqrt g dt) as [Hl Hn]. fold g1 in Hl, Hn.
    assert (H1 : In e3 (entities g1)
                 \/ ((exists inp, current_input g = Some inp /\ shoot inp = true)
                     /\ (BULLET_FIRE_RATE < now o - lastFireTime g)%Z
                     /\ lastFireTime g2 = now o
                     /\ exists ppos, e3 = newBullet ppos (nextId g))).
    { unfold g2 in *.
      destruct (system_Shooting_cases g1 o) as [E | (inp & ppos & Hi & Hs & Ht & E)];
        rewrite E in *; [now left|].
      cbn [with_lastFireTime entities] in H2. apply createEntity_In in H2.
      destruct H2 as [H2 | ->]; [now left|]. right.
      unfold g1 in Hi. rewrite current_input_InputToPlayer in Hi. rewrite Hl in Ht.
      split; [eauto|]. split; [exact Ht|]. split; [reflexivity|].
      exists ppos. now rewrite Hn. }
    destruct H1 as [H1 | (Hi & Ht & Hnow & ppos & ->)].
    + left. apply InputToPlayer_origin in H1. destruct H1 as (e0 & H0 & S0).
      exists e0. split; [exact H0 | eapply similar_kind_trans; eauto].
    + right; right. repeat split; eauto.
Qed.

Lemma similar_bullet e e' : similar e e' -> bullet e' = bullet e.
Proof. intros (_ & _ & _ & H & _). exact H. Qed.

Lemma similar_id e e' : similar e e' -> id e' = id e.
Proof. intros (H & _). exact H. Qed.

Lemma similar_kind_bullet e e' : similar_kind e e' -> bullet e' = bullet e.
Proof. intros (H & _). now apply similar_bullet. Qed.

Lemma similar_kind_id e e' : similar_kind e e' -> id e' = id e.
Proof. intros (H & _). now apply similar_id. Qed.

(** A bullet stored after a frame was a bullet before the frame, or was
    fired in it through the open gate and carries the fresh id. *)
Lemma tick_bullets_origin g dt o b :
  In b (entities (tick sqrt g dt o)) -> bullet b <> None ->
  (exists b0, In b0 (entities g) /\ bullet b0 <> None /\ id b0 = id b)
  \/ (gameState g = playing
      /\ (exists inp, current_input g = Some inp /\ shoot inp = true)
      /\ (BULLET_FIRE_RATE < now o - lastFireTime g)%Z
      /\ lastFireTime (tick sqrt g dt o) = now o
      /\ id b = nextId g).
Proof.
  intros Hin Hb.
  destruct (tick_origin g dt o b Hin)
    as [(e0 & H0 & S) | [(_ & ex & i & S) | (Hpl & Hi & Ht & Hnow & ppos & S)]].
  - left. exists e0. rewrite <- (similar_kind_bullet _ _ S), (similar_kind_id _ _ S). auto.
  - rewrite (similar_kind_bullet _ _ S) in Hb. now contradiction Hb.
  - right. rewrite (similar_kind_id _ _ S). repeat split; auto.
Qed.

Lemma setInput_bullets g u b :
  In b (entities (setInput g u)) -> bullet b <> None ->
  exists b0, In b0 (entities g) /\ bullet b0 <> None /\ id b0 = id b.
Proof.
  cbn [setInput with_entities entities]. intros Hin Hb.
  pose proof (similar_assign_first (entities g) u) as HS.
  revert Hin. induction HS as [|e e' es es' He _ IH]; [intros []|].
  intros [<-|Hin].
  - exists e. rewrite <- (similar_bullet _ _ He), (similar_id _ _ He).
    split; [now left | auto].
  - destruct (IH Hin) as (b0 & H0 & Hrest). exists b0. split; [now right | exact Hrest].
Qed.

(** While the gate stays shut no bullet appears in a store that had none. *)
Lemma quiet_run_no_bullets (frames : list Frame) :
  forall g,
    findAllWith g [C_BULLET] = [] ->
    Forall (fun f => (now (f_oracle f) <= lastFireTime g + BULLET_FIRE_RATE)%Z) frames ->
    findAllWith (run sqrt g frames) [C_BULLET] = [].
Proof.
  induction frames as [|f rest IH]; intros g Hnone Hall; [exact Hnone|].
  inversion Hall as [|? ? Hf Hrest]; subst.
  assert (Hb : forall e, In e (entities g) -> bullet e = None).
  { intros e He. destruct (bullet e) eqn:Eb; [|reflexivity]. exfalso.
    assert (Hin : In e (findAllWith g [C_BULLET])).
    { apply findAllWith_In. split; [exact He|]. cbn [forallb has]. now rewrite Eb. }
    rewrite Hnone in Hin. exact Hin. }
  assert (E : lastFireTime (step sqrt g f) = lastFireTime g).
  { unfold step.
    destruct (tick_clock_cases sqrt (setInput g (f_input f)) (f_dt f) (f_oracle f))
      as [H | (_ & _ & Ht & _)].
    - now rewrite setInput_lastFireTime in H.
    - rewrite setInput_lastFireTime in Ht. lia. }
  change (run sqrt g (f :: rest)) with (run sqrt (step sqrt g f) rest).
  apply IH; [|now rewrite E].
  destruct (findAllWith (step sqrt g f) [C_BULLET]) as [|b bs] eqn:Ef; [reflexivity|].
  exfalso.
  assert (Hin : In b (findAllWith (step sqrt g f) [C_BULLET])) by (rewrite Ef; now left).
  apply findAllWith_In in Hin. destruct Hin as [Hin Hhas].
  cbn [forallb has] in Hhas.
  assert (Hbb : bullet b <> None) by (destruct (bullet b); [discriminate | discriminate]).
  unfold step in Hin.
  destruct (tick_bullets_origin _ _ _ b Hin Hbb)
    as [(b1 & H1 & Hb1 & _) | (_ & _ & Ht & _)].
  - destruct (setInput_bullets g _ b1 H1 Hb1) as (b0 & H0 & Hb0 & _).
    apply Hb0, Hb, H0.
  - rewrite setInput_lastFireTime in Ht. lia.
Qed.

(** *** What a frame keeps *)

Lemma move_one_id o dt e : id (move_one o dt e) = id e.
Proof. destruct (similar_move_one o dt e) as (H & _). exact H. Qed.

(** The movement system deletes by time-to-live only: an entity whose
    time-to-live has not run out is still stored, wherever it is. *)
Lemma Movement_keeps g dt o e :
  NoDup (map id (entities g)) -> In e (entities g) ->
  expired (move_one o dt e) = false ->
  In (clamp_player (move_one o dt e)) (entities (system_Movement g dt o)).
Proof.
  intros Hnd He Hexp. rewrite system_Movement_eq. cbv zeta.
  cbn [with_entities entities]. apply in_map. apply fold_destroy_In. split.
  - unfold moved_store. cbn [with_entities entities]. now apply in_map.
  - intros d Hd Hid. apply filter_In in Hd. destruct Hd as [Hd Hdx].
    unfold moved_store in Hd. cbn [with_entities entities] in Hd.
    apply in_map_iff in Hd. destruct Hd as (d0 & <- & Hd0).
    rewrite !move_one_id in Hid.
    rewrite (NoDup_ids_inj _ _ _ Hnd He Hd0 Hid) in Hexp. congruence.
Qed.








(** *** Stars and the input entity are never players *)






End ECS_Origin.

Section Flat_Origin.
Import Flat FlatSpec.
Variable sqrt : Qc -> Qc.





End Flat_Origin.

(** ** The claims of the specification *)

Lemma within_field_player (p : Vec2) :
  within_field PLAYER_SIZE p ->
  (Q2Qc 10 <= x p /\ x p <= Q2Qc 310) /\ (Q2Qc 10 <= y p /\ y p <= Q2Qc 558).
Proof.
  unfold within_field.
  replace (PLAYER_SIZE / 2) with (Q2Qc 10) by (apply Qc_is_canon; reflexivity).
  replace (GAME_WIDTH - Q2Qc 10) with (Q2Qc 310) by (apply Qc_is_canon; reflexivity).
  replace (GAME_HEIGHT - Q2Qc 10) with (Q2Qc 558) by (apply Qc_is_canon; reflexivity).
  tauto.
Qed.

(** C1 (fails on the flat version).  The flat [update] decrements [hp] once
    per enemy overlapping the player and never floors it: after the run
    [frames_four_enemies] from a new game, a reachable state has [hp = -1]
    in phase [gameOver], and [render] paints four hollow hearts, the first in
    slot -1.  (The entity-component version keeps [0 <= hp <= 3] and
    [hp = 0 <-> gameOver]: [reachable_hp_ok].) *)
Theorem flat_hp_goes_negative :
  let g := Flat.run sqrt_fix (Flat.new_Game Examples.flat_stars0)
                    Examples.frames_four_enemies in
  Flat.reachable sqrt_fix g
  /\ Flat.hp (Flat.run sqrt_fix (Flat.new_Game Examples.flat_stars0)
                       (firstn 341 Examples.frames_four_enemies)) = 3%Z
  /\ Flat.hp g = (-1)%Z /\ Flat.gameState g = gameOver
  /\ hearts false (Flat.hp g) 3
     = [DrawHeart false (-1); DrawHeart false 0; DrawHeart false 1; DrawHeart false 2].
Proof.
  cbv zeta. split; [apply flat_reachable_run, Flat.reach_new|].
  repeat split; vm_compute; reflexivity.
Qed.




(** C4 (fails on the flat version).  The flat bullet pass has no early
    exit: one bullet removes and scores every enemy it overlaps.  After the
    run [frames_one_bullet_two_enemies] from a new game, the last frame takes
    a store of one bullet and two enemies to an empty one and adds 200.
    (The entity-component version stops at the first overlapping enemy:
    [bullet_scores_once].) *)
Theorem flat_bullet_scores_twice :
  let g60 := Flat.run sqrt_fix (Flat.new_Game Examples.flat_stars0)
                      (firstn 60 Examples.frames_one_bullet_two_enemies) in
  let g61 := Flat.run sqrt_fix (Flat.new_Game Examples.flat_stars0)
                      Examples.frames_one_bullet_two_enemies in
  Flat.reachable sqrt_fix g61
  /\ (List.length (Flat.bullets g60) = 1 /\ List.length (Flat.enemies g60) = 2)%nat
  /\ Flat.score g60 = 0%Z
  /\ Flat.score g61 = 200%Z
  /\ (List.length (Flat.bullets g61) = 0 /\ List.length (Flat.enemies g61) = 0)%nat.
Proof.
  cbv zeta. split; [apply flat_reachable_run, Flat.reach_new|].
  repeat split; vm_compute; reflexivity.
Qed.

(** C5 as stated fails on the entity-component version: once the game is
    over a frame runs the movement system but not the cleanup.  In the run
    below the game is over after 340 frames; enemy 56 is 605 units down after
    frame 417, beyond the playfield (568) plus its margin (16 + 20), and is
    still stored three frames later. *)
Lemma ecs_gameOver_keeps_strays :
  let start := ECS.new_Game (Examples.ecs_stars0 0) in
  let at_frame n := ECS.run sqrt_fix start
                      (Examples.ecs_four_enemies ++ Examples.ecs_quiet_frames 80 (n - 4)) in
  ECS.reachable sqrt_fix (at_frame 420%nat)
  /\ ECS.gameState (at_frame 340%nat) = gameOver
  /\ Examples.ecs_enemy_heights (at_frame 417%nat) = [(56%Z, 605%Q)]
  /\ map ECS.out_of_bounds (ECS.findAllWith (at_frame 417%nat) [ECS.C_ENEMY]) = [true]
  /\ Examples.ecs_enemy_heights (at_frame 418%nat) = [(56%Z, (1213 # 2)%Q)]
  /\ Examples.ecs_enemy_heights (at_frame 419%nat) = [(56%Z, 608%Q)]
  /\ Examples.ecs_enemy_heights (at_frame 420%nat) = [(56%Z, (1219 # 2)%Q)].
Proof.
  cbv zeta. split; [apply reachable_run, ECS.reach_new|].
  repeat split; vm_compute; reflexivity.
Qed.

(** C5, amended.  After every frame run while the phase is playing, no
    stored bullet or enemy lies beyond the playfield by more than its margin
    (entity-component: size + 20 on all four sides; flat: 20 above and below
    for bullets, size + 10 below for enemies).  In the entity-component
    version every frame, in either phase, removes the entities whose
    time-to-live has run out: every stored time-to-live is positive.  While
    the game is over the entity-component frame is the movement system
    alone, which deletes by time-to-live only (an entity whose time-to-live
    has not run out is still stored, moved, wherever it is), and the flat
    [update] changes nothing.  In the flat version, which freezes when the
    game is over, the bound holds in every reachable state. *)
Theorem eviction_after_playing_frame (sqrt : Qc -> Qc)
        (g : ECS.Game) (dt : Z) (o : ECS.Oracle) (gf : Flat.Game) (fo : Flat.Oracle) :
  ECS.reachable sqrt g -> Flat.reachable sqrt gf ->
  (ECS.gameState g = playing -> ECSSpec.evicted_ok (ECS.tick sqrt g dt o))
  /\ ECSSpec.ttl_ok (ECS.tick sqrt g dt o)
  /\ (ECS.gameState g = gameOver ->
      ECS.tick sqrt g dt o = ECS.system_Movement g dt o
      /\ forall e, In e (ECS.entities g) -> ECS.expired (ECS.move_one o dt e) = false ->
                   In (ECS.clamp_player (ECS.move_one o dt e))
                      (ECS.entities (ECS.tick sqrt g dt o)))
  /\ FlatSpec.evicted_ok gf
  /\ FlatSpec.evicted_ok (Flat.update sqrt gf fo)
  /\ (Flat.gameState gf = gameOver -> Flat.update sqrt gf fo = gf).
Proof.
  intros Hr Hf. split; [apply evicted_ok_tick|]. split; [apply ttl_ok_tick|].
  split; [|split; [|split]].
  - intro Hover. rewrite (tick_gameOver sqrt g dt o Hover). split; [reflexivity|].
    intros e He Hexp. destruct (reachable_store_ok sqrt g Hr) as ((Hnd & _) & _).
    now apply Movement_keeps.
  - now apply (flat_reachable_evicted_ok sqrt).
  - apply update_evicted_ok. now apply (flat_reachable_evicted_ok sqrt).
  - apply update_gameOver.
Qed.

(** C6.  [reset()] from any state gives score 0, hp 3, phase playing, one
    player at (160, 508), no bullet, no enemy and 50 stars. *)
Theorem reset_postcondition
        (g : ECS.Game) (ro : ECS.ResetOracle) (gf : Flat.Game) (fro : Flat.ResetOracle) :
  (ECS.score (ECS.reset g false ro) = 0%Z
   /\ ECS.hp (ECS.reset g false ro) = 3%Z
   /\ ECS.gameState (ECS.reset g false ro) = playing
   /\ ECS.findAllWith (ECS.reset g false ro) [ECS.C_PLAYER] = [ECS.newPlayer 1]
   /\ ECS.position (ECS.newPlayer 1) = Some (createVector2 (Q2Qc 160) (Q2Qc 508))
   /\ ECS.findAllWith (ECS.reset g false ro) [ECS.C_BULLET] = []
   /\ ECS.findAllWith (ECS.reset g false ro) [ECS.C_ENEMY] = []
   /\ List.length (ECS.findAllWith (ECS.reset g false ro) [ECS.C_STAR]) = 50%nat)
  /\ (Flat.score (Flat.reset gf fro) = 0%Z
      /\ Flat.hp (Flat.reset gf fro) = 3%Z
      /\ Flat.gameState (Flat.reset gf fro) = playing
      /\ Flat.position (Flat.player_base (Flat.player (Flat.reset gf fro)))
         = createVector2 (Q2Qc 160) (Q2Qc 508)
      /\ Flat.bullets (Flat.reset gf fro) = []
      /\ Flat.enemies (Flat.reset gf fro) = []
      /\ List.length (Flat.stars (Flat.reset gf fro)) = 50%nat).
Proof.
  destruct start_position as [Hx Hy].
  destruct (reset_census g ro) as (Hp & Hb & He & Hs).
  split.
  - repeat split; try assumption.
    unfold ECS.newPlayer. cbn [ECS.position]. now rewrite Hx, Hy.
  - repeat split. cbn [Flat.reset Flat.player Flat.initialPlayer Flat.player_base Flat.position].
    now rewrite Hx, Hy.
Qed.

(** C7 (fails on both versions).  The numbers of the source are binary64
    values, and the clamp is [Math.max(min, Math.min(max, v))], which is NaN
    for a NaN position.  A press on a canvas whose rectangle has no extent
    gives the pointer position (Infinity, Infinity); the target velocity is
    then Infinity / Infinity = NaN, so are the velocity and the position
    after the frame, and the clamp leaves NaN: the player is not in
    [10, 310] x [10, 558], and stays out after the pointer is released.  A
    press at the centre of a canvas of positive size leaves the player
    inside. *)
Theorem player_position_becomes_nan :
  let inp := F64.press F64.initialInput F64.press_on_empty_rect in
  let p := F64.player_frame F64.Math_hypot inp F64.initialPlayer in
  let pf := F64.player_frame F64.sqrt_sum inp F64.initialPlayer in
  F64.press_on_empty_rect = F64.createVector2 PrimFloat.infinity PrimFloat.infinity
  /\ F64.within_field F64.PLAYER_SIZE (F64.position F64.initialPlayer) = true
  /\ (F64.position p = F64.createVector2 PrimFloat.nan PrimFloat.nan
      /\ F64.within_field F64.PLAYER_SIZE (F64.position p) = false
      /\ F64.within_field F64.PLAYER_SIZE
           (F64.position (F64.player_frame F64.Math_hypot (F64.release inp) p)) = false)
  /\ (F64.position pf = F64.createVector2 PrimFloat.nan PrimFloat.nan
      /\ F64.within_field F64.PLAYER_SIZE (F64.position pf) = false
      /\ F64.within_field F64.PLAYER_SIZE
           (F64.position (F64.player_frame F64.sqrt_sum (F64.release inp) pf)) = false)
  /\ F64.within_field F64.PLAYER_SIZE
       (F64.position (F64.player_frame F64.Math_hypot
                        (F64.press F64.initialInput F64.press_at_centre)
                        F64.initialPlayer)) = true
  /\ F64.clamp_of_nan = PrimFloat.nan.
Proof. cbv zeta. repeat split; vm_compute; reflexivity. Qed.

(** With exact numbers (no rounding, no NaN, no infinity): after every
    frame from a reachable state the player's centre is within
    [size/2, width - size/2] x [size/2, height - size/2], that is
    [10, 310] x [10, 558]; the entity-component store holds exactly one
    player. *)
Theorem player_stays_in_field (sqrt : Qc -> Qc)
        (g : ECS.Game) (dt : Z) (o : ECS.Oracle) (gf : Flat.Game) (fo : Flat.Oracle) :
  ECS.reachable sqrt g -> Flat.reachable sqrt gf ->
  (exists p pos,
      filter ECSSpec.is_player (ECS.entities (ECS.tick sqrt g dt o)) = [p]
      /\ ECS.position p = Some pos
      /\ within_field PLAYER_SIZE pos
      /\ (Q2Qc 10 <= x pos /\ x pos <= Q2Qc 310)
      /\ (Q2Qc 10 <= y pos /\ y pos <= Q2Qc 558))
  /\ (let pos := Flat.position (Flat.player_base (Flat.player (Flat.update sqrt gf fo))) in
      within_field PLAYER_SIZE pos
      /\ (Q2Qc 10 <= x pos /\ x pos <= Q2Qc 310)
      /\ (Q2Qc 10 <= y pos /\ y pos <= Q2Qc 558)).
Proof.
  intros Hr Hf. split.
  - pose proof (store_ok_tick sqrt g dt o (reachable_store_ok sqrt g Hr)) as Hok.
    pose proof (in_field_tick sqrt g dt o (reachable_store_ok sqrt g Hr)) as Hin.
    destruct Hok as (_ & Hshape & Hone).
    destruct (filter ECSSpec.is_player (ECS.entities (ECS.tick sqrt g dt o)))
      as [|p [|q rest]] eqn:Ef; try discriminate.
    assert (Hp : In p (ECS.entities (ECS.tick sqrt g dt o)) /\ ECSSpec.is_player p = true).
    { apply filter_In. rewrite Ef. now left. }
    destruct Hp as [Hp1 Hp2].
    rewrite Forall_forall in Hshape. destruct (Hshape p Hp1) as ([pos Epos] & _).
    { unfold ECSSpec.is_player, ECS.has in Hp2. destruct (ECS.player p); discriminate. }
    exists p, pos. pose proof (Hin p pos Hp1 Hp2 Epos) as Hw.
    destruct (within_field_player pos Hw). auto.
  - cbv zeta. destruct (update_player_ok sqrt gf fo (flat_reachable_player_ok sqrt gf Hf))
      as [_ Hw].
    destruct (within_field_player _ Hw). auto.
Qed.

(** C8.  While the phase is gameOver a frame spawns nothing, fires nothing,
    resolves no collision and leaves hp, score and phase alone.  The
    entity-component version still runs the movement system (every stored
    entity is a moved entity of the state before) and paints the overlay;
    the flat [update] returns the state unchanged and [render] still paints. *)
Theorem gameOver_frame_is_passive (sqrt : Qc -> Qc)
        (g : ECS.Game) (dt : Z) (o : ECS.Oracle) (gf : Flat.Game) (fo : Flat.Oracle) :
  ECS.gameState g = gameOver -> Flat.gameState gf = gameOver ->
  (let g' := fst (ECS.updateAndRender sqrt g dt o) in
   let frame := snd (ECS.updateAndRender sqrt g dt o) in
   g' = ECS.system_Movement g dt o
   /\ ECS.score g' = ECS.score g /\ ECS.hp g' = ECS.hp g
   /\ ECS.gameState g' = gameOver
   /\ ECS.lastFireTime g' = ECS.lastFireTime g
   /\ ECS.nextId g' = ECS.nextId g
   /\ (forall e', In e' (ECS.entities g') ->
                  exists e0, In e0 (ECS.entities g)
                             /\ e' = ECS.clamp_player (ECS.move_one o dt e0))
   /\ frame = ECS.system_Render g'
   /\ In (DrawGameOver (ECS.score g)) frame)
  /\ (Flat.loop sqrt gf fo = (gf, Flat.render gf)
      /\ In (DrawGameOver (Flat.score gf)) (Flat.render gf)).
Proof.
  intros Hg Hf. split.
  - cbv zeta.
    assert (E : ECS.updateAndRender sqrt g dt o
                = (ECS.system_Movement g dt o,
                   ECS.system_Render (ECS.system_Movement g dt o))).
    { unfold ECS.updateAndRender. now rewrite Hg. }
    rewrite E. cbn [fst snd].
    destruct (system_Movement_session g dt o) as (Hs & Hh & Hst).
    destruct (system_Movement_clock g dt o) as (Hl & Hn).
    repeat split; try assumption.
    + congruence.
    + apply Movement_origin.
    + rewrite <- Hs. apply render_overlay. congruence.
  - unfold Flat.loop. rewrite (update_gameOver sqrt gf fo Hf). split; [reflexivity|].
    unfold Flat.render. rewrite Hf. repeat (apply in_or_app; right). simpl. auto.
Qed.

(** C9.  Across a frame hp never increases (entity-component: from a
    reachable state; flat: from any state), and [reset()] puts it back
    to 3. *)
Theorem hp_never_increases (sqrt : Qc -> Qc)
        (g : ECS.Game) (dt : Z) (o : ECS.Oracle) (ro : ECS.ResetOracle)
        (gf : Flat.Game) (fo : Flat.Oracle) (fro : Flat.ResetOracle) :
  ECS.reachable sqrt g ->
  ((ECS.hp (ECS.tick sqrt g dt o) <= ECS.hp g)%Z
   /\ ECS.hp (ECS.reset g false ro) = 3%Z)
  /\ ((Flat.hp (Flat.update sqrt gf fo) <= Flat.hp gf)%Z
      /\ Flat.hp (Flat.reset gf fro) = 3%Z).
Proof.
  intro Hr. destruct (reachable_hp_ok sqrt g Hr) as [Hrange _].
  split; split; try reflexivity.
  - pose proof (tick_hp_le sqrt g dt o). lia.
  - apply update_hp_le.
Qed.

(** C10.  In every reachable state the score is a non-negative multiple
    of 100. *)
Theorem score_is_multiple_of_100 (sqrt : Qc -> Qc) (g : ECS.Game) (gf : Flat.Game) :
  ECS.reachable sqrt g -> Flat.reachable sqrt gf ->
  multiple_of_100 (ECS.score g) /\ multiple_of_100 (Flat.score gf).
Proof.
  intros Hr Hf. split; [now apply (reachable_score sqrt) | now apply (flat_reachable_score sqrt)].
Qed.

(** ** The theorems above at concrete inputs *)

Lemma eviction_after_playing_frame_witness :
  let g := ECS.run sqrt_fix (ECS.new_Game (Examples.ecs_stars0 1000))
                   (Examples.ecs_volley 82) in
  let o := Examples.ecs_quiet 2344 in
  let gf := Flat.run sqrt_fix (Flat.new_Game Examples.flat_stars0)
                     (Examples.flat_volley 74) in
  let fo := Examples.flat_quiet 2200 in
  ECS.reachable sqrt_fix g /\ Flat.reachable sqrt_fix gf
  /\ ECS.gameState g = playing
  /\ Examples.ecs_counts g = (10, 1, 10)%nat
  /\ Examples.ecs_counts (ECS.tick sqrt_fix g 16 o) = (9, 1, 9)%nat
  /\ Examples.flat_counts gf = (10, 1)%nat
  /\ Examples.flat_counts (Flat.update sqrt_fix gf fo) = (9, 1)%nat
  /\ ECSSpec.evicted_ok (ECS.tick sqrt_fix g 16 o)
  /\ ECSSpec.ttl_ok (ECS.tick sqrt_fix g 16 o)
  /\ FlatSpec.evicted_ok (Flat.update sqrt_fix gf fo)
  /\ (let over := ECS.run sqrt_fix (ECS.new_Game (Examples.ecs_stars0 0))
                          (Examples.ecs_four_enemies ++ Examples.ecs_quiet_frames 80 413) in
      ECS.gameState over = gameOver
      /\ ECS.tick sqrt_fix over 16 (Examples.ecs_quiet 6688)
         = ECS.system_Movement over 16 (Examples.ecs_quiet 6688)).
Proof.
  cbv zeta.
  assert (Hr : ECS.reachable sqrt_fix
                 (ECS.run sqrt_fix (ECS.new_Game (Examples.ecs_stars0 1000))
                          (Examples.ecs_volley 82)))
    by (apply reachable_run, ECS.reach_new).
  assert (Hf : Flat.reachable sqrt_fix
                 (Flat.run sqrt_fix (Flat.new_Game Examples.flat_stars0)
                           (Examples.flat_volley 74)))
    by (apply flat_reachable_run, Flat.reach_new).
  assert (Hp : ECS.gameState (ECS.run sqrt_fix (ECS.new_Game (Examples.ecs_stars0 1000))
                                      (Examples.ecs_volley 82)) = playing)
    by (vm_compute; reflexivity).
  split; [exact Hr|]. split; [exact Hf|]. split; [exact Hp|].
  split; [vm_compute; reflexivity|]. split; [vm_compute; reflexivity|].
  split; [vm_compute; reflexivity|]. split; [vm_compute; reflexivity|].
  destruct (eviction_after_playing_frame sqrt_fix _ 16 (Examples.ecs_quiet 2344) _
              (Examples.flat_quiet 2200) Hr Hf) as (He & Ht & _ & _ & Hfe & _).
  split; [exact (He Hp)|]. split; [exact Ht|]. split; [exact Hfe|].
  assert (Hro : ECS.reachable sqrt_fix
                  (ECS.run sqrt_fix (ECS.new_Game (Examples.ecs_stars0 0))
                           (Examples.ecs_four_enemies ++ Examples.ecs_quiet_frames 80 413)))
    by (apply reachable_run, ECS.reach_new).
  assert (Hover : ECS.gameState
                    (ECS.run sqrt_fix (ECS.new_Game (Examples.ecs_stars0 0))
                             (Examples.ecs_four_enemies
                              ++ Examples.ecs_quiet_frames 80 413)) = gameOver)
    by (vm_compute; reflexivity).
  split; [exact Hover|].
  destruct (eviction_after_playing_frame sqrt_fix _ 16 (Examples.ecs_quiet 6688) _
              (Examples.flat_quiet 2200) Hro Hf) as (_ & _ & Hg & _).
  exact (proj1 (Hg Hover)).
Defined.

Lemma player_stays_in_field_witness :
  ECS.reachable sqrt_fix (ECS.new_Game (Examples.ecs_stars0 0))
  /\ Flat.reachable sqrt_fix (Flat.new_Game Examples.flat_stars0)
  /\ (exists p pos,
         filter ECSSpec.is_player
                (ECS.entities (ECS.tick sqrt_fix (ECS.new_Game (Examples.ecs_stars0 0)) 16
                                        (Examples.ecs_quiet 16))) = [p]
         /\ ECS.position p = Some pos
         /\ within_field PLAYER_SIZE pos
         /\ (Q2Qc 10 <= x pos /\ x pos <= Q2Qc 310)
         /\ (Q2Qc 10 <= y pos /\ y pos <= Q2Qc 558))
  /\ (let pos := Flat.position
                   (Flat.player_base
                      (Flat.player (Flat.update sqrt_fix (Flat.new_Game Examples.flat_stars0)
                                                (Examples.flat_quiet 16)))) in
      within_field PLAYER_SIZE pos
      /\ (Q2Qc 10 <= x pos /\ x pos <= Q2Qc 310)
      /\ (Q2Qc 10 <= y pos /\ y pos <= Q2Qc 558)).
Proof.
  split; [constructor|]. split; [constructor|].
  apply player_stays_in_field; constructor.
Defined.

Lemma gameOver_frame_is_passive_witness :
  ECS.gameState Examples.ecs_over = gameOver
  /\ Flat.gameState Examples.flat_over = gameOver
  /\ ECS.score (fst (ECS.updateAndRender sqrt_fix Examples.ecs_over 16 (Examples.ecs_quiet 16)))
     = 300%Z
  /\ Flat.loop sqrt_fix Examples.flat_over (Examples.flat_quiet 16)
     = (Examples.flat_over, Flat.render Examples.flat_over).
Proof.
  split; [reflexivity|]. split; [reflexivity|].
  destruct (gameOver_frame_is_passive sqrt_fix Examples.ecs_over 16 (Examples.ecs_quiet 16)
              Examples.flat_over (Examples.flat_quiet 16) eq_refl eq_refl)
    as ((_ & Hs & _) & (Hl & _)).
  split; [exact Hs | exact Hl].
Defined.

Lemma hp_never_increases_witness :
  ECS.reachable sqrt_fix (ECS.new_Game (Examples.ecs_stars0 0))
  /\ (ECS.hp (ECS.tick sqrt_fix (ECS.new_Game (Examples.ecs_stars0 0)) 16
                       (Examples.ecs_quiet 16))
      <= ECS.hp (ECS.new_Game (Examples.ecs_stars0 0)))%Z
  /\ (Flat.hp (Flat.update sqrt_fix Examples.flat_over (Examples.flat_quiet 16))
      <= Flat.hp Examples.flat_over)%Z.
Proof.
  split; [constructor|].
  destruct (hp_never_increases sqrt_fix (ECS.new_Game (Examples.ecs_stars0 0)) 16
              (Examples.ecs_quiet 16) (Examples.ecs_stars0 0)
              Examples.flat_over (Examples.flat_quiet 16) Examples.flat_stars0
              (ECS.reach_new sqrt_fix (Examples.ecs_stars0 0)))
    as ((He & _) & (Hf & _)).
  split; [exact He | exact Hf].
Defined.

Lemma score_is_multiple_of_100_witness :
  ECS.reachable sqrt_fix (ECS.new_Game (Examples.ecs_stars0 0))
  /\ Flat.reachable sqrt_fix (Flat.new_Game Examples.flat_stars0)
  /\ multiple_of_100 (ECS.score (ECS.new_Game (Examples.ecs_stars0 0)))
  /\ multiple_of_100 (Flat.score (Flat.new_Game Examples.flat_stars0)).
Proof.
  split; [constructor|]. split; [constructor|].
  apply (score_is_multiple_of_100 sqrt_fix); constructor.
Defined.

(** * Further properties of the code *)

(** Goals about canonical rationals, restated over [Q]. *)
Ltac qc_to_q :=
  unfold Qcle, Qclt, Qcdiv, Qcminus, Qcplus, Qcmult, Qcopp, Qcinv, Q2Qc in *;
  cbn [this x y] in *;
  repeat rewrite Qred_correct in *.

(** ** Utilities *)

(** [clamp] on finite numbers ([Math.max] and [Math.min] select, they do
    not round): with ordered bounds the result lies between them, and a
    value already between them is returned as it is.  (A NaN goes through
    as NaN: [F64.clamp_of_nan].) *)
Theorem clamp_keeps_range (v lo hi : Qc) :
  lo <= hi ->
  (lo <= clamp v lo hi /\ clamp v lo hi <= hi)
  /\ (lo <= v /\ v <= hi -> clamp v lo hi = v)
  /\ clamp (clamp v lo hi) lo hi = clamp v lo hi.
Proof.
  intro Hlh.
  assert (Hfix : forall w, lo <= w /\ w <= hi -> clamp w lo hi = w).
  { intros w [Hl Hh]. unfold clamp, Qcmin, Qcmax.
    destruct (Qltb w hi) eqn:E1.
    - destruct (Qltb lo w) eqn:E2; [reflexivity|].
      apply Qltb_false in E2. now apply Qcle_antisym.
    - apply Qltb_false in E1. assert (hi = w) by now apply Qcle_antisym. subst w.
      destruct (Qltb lo hi) eqn:E2; [reflexivity|].
      apply Qltb_false in E2. now apply Qcle_antisym. }
  split; [now apply clamp_range|]. split; [apply Hfix|].
  apply Hfix. now apply clamp_range.
Qed.

Lemma clamp_keeps_range_witness :
  Q2Qc 10 <= Q2Qc 310
  /\ clamp (Q2Qc 400) (Q2Qc 10) (Q2Qc 310) <= Q2Qc 310.
Proof.
  split; [vm_compute; discriminate|].
  apply (clamp_keeps_range (Q2Qc 400) (Q2Qc 10) (Q2Qc 310)). vm_compute; discriminate.
Defined.

(** [clamp] on finite numbers with the bounds the wrong way round returns
    the lower bound argument whatever the finite value: [Math.max(min, ...)]
    wins. *)
Theorem clamp_inverted_bounds (v lo hi : Qc) : hi < lo -> clamp v lo hi = lo.
Proof.
  intro H. unfold clamp, Qcmax.
  destruct (Qltb lo (Qcmin hi v)) eqn:E; [|reflexivity].
  apply Qltb_true in E. exfalso.
  assert (Hm : Qcmin hi v <= hi).
  { unfold Qcmin. destruct (Qltb v hi) eqn:E1; [|apply Qcle_refl].
    apply Qltb_true in E1. now apply Qclt_le_weak. }
  apply (Qclt_not_le _ _ E). apply Qclt_le_weak.
  eapply Qcle_lt_trans; eassumption.
Qed.

Lemma clamp_inverted_bounds_witness :
  Q2Qc 5 < Q2Qc 9 /\ clamp (Q2Qc 7) (Q2Qc 9) (Q2Qc 5) = Q2Qc 9.
Proof.
  split; [vm_compute; reflexivity|].
  apply clamp_inverted_bounds. vm_compute; reflexivity.
Defined.

(** ** class Entity and the entity store *)

(** The component map of an entity: [get] after [add] returns the payload
    under its name and leaves the other names alone; [get] after [remove]
    finds nothing under the removed name; [has] is [get] being defined;
    neither changes the id. *)
Theorem component_map_round_trip (e : ECS.Entity) (c : ECSHost.Component) (n m : ECS.CName) :
  ECSHost.get (ECSHost.add e c) m
  = (if ECSHost.CName_eqb m (ECSHost.name_of c) then Some c else ECSHost.get e m)
  /\ ECSHost.get (ECSHost.remove e n) m
     = (if ECSHost.CName_eqb m n then None else ECSHost.get e m)
  /\ ECS.has e m = ECS.isSome (ECSHost.get e m)
  /\ ECS.id (ECSHost.add e c) = ECS.id e
  /\ ECS.id (ECSHost.remove e n) = ECS.id e
  /\ ECSHost.get (ECSHost.new_Entity (ECS.id e)) m = None.
Proof.
  repeat split.
  - destruct c, m; reflexivity.
  - destruct n, m; reflexivity.
  - destruct m; simpl;
      match goal with |- context [option_map _ ?o] => destruct o end; reflexivity.
  - destruct c; reflexivity.
  - destruct n; reflexivity.
  - destruct m; reflexivity.
Qed.

(** [createEntity] on a store whose ids are below [nextId]: the new entity
    gets the id [nextId], goes last in iteration order, leaves the others
    untouched, and the counter moves on by one, so ids stay unique. *)
Theorem createEntity_appends_fresh (g : ECS.Game) (mk : Z -> ECS.Entity) :
  ECSSpec.ids_ok g -> ECS.id (mk (ECS.nextId g)) = ECS.nextId g ->
  ECS.entities (ECS.createEntity g mk) = ECS.entities g ++ [mk (ECS.nextId g)]
  /\ ECS.nextId (ECS.createEntity g mk) = (ECS.nextId g + 1)%Z
  /\ ECSSpec.ids_ok (ECS.createEntity g mk).
Proof.
  intros Hok Hid. split; [now apply createEntity_entities|].
  split; [reflexivity | now apply ids_ok_create].
Qed.

Lemma createEntity_appends_fresh_witness :
  ECSSpec.ids_ok Examples.ecs_over
  /\ ECS.id (ECS.newEnemy (Q2Qc 100) (ECS.nextId Examples.ecs_over))
     = ECS.nextId Examples.ecs_over
  /\ ECS.nextId (ECS.createEntity Examples.ecs_over (ECS.newEnemy (Q2Qc 100))) = 4%Z.
Proof.
  assert (H : ECSSpec.ids_ok Examples.ecs_over).
  { split.
    - simpl. constructor; [simpl; intros [H|[]]; discriminate|].
      constructor; [simpl; tauto | constructor].
    - repeat constructor. }
  split; [exact H|]. split; [reflexivity|].
  apply (createEntity_appends_fresh Examples.ecs_over (ECS.newEnemy (Q2Qc 100)) H eq_refl).
Defined.

(** [Map.set] with a key already present replaces that entry in place:
    the store keeps its length and its order of ids. *)
Theorem map_set_existing_key (es : list ECS.Entity) (e : ECS.Entity) :
  In (ECS.id e) (map ECS.id es) ->
  map ECS.id (ECS.map_set es e) = map ECS.id es
  /\ List.length (ECS.map_set es e) = List.length es
  /\ In e (ECS.map_set es e).
Proof.
  induction es as [|a es IH]; simpl; [tauto|].
  intro Hin. destruct (Z.eqb_spec (ECS.id a) (ECS.id e)) as [E|E].
  - simpl. rewrite E. auto.
  - destruct Hin as [Hin|Hin]; [congruence|].
    destruct (IH Hin) as (H1 & H2 & H3). simpl. rewrite H1, H2. auto.
Qed.

Lemma map_set_existing_key_witness :
  In (ECS.id (ECS.newInput 1)) (map ECS.id [ECS.newPlayer 1; ECS.newInput 2])
  /\ List.length (ECS.map_set [ECS.newPlayer 1; ECS.newInput 2] (ECS.newInput 1)) = 2%nat.
Proof.
  split; [left; reflexivity|].
  apply (map_set_existing_key [ECS.newPlayer 1; ECS.newInput 2] (ECS.newInput 1)).
  left; reflexivity.
Defined.

(** [destroyEntity] deletes by id: what is left are the entities with another
    id, in their order; destroying twice is destroying once; and destroying
    an id that is not stored changes nothing. *)
Theorem destroyEntity_by_id (g : ECS.Game) (e : ECS.Entity) :
  ECS.entities (ECS.destroyEntity g e)
  = filter (fun e0 => negb (ECS.id e0 =? ECS.id e)%Z) (ECS.entities g)
  /\ ~ In (ECS.id e) (map ECS.id (ECS.entities (ECS.destroyEntity g e)))
  /\ ECS.destroyEntity (ECS.destroyEntity g e) e = ECS.destroyEntity g e
  /\ (~ In (ECS.id e) (map ECS.id (ECS.entities g)) -> ECS.destroyEntity g e = g).
Proof.
  assert (Hnone : forall es,
             ~ In (ECS.id e) (map ECS.id es) ->
             filter (fun e0 => negb (ECS.id e0 =? ECS.id e)%Z) es = es).
  { induction es as [|a es IH]; simpl; [reflexivity|]. intro H.
    destruct (Z.eqb_spec (ECS.id a) (ECS.id e)) as [E|E]; [tauto|].
    simpl. rewrite IH; tauto. }
  assert (Hgone : ~ In (ECS.id e) (map ECS.id (ECS.entities (ECS.destroyEntity g e)))).
  { intro H. apply in_map_iff in H. destruct H as (e0 & Hid & Hin).
    apply destroyEntity_In in Hin. tauto. }
  split; [reflexivity|]. split; [exact Hgone|]. split.
  - unfold ECS.destroyEntity at 1. unfold ECS.with_entities.
    rewrite (Hnone _ Hgone). reflexivity.
  - intro H. unfold ECS.destroyEntity, ECS.with_entities. rewrite (Hnone _ H).
    destruct g; reflexivity.
Qed.

(** [findAllWith]: with no component asked for it returns the whole store;
    asking for more components filters the answer for fewer; and an entity
    is returned exactly when it is stored and has every component asked
    for. *)
Theorem findAllWith_filters (g : ECS.Game) (cs cs' : list ECS.CName) (e : ECS.Entity) :
  ECS.findAllWith g [] = ECS.entities g
  /\ ECS.findAllWith g (cs ++ cs')
     = filter (fun e0 => forallb (ECS.has e0) cs') (ECS.findAllWith g cs)
  /\ (In e (ECS.findAllWith g cs)
      <-> In e (ECS.entities g) /\ forall c, In c cs -> ECS.has e c = true).
Proof.
  split; [|split].
  - unfold ECS.findAllWith. simpl. induction (ECS.entities g); simpl; congruence.
  - unfold ECS.findAllWith. induction (ECS.entities g) as [|a l IH]; [reflexivity|].
    cbn [filter]. rewrite forallb_app.
    destruct (forallb (ECS.has a) cs); cbn [andb filter]; [|exact IH].
    destruct (forallb (ECS.has a) cs'); now rewrite IH.
  - rewrite findAllWith_In, forallb_forall. tauto.
Qed.

(** Closes linear and simple non-linear goals over canonical rationals. *)
Ltac qc_arith :=
  unfold in_unit, GAME_WIDTH, GAME_HEIGHT, PLAYER_SIZE, PLAYER_SPEED, BULLET_SIZE,
         BULLET_SPEED, ENEMY_SIZE, ENEMY_SPEED in *;
  qc_to_q;
  repeat match goal with H : _ /\ _ |- _ => destruct H end;
  repeat match goal with
         | |- context [Qinv (Qmake ?n ?d)] =>
             let v := eval vm_compute in (Qinv (Qmake n d)) in
             change (Qinv (Qmake n d)) with v
         end;
  repeat split; first [lra | nra].

(** ** reset and the star field *)

(** [reset(skipScore)] lays the store out afresh: the player is entity 1, the
    input entity 2 with every key released and the pointer inactive, the stars
    3 to 52, the next id 53, and the fire clock is set to the time of the
    reset.  [reset(true)] leaves the phase as it was. *)
Theorem reset_store_layout (g : ECS.Game) (skipScore : bool) (ro : ECS.ResetOracle) :
  ECS.entities (ECS.reset g skipScore ro)
  = ECS.newPlayer 1 :: ECS.newInput 2
    :: map (fun k => ECS.newStar ro k (Z.of_nat k + 3)) (seq 0 STAR_COUNT)
  /\ ECS.nextId (ECS.reset g skipScore ro) = 53%Z
  /\ ECS.lastFireTime (ECS.reset g skipScore ro) = ECS.reset_now ro
  /\ ECSSpec.current_input (ECS.reset g skipScore ro) = Some ECS.initialInput
  /\ ECS.gameState (ECS.reset g skipScore ro)
     = (if skipScore then ECS.gameState g else playing).
Proof. repeat split. Qed.




(** ** Stars are recycled, enemies are spawned, bullets are fired *)









(** The spawn system adds at most one enemy, and only on a roll below 1.5%:
    it appears 16 units above the top edge falling at 1.5 per frame.  In the
    ECS version its centre is at least half its size away from both side
    edges; in the flat version the centre may sit on the left edge. *)
Theorem spawned_enemy_position (g : ECS.Game) (o : ECS.Oracle) (fo : Flat.Oracle) :
  ECSSpec.ids_ok g -> in_unit (ECS.spawn_x o) -> in_unit (Flat.spawn_x fo) ->
  (if Qltb (ECS.spawn_roll o) ENEMY_SPAWN_RATE
   then exists e pos,
       ECS.entities (ECS.system_EnemySpawn g o) = ECS.entities g ++ [e]
       /\ ECS.id e = ECS.nextId g /\ ECS.enemy e = Some ECS.basic
       /\ ECS.position e = Some pos
       /\ (ENEMY_SIZE / 2 <= x pos /\ x pos < GAME_WIDTH - ENEMY_SIZE / 2)
       /\ y pos = - ENEMY_SIZE
       /\ ECS.velocity e = Some (createVector2 0 ENEMY_SPEED)
   else ECS.system_EnemySpawn g o = g)
  /\ ((0 <= x (Flat.position (Flat.enemy_base (Flat.newEnemy fo)))
       /\ x (Flat.position (Flat.enemy_base (Flat.newEnemy fo))) < GAME_WIDTH - ENEMY_SIZE)
      /\ y (Flat.position (Flat.enemy_base (Flat.newEnemy fo))) = - ENEMY_SIZE).
Proof.
  intros Hok He Hf. split.
  - unfold ECS.system_EnemySpawn. destruct (Qltb _ _); [|reflexivity].
    eexists. eexists. split; [now apply createEntity_entities|].
    cbn [ECS.newEnemy ECS.id ECS.enemy ECS.position ECS.velocity x y].
    repeat (split; [reflexivity|]). split; [|split; reflexivity].
    unfold ENEMY_SIZE in *. qc_arith.
  - cbn [Flat.newEnemy Flat.position Flat.enemy_base x y]. split; [|reflexivity].
    unfold ENEMY_SIZE in *. qc_arith.
Qed.

Lemma ecs_over_ids_ok : ECSSpec.ids_ok Examples.ecs_over.
Proof.
  split.
  - simpl. constructor; [simpl; intros [H|[]]; discriminate|].
    constructor; [simpl; tauto | constructor].
  - repeat constructor.
Qed.

Lemma spawned_enemy_position_witness :
  ECSSpec.ids_ok Examples.ecs_over
  /\ in_unit (ECS.spawn_x (Examples.ecs_spawn 16 (Q2Qc 160)))
  /\ in_unit (Flat.spawn_x (Examples.flat_spawn 16 (Q2Qc 160)))
  /\ y (Flat.position (Flat.enemy_base (Flat.newEnemy (Examples.flat_spawn 16 (Q2Qc 160)))))
     = - ENEMY_SIZE.
Proof.
  assert (H1 : in_unit (ECS.spawn_x (Examples.ecs_spawn 16 (Q2Qc 160))))
    by (split; vm_compute; [discriminate | reflexivity]).
  assert (H2 : in_unit (Flat.spawn_x (Examples.flat_spawn 16 (Q2Qc 160))))
    by (split; vm_compute; [discriminate | reflexivity]).
  split; [exact ecs_over_ids_ok|]. split; [exact H1|]. split; [exact H2|].
  apply (spawned_enemy_position Examples.ecs_over (Examples.ecs_spawn 16 (Q2Qc 160))
                                (Examples.flat_spawn 16 (Q2Qc 160))
                                ecs_over_ids_ok H1 H2).
Defined.

Lemma players_have_position (g : ECS.Game) :
  ECSSpec.store_ok g ->
  ECS.findAllWith g [ECS.C_PLAYER; ECS.C_POSITION]
  = filter ECSSpec.is_player (ECS.entities g).
Proof.
  intros (_ & Hshape & _). unfold ECS.findAllWith. apply filter_ext_in.
  intros e Hin. rewrite Forall_forall in Hshape. specialize (Hshape e Hin).
  cbn [forallb ECS.has]. unfold ECSSpec.is_player, ECS.has.
  destruct (ECS.player e) eqn:Ep; [|reflexivity].
  destruct Hshape as ([pos Epos] & _); [rewrite Ep; discriminate|]. now rewrite Epos.
Qed.

(** The converse of the cooldown gate: in a well-formed store, with the shoot
    intent set and more than 120 ms since the last shot, the shooting system
    does fire.  One entity is appended: a bullet at the player's position,
    moving up at 7 per frame, of size 4, with 3000 ms to live; the fire clock
    is set to now. *)
Theorem shot_is_fired_when_ready (g : ECS.Game) (o : ECS.Oracle) (inp : Input) :
  ECSSpec.store_ok g -> ECSSpec.current_input g = Some inp -> shoot inp = true ->
  (BULLET_FIRE_RATE < ECS.now o - ECS.lastFireTime g)%Z ->
  exists p ppos b,
    filter ECSSpec.is_player (ECS.entities g) = [p]
    /\ ECS.position p = Some ppos
    /\ ECS.entities (ECS.system_Shooting g o) = ECS.entities g ++ [b]
    /\ ECS.id b = ECS.nextId g
    /\ ECS.position b = Some ppos
    /\ ECS.velocity b = Some (createVector2 0 (- BULLET_SPEED))
    /\ option_map ECS.size (ECS.render b) = Some BULLET_SIZE
    /\ ECS.lifetime b = Some 3000%Z
    /\ ECS.bullet b <> None
    /\ ECS.lastFireTime (ECS.system_Shooting g o) = ECS.now o
    /\ ECS.nextId (ECS.system_Shooting g o) = (ECS.nextId g + 1)%Z.
Proof.
  intros Hok Hi Hs Ht.
  pose proof (players_have_position g Hok) as Hpl.
  destruct Hok as (Hids & Hshape & Hone).
  destruct (filter ECSSpec.is_player (ECS.entities g)) as [|p [|q rest]] eqn:Ef;
    try discriminate.
  assert (Hp : In p (ECS.entities g) /\ ECSSpec.is_player p = true).
  { apply filter_In. rewrite Ef. now left. }
  destruct Hp as [Hp1 Hp2]. rewrite Forall_forall in Hshape.
  destruct (Hshape p Hp1) as ([ppos Epos] & _).
  { unfold ECSSpec.is_player, ECS.has in Hp2. destruct (ECS.player p); discriminate. }
  exists p, ppos, (ECS.newBullet ppos (ECS.nextId g)).
  assert (E : ECS.system_Shooting g o
              = ECS.with_lastFireTime (ECS.createEntity g (ECS.newBullet ppos)) (ECS.now o)).
  { unfold ECS.system_Shooting. unfold ECSSpec.current_input in Hi.
    destruct (ECS.findAllWith g [ECS.C_INPUT]) as [|ie ?]; [discriminate|].
    rewrite Hi, Hpl, Hs, Epos. apply Z.ltb_lt in Ht. now rewrite Ht. }
  rewrite E. cbn [ECS.with_lastFireTime ECS.entities ECS.lastFireTime ECS.nextId].
  split; [reflexivity|]. split; [exact Epos|].
  split; [exact (createEntity_entities g (ECS.newBullet ppos) Hids eq_refl)|].
  cbn. destruct ppos. repeat split. discriminate.
Qed.

Lemma reset_is_store_ok : ECSSpec.store_ok (ECS.new_Game (Examples.ecs_stars0 0)).
Proof. apply store_ok_reset. Qed.

Lemma shot_is_fired_when_ready_witness :
  ECSSpec.store_ok (ECS.setInput (ECS.new_Game (Examples.ecs_stars0 0)) Examples.press_shoot)
  /\ (BULLET_FIRE_RATE
      < ECS.now (Examples.ecs_quiet 200)
        - ECS.lastFireTime (ECS.setInput (ECS.new_Game (Examples.ecs_stars0 0))
                                         Examples.press_shoot))%Z
  /\ exists p ppos b,
      filter ECSSpec.is_player
             (ECS.entities (ECS.setInput (ECS.new_Game (Examples.ecs_stars0 0))
                                         Examples.press_shoot)) = [p]
      /\ ECS.position p = Some ppos
      /\ ECS.entities (ECS.system_Shooting
                         (ECS.setInput (ECS.new_Game (Examples.ecs_stars0 0))
                                       Examples.press_shoot) (Examples.ecs_quiet 200))
         = ECS.entities (ECS.setInput (ECS.new_Game (Examples.ecs_stars0 0))
                                      Examples.press_shoot) ++ [b].
Proof.
  assert (Hok : ECSSpec.store_ok
                  (ECS.setInput (ECS.new_Game (Examples.ecs_stars0 0)) Examples.press_shoot))
    by (apply store_ok_setInput, reset_is_store_ok).
  assert (Ht : (BULLET_FIRE_RATE
                < ECS.now (Examples.ecs_quiet 200)
                  - ECS.lastFireTime (ECS.setInput (ECS.new_Game (Examples.ecs_stars0 0))
                                                   Examples.press_shoot))%Z)
    by (vm_compute; reflexivity).
  split; [exact Hok|]. split; [exact Ht|].
  destruct (shot_is_fired_when_ready
              (ECS.setInput (ECS.new_Game (Examples.ecs_stars0 0)) Examples.press_shoot)
              (Examples.ecs_quiet 200)
              (mkInput false false false false true false
                       (createVector2 (GAME_WIDTH / 2) (GAME_HEIGHT - 60)))
              Hok eq_refl eq_refl Ht)
    as (p & ppos & b & H1 & H2 & H3 & _).
  exists p, ppos, b. auto.
Defined.

Lemma quiet_run_keeps_clock (sqrt : Qc -> Qc) (frames : list ECS.Frame) :
  forall g,
    Forall (fun f => (ECS.now (ECS.f_oracle f) <= ECS.lastFireTime g + BULLET_FIRE_RATE)%Z)
           frames ->
    ECS.fire_times sqrt g frames = []
    /\ ECS.lastFireTime (ECS.run sqrt g frames) = ECS.lastFireTime g.
Proof.
  induction frames as [|f rest IH]; intros g Hall; [split; reflexivity|].
  inversion Hall as [|? ? Hf Hrest]; subst.
  assert (E : ECS.lastFireTime (ECS.step sqrt g f) = ECS.lastFireTime g).
  { unfold ECS.step.
    destruct (tick_clock_cases sqrt (ECS.setInput g (ECS.f_input f)) (ECS.f_dt f)
                               (ECS.f_oracle f)) as [H | (_ & _ & Ht & _)].
    - now rewrite setInput_lastFireTime in H.
    - rewrite setInput_lastFireTime in Ht. lia. }
  cbn [ECS.fire_times ECS.run fold_left]. cbv zeta. rewrite E, Z.eqb_refl.
  rewrite <- E in Hrest. destruct (IH _ Hrest) as [H1 H2].
  split; [exact H1|]. unfold ECS.run in H2. now rewrite H2.
Qed.

Lemma reset_no_bullets (g : ECS.Game) (skipScore : bool) (ro : ECS.ResetOracle) :
  ECS.findAllWith (ECS.reset g skipScore ro) [ECS.C_BULLET] = [].
Proof.
  unfold ECS.findAllWith. rewrite reset_entities.
  rewrite filter_skip by reflexivity. rewrite filter_skip by reflexivity.
  generalize (seq 0 STAR_COUNT). intro l.
  induction l as [|k l IH]; [reflexivity|].
  cbn [map]. rewrite filter_skip by reflexivity. exact IH.
Qed.

(** [reset] starts the cooldown: it sets the fire clock to the time of the
    reset and leaves no bullet in the store, so a run of frames whose clocks
    are all within 120 ms of it records no fire time and stores no bullet,
    however the input is written in between. *)
Theorem no_shot_right_after_reset (sqrt : Qc -> Qc) (g : ECS.Game) (skipScore : bool)
        (ro : ECS.ResetOracle) (frames : list ECS.Frame) :
  Forall (fun f => (ECS.now (ECS.f_oracle f) <= ECS.reset_now ro + 120)%Z) frames ->
  ECS.fire_times sqrt (ECS.reset g skipScore ro) frames = []
  /\ ECS.lastFireTime (ECS.run sqrt (ECS.reset g skipScore ro) frames) = ECS.reset_now ro
  /\ ECS.findAllWith (ECS.run sqrt (ECS.reset g skipScore ro) frames) [ECS.C_BULLET] = [].
Proof.
  intro Hall.
  rewrite <- (reset_lastFireTime g skipScore ro) in *.
  destruct (quiet_run_keeps_clock sqrt frames _ Hall) as [H1 H2].
  split; [exact H1|]. split; [exact H2|].
  apply quiet_run_no_bullets; [apply reset_no_bullets | exact Hall].
Qed.

Lemma no_shot_right_after_reset_witness :
  Forall (fun f => (ECS.now (ECS.f_oracle f) <= ECS.reset_now (Examples.ecs_stars0 1000) + 120)%Z)
         (firstn 7 Examples.ecs_hold_16ms)
  /\ ECS.fire_times sqrt_fix (ECS.reset Examples.ecs_over false (Examples.ecs_stars0 1000))
                    (firstn 7 Examples.ecs_hold_16ms) = []
  /\ ECS.findAllWith
       (ECS.run sqrt_fix (ECS.reset Examples.ecs_over false (Examples.ecs_stars0 1000))
                (firstn 7 Examples.ecs_hold_16ms)) [ECS.C_BULLET] = []
  /\ List.length
       (ECS.findAllWith
          (ECS.run sqrt_fix (ECS.reset Examples.ecs_over false (Examples.ecs_stars0 1000))
                   (firstn 8 Examples.ecs_hold_16ms)) [ECS.C_BULLET]) = 1%nat.
Proof.
  assert (H : Forall (fun f => (ECS.now (ECS.f_oracle f)
                                <= ECS.reset_now (Examples.ecs_stars0 1000) + 120)%Z)
                     (firstn 7 Examples.ecs_hold_16ms))
    by (repeat constructor; vm_compute; discriminate).
  split; [exact H|].
  destruct (no_shot_right_after_reset sqrt_fix Examples.ecs_over false
                                      (Examples.ecs_stars0 1000) _ H) as (H1 & _ & H3).
  split; [exact H1|]. split; [exact H3|]. vm_compute. reflexivity.
Defined.

(** ** Cleanup and collisions in closed form *)

Lemma cond_destroy_entities (c : ECS.Entity -> bool) (l : list ECS.Entity) :
  forall g,
    ECS.entities (fold_left (fun g d => if c d then ECS.destroyEntity g d else g) l g)
    = filter (fun e => negb (existsb (fun d => c d && (ECS.id e =? ECS.id d)%Z) l))
             (ECS.entities g).
Proof.
  induction l as [|d l IH]; intro g; cbn [fold_left existsb].
  - induction (ECS.entities g) as [|a es IHes]; simpl in *; congruence.
  - rewrite IH. destruct (c d); cbn [andb orb].
    + cbn [ECS.destroyEntity ECS.with_entities ECS.entities].
      induction (ECS.entities g) as [|a es IHes]; [reflexivity|].
      cbn [filter]. destruct (ECS.id a =? ECS.id d)%Z; cbn [negb orb filter].
      * exact IHes.
      * now rewrite IHes.
    + reflexivity.
Qed.

Lemma filter_twice {A : Type} (f : A -> bool) (l : list A) :
  filter f (filter f l) = filter f l.
Proof.
  induction l as [|a l IH]; [reflexivity|]. cbn [filter].
  destruct (f a) eqn:E; [|exact IH]. cbn [filter]. now rewrite E, IH.
Qed.

(** On a store with unique ids the cleanup removes exactly the bullets and
    enemies that lie beyond their margin, keeps everything else in order,
    and running it again changes nothing. *)
Theorem cleanup_removes_exactly_strays (g : ECS.Game) :
  ECSSpec.ids_ok g ->
  ECS.entities (ECS.system_Cleanup g)
  = filter (fun e => negb (ECS.out_of_bounds e)) (ECS.entities g)
  /\ ECS.entities (ECS.system_Cleanup (ECS.system_Cleanup g))
     = ECS.entities (ECS.system_Cleanup g)
  /\ (forall e, In e (ECS.entities g) ->
                ECS.has e ECS.C_BULLET || ECS.has e ECS.C_ENEMY = false ->
                In e (ECS.entities (ECS.system_Cleanup g))).
Proof.
  intros (Hnd & _).
  assert (H1 : forall g0, NoDup (map ECS.id (ECS.entities g0)) ->
                          ECS.entities (ECS.system_Cleanup g0)
                          = filter (fun e => negb (ECS.out_of_bounds e)) (ECS.entities g0)).
  { intros g0 Hnd0. unfold ECS.system_Cleanup. rewrite cond_destroy_entities.
    apply filter_ext_in. intros e He. f_equal.
    destruct (ECS.out_of_bounds e) eqn:Eo.
    - apply existsb_exists. exists e. rewrite Eo, Z.eqb_refl. auto.
    - destruct (existsb _ _) eqn:Ex; [|reflexivity].
      apply existsb_exists in Ex. destruct Ex as (d & Hd & Hc).
      apply andb_prop in Hc. destruct Hc as [Hc Hid]. apply Z.eqb_eq in Hid.
      rewrite (NoDup_ids_inj _ _ _ Hnd0 He Hd Hid) in Eo. congruence. }
  rewrite (H1 g Hnd). split; [reflexivity|]. split.
  - rewrite H1.
    + rewrite H1 by exact Hnd. apply filter_twice.
    + rewrite H1 by exact Hnd. now apply NoDup_ids_filter.
  - intros e He Hk. apply filter_In. split; [exact He|].
    unfold ECS.out_of_bounds. now rewrite Hk.
Qed.

Lemma cleanup_removes_exactly_strays_witness :
  ECSSpec.ids_ok Examples.ecs_over
  /\ ECS.entities (ECS.system_Cleanup Examples.ecs_over)
     = filter (fun e => negb (ECS.out_of_bounds e)) (ECS.entities Examples.ecs_over).
Proof.
  split; [exact ecs_over_ids_ok|].
  apply (cleanup_removes_exactly_strays Examples.ecs_over ecs_over_ids_ok).
Defined.

Lemma lose_hp_scalars (g : ECS.Game) :
  (0 <= ECS.hp g)%Z ->
  (ECS.hp (ECS.lose_hp g), ECS.gameState (ECS.lose_hp g))
  = ECSMore.after_hits 1 (ECS.hp g) (ECS.gameState g).
Proof.
  intro H. unfold ECS.lose_hp, ECSMore.after_hits.
  change (Z.of_nat 1) with 1%Z. change (0 <? 1)%Z with true. cbn [andb].
  destruct (Z.leb_spec (ECS.hp g - 1) 0); cbn [ECS.hp ECS.gameState]; f_equal; lia.
Qed.

Lemma after_hits_add (j k : nat) (h : Z) (st : Phase) :
  (0 <= h)%Z ->
  ECSMore.after_hits k (fst (ECSMore.after_hits j h st)) (snd (ECSMore.after_hits j h st))
  = ECSMore.after_hits (j + k) h st.
Proof.
  intro H. unfold ECSMore.after_hits. cbn [fst snd]. rewrite Nat2Z.inj_add.
  f_equal; [lia|].
  destruct (Z.ltb_spec 0 (Z.of_nat k)), (Z.ltb_spec 0 (Z.of_nat j)),
    (Z.ltb_spec 0 (Z.of_nat j + Z.of_nat k)),
    (Z.leb_spec (h - Z.of_nat j) 0),
    (Z.leb_spec (Z.max 0 (h - Z.of_nat j) - Z.of_nat k) 0),
    (Z.leb_spec (h - (Z.of_nat j + Z.of_nat k)) 0);
    cbn [andb]; try reflexivity; lia.
Qed.

Lemma after_hits_zero (h : Z) (st : Phase) :
  (0 <= h)%Z -> ECSMore.after_hits 0 h st = (h, st).
Proof. intro H. unfold ECSMore.after_hits. cbn. f_equal. lia. Qed.

Lemma after_hits_nonneg (k : nat) (h : Z) (st : Phase) :
  (0 <= fst (ECSMore.after_hits k h st))%Z.
Proof. unfold ECSMore.after_hits. cbn [fst]. lia. Qed.

Lemma enemy_vs_players_scalars (sqrt : Qc -> Qc) (enemy : ECS.Entity)
      (players : list ECS.Entity) :
  forall g,
    (0 <= ECS.hp g)%Z ->
    let g' := ECS.enemy_vs_players sqrt players g enemy in
    (ECS.hp g', ECS.gameState g')
    = ECSMore.after_hits (List.length (filter (ECS.overlap sqrt enemy) players))
                         (ECS.hp g) (ECS.gameState g).
Proof.
  unfold ECS.enemy_vs_players.
  induction players as [|p ps IH]; intros g H; cbn [fold_left filter List.length].
  - now rewrite after_hits_zero.
  - cbv zeta in IH. destruct (ECS.overlap sqrt enemy p).
    + pose proof (lose_hp_scalars (ECS.destroyEntity g enemy) H) as E.
      change (ECS.hp (ECS.destroyEntity g enemy)) with (ECS.hp g) in E.
      change (ECS.gameState (ECS.destroyEntity g enemy)) with (ECS.gameState g) in E.
      assert (E1 : ECS.hp (ECS.lose_hp (ECS.destroyEntity g enemy))
                   = fst (ECSMore.after_hits 1 (ECS.hp g) (ECS.gameState g)))
        by now rewrite <- E.
      assert (E2 : ECS.gameState (ECS.lose_hp (ECS.destroyEntity g enemy))
                   = snd (ECSMore.after_hits 1 (ECS.hp g) (ECS.gameState g)))
        by now rewrite <- E.
      rewrite IH.
      * rewrite E1, E2. cbn [List.length].
        exact (after_hits_add 1 (List.length (filter (ECS.overlap sqrt enemy) ps))
                              (ECS.hp g) (ECS.gameState g) H).
      * rewrite E1. apply after_hits_nonneg.
    + now apply IH.
Qed.

Lemma filter_pair_row {A B : Type} (f : A -> B -> bool) (a : A) (l' : list B) :
  List.length (filter (fun ab => f (fst ab) (snd ab)) (map (fun y => (a, y)) l'))
  = List.length (filter (f a) l').
Proof.
  induction l' as [|b l' IH]; [reflexivity|].
  simpl. destruct (f a b); simpl; now rewrite IH.
Qed.

Lemma filter_list_prod_length {A B : Type} (f : A -> B -> bool) (l : list A) (l' : list B) :
  List.length (filter (fun ab => f (fst ab) (snd ab)) (list_prod l l'))
  = list_sum (map (fun a => List.length (filter (f a) l')) l).
Proof.
  induction l as [|a l IH]; [reflexivity|].
  cbn [list_prod map list_sum].
  now rewrite filter_app, length_app, IH, filter_pair_row.
Qed.

(** The player pass in closed form.  From a non-negative [hp], after the
    pass [hp] is [max 0 (hp - k)], where [k] counts the overlapping
    (enemy, player) pairs of the snapshot, and the phase turns to gameOver
    exactly when [k > 0] and [hp - k <= 0]; the bullet pass then changes
    neither. *)
Theorem collision_costs_one_hp_per_hit (sqrt : Qc -> Qc) (g : ECS.Game) :
  (0 <= ECS.hp g)%Z ->
  let k := ECSMore.player_hits sqrt
             (ECS.findAllWith g [ECS.C_PLAYER; ECS.C_POSITION; ECS.C_RENDER])
             (ECS.findAllWith g [ECS.C_ENEMY; ECS.C_POSITION; ECS.C_RENDER]) in
  ECS.hp (ECS.system_Collision sqrt g) = Z.max 0 (ECS.hp g - Z.of_nat k)
  /\ ECS.gameState (ECS.system_Collision sqrt g)
     = (if (0 <? Z.of_nat k)%Z && (ECS.hp g - Z.of_nat k <=? 0)%Z
        then gameOver else ECS.gameState g).
Proof.
  intro H. cbv zeta. unfold ECS.system_Collision, ECSMore.player_hits.
  set (players := ECS.findAllWith g [ECS.C_PLAYER; ECS.C_POSITION; ECS.C_RENDER]).
  set (enemies := ECS.findAllWith g [ECS.C_ENEMY; ECS.C_POSITION; ECS.C_RENDER]).
  set (bullets := ECS.findAllWith g [ECS.C_BULLET; ECS.C_POSITION; ECS.C_RENDER]).
  rewrite (filter_list_prod_length (ECS.overlap sqrt)).
  assert (Hp : forall es g0, (0 <= ECS.hp g0)%Z ->
             (ECS.hp (fold_left (ECS.enemy_vs_players sqrt players) es g0),
              ECS.gameState (fold_left (ECS.enemy_vs_players sqrt players) es g0))
             = ECSMore.after_hits
                 (list_sum (map (fun e => List.length (filter (ECS.overlap sqrt e) players)) es))
                 (ECS.hp g0) (ECS.gameState g0)).
  { induction es as [|e es IH]; intros g0 H0; cbn [fold_left map list_sum].
    - now rewrite after_hits_zero.
    - pose proof (enemy_vs_players_scalars sqrt e players g0 H0) as E. cbv zeta in E.
      assert (E1 : ECS.hp (ECS.enemy_vs_players sqrt players g0 e)
                   = fst (ECSMore.after_hits
                            (List.length (filter (ECS.overlap sqrt e) players))
                            (ECS.hp g0) (ECS.gameState g0)))
        by now rewrite <- E.
      assert (E2 : ECS.gameState (ECS.enemy_vs_players sqrt players g0 e)
                   = snd (ECSMore.after_hits
                            (List.length (filter (ECS.overlap sqrt e) players))
                            (ECS.hp g0) (ECS.gameState g0)))
        by now rewrite <- E.
      rewrite IH.
      + rewrite E1, E2. now apply after_hits_add.
      + rewrite E1. apply after_hits_nonneg. }
  assert (Hb : forall g0,
             ECS.hp (fold_left (ECS.bullet_vs_enemies sqrt enemies) bullets g0) = ECS.hp g0
             /\ ECS.gameState (fold_left (ECS.bullet_vs_enemies sqrt enemies) bullets g0)
                = ECS.gameState g0).
  { intro g0.
    apply (bullet_pass_invariant sqrt
             (fun g' => ECS.hp g' = ECS.hp g0 /\ ECS.gameState g' = ECS.gameState g0));
      auto. }
  destruct (Hb (fold_left (ECS.enemy_vs_players sqrt players) enemies g)) as [-> ->].
  specialize (Hp enemies g H). unfold ECSMore.after_hits in Hp.
  injection Hp as -> ->. split; reflexivity.
Qed.

Lemma collision_costs_one_hp_per_hit_witness :
  (0 <= ECS.hp Examples.ecs_over)%Z
  /\ ECS.hp (ECS.system_Collision sqrt_fix Examples.ecs_over) = 0%Z.
Proof.
  split; [discriminate|].
  destruct (collision_costs_one_hp_per_hit sqrt_fix Examples.ecs_over) as [H _];
    [discriminate|].
  rewrite H. reflexivity.
Defined.

(** The flat player pass in closed form: every enemy overlapping the player
    is removed, [hp] drops by their number [k] with no floor, and the phase
    turns to gameOver exactly when [k > 0] and [hp - k <= 0]. *)
Theorem flat_player_pass_closed_form (sqrt : Qc -> Qc) (p : Flat.Player)
        (es : list Flat.Enemy) (h : Z) (st : Phase) :
  let hit := fun e : Flat.Enemy =>
               Flat.isColliding sqrt (Flat.player_base p) (Flat.enemy_base e) in
  let k := Z.of_nat (List.length (filter hit es)) in
  Flat.player_pass sqrt p es h st
  = (filter (fun e => negb (hit e)) es, (h - k)%Z,
     if (0 <? k)%Z && (h - k <=? 0)%Z then gameOver else st).
Proof.
  cbv zeta. revert h st.
  induction es as [|e rest IH]; intros h st; cbn [Flat.player_pass filter List.length].
  - cbn. do 2 f_equal. lia.
  - destruct (Flat.isColliding sqrt (Flat.player_base p) (Flat.enemy_base e)).
    + rewrite IH. cbn [negb List.length]. rewrite Nat2Z.inj_succ.
      set (k := Z.of_nat (List.length _)).
      f_equal; [f_equal; lia|].
      destruct (Z.ltb_spec 0 k), (Z.ltb_spec 0 (Z.succ k)),
        (Z.leb_spec (h - 1 - k) 0), (Z.leb_spec (h - Z.succ k) 0),
        (Z.leb_spec (h - 1) 0); cbn [andb]; try reflexivity; lia.
    + rewrite IH. reflexivity.
Qed.

(** The flat bullet pass on one bullet: a player's bullet removes every enemy
    it overlaps and scores 100 for each, and disappears if there was one; an
    enemy's bullet removes and scores nothing. *)
Theorem flat_bullet_takes_every_overlap (sqrt : Qc -> Qc) (b : Flat.Bullet)
        (es : list Flat.Enemy) (sc : Z) :
  let hit := fun e : Flat.Enemy =>
               Flat.isColliding sqrt (Flat.bullet_base b) (Flat.enemy_base e) in
  Flat.bullets_pass sqrt [b] es sc
  = match Flat.owner b with
    | Flat.owner_player =>
        (if existsb hit es then [] else [b],
         filter (fun e => negb (hit e)) es,
         (sc + 100 * Z.of_nat (List.length (filter hit es)))%Z)
    | Flat.owner_enemy => ([b], es, sc)
    end.
Proof.
  cbv zeta. cbn [Flat.bullets_pass]. destruct (Flat.owner b); [|reflexivity].
  rewrite hit_enemies_eq. reflexivity.
Qed.

(** ** The heads-up display *)

Lemma no_hearts_flat_map {A : Type} (f : A -> list DrawOp) (l : list A) :
  (forall a, filter is_heart (f a) = []) -> filter is_heart (flat_map f l) = [].
Proof.
  intro H. induction l as [|a l IH]; [reflexivity|].
  cbn [flat_map]. now rewrite filter_app, H, IH.
Qed.

Lemma no_hearts_map {A : Type} (f : A -> DrawOp) (l : list A) :
  (forall a, is_heart (f a) = false) -> filter is_heart (map f l) = [].
Proof.
  intro H. induction l as [|a l IH]; [reflexivity|].
  cbn [map filter]. now rewrite H, IH.
Qed.

Lemma hearts_are_hearts (filled : bool) (from upto : Z) :
  filter is_heart (hearts filled from upto) = hearts filled from upto.
Proof.
  unfold hearts. induction (seq 0 (Z.to_nat (upto - from))) as [|k l IH]; [reflexivity|].
  cbn [map filter is_heart]. now rewrite IH.
Qed.

Lemma three_hearts (h : Z) :
  (0 <= h <= 3)%Z ->
  hearts true 0 h ++ hearts false h 3
  = map (fun i => DrawHeart (i <? h)%Z i) [0; 1; 2]%Z.
Proof.
  intro H. assert (E : (h = 0 \/ h = 1 \/ h = 2 \/ h = 3)%Z) by lia.
  destruct E as [-> | [-> | [-> | ->]]]; reflexivity.
Qed.

(** With [0 <= hp <= 3] a frame paints exactly three hearts, in slots 0, 1
    and 2, the first [hp] of them filled: always so in the entity-component
    version, and in the flat version as long as [hp] has not gone below 0. *)
Theorem hud_shows_three_hearts (sqrt : Qc -> Qc) (g : ECS.Game) (gf : Flat.Game) :
  ECS.reachable sqrt g -> (0 <= Flat.hp gf <= 3)%Z ->
  filter is_heart (ECS.system_Render g)
  = map (fun i => DrawHeart (i <? ECS.hp g)%Z i) [0; 1; 2]%Z
  /\ filter is_heart (Flat.render gf)
     = map (fun i => DrawHeart (i <? Flat.hp gf)%Z i) [0; 1; 2]%Z.
Proof.
  intros Hr Hf. destruct (reachable_hp_ok sqrt g Hr) as [Hh _]. split.
  - unfold ECS.system_Render, ECS.draw_all. rewrite !filter_app, !hearts_are_hearts.
    rewrite !no_hearts_flat_map.
    + cbn [filter is_heart app].
      destruct (Phase_eqb (ECS.gameState g) gameOver); cbn [filter is_heart];
        rewrite app_nil_r; now apply three_hearts.
    + intro e. destruct (ECS.position e), (ECS.render e); reflexivity.
    + intro e. destruct (ECS.position e), (ECS.render e); reflexivity.
    + intro e. destruct (ECS.position e), (ECS.render e), (ECS.velocity e);
        try reflexivity.
      destruct (_ || _); reflexivity.
    + intro e. destruct (ECS.position e), (ECS.render e), (ECS.star e); reflexivity.
  - unfold Flat.render. cbv zeta. rewrite !filter_app, !hearts_are_hearts.
    rewrite !no_hearts_map by reflexivity.
    destruct (Flat.active (Flat.player_base (Flat.player gf)));
      [destruct (Qabs_gt _ _ || Qabs_gt _ _)|];
      cbn [filter is_heart app];
      destruct (Phase_eqb (Flat.gameState gf) gameOver); cbn [filter is_heart];
      rewrite app_nil_r; now apply three_hearts.
Qed.

Lemma hud_shows_three_hearts_witness :
  ECS.reachable sqrt_fix (ECS.new_Game (Examples.ecs_stars0 0))
  /\ (0 <= Flat.hp Examples.flat_over <= 3)%Z
  /\ filter is_heart (Flat.render Examples.flat_over)
     = map (fun i => DrawHeart (i <? Flat.hp Examples.flat_over)%Z i) [0; 1; 2]%Z.
Proof.
  split; [constructor|]. split; [split; discriminate|].
  apply (hud_shows_three_hearts sqrt_fix (ECS.new_Game (Examples.ecs_stars0 0))
                                Examples.flat_over);
    [constructor | split; discriminate].
Defined.

(** ** Input: setInput, the keyboard and the pointer *)

Lemma assign_merge (inp : Input) (u1 u2 : ECS.InputUpdates) :
  ECS.assign (ECS.assign inp u1) u2 = ECS.assign inp (ECSMore.merge u1 u2).
Proof.
  destruct u1 as [a1 b1 c1 d1 e1 f1 m1], u2 as [a2 b2 c2 d2 e2 f2 m2].
  unfold ECS.assign, ECSMore.merge. cbn.
  destruct a2, b2, c2, d2, e2, f2, m2; reflexivity.
Qed.

Lemma assign_first_twice (es : list ECS.Entity) (u1 u2 : ECS.InputUpdates) :
  ECS.assign_first (ECS.assign_first es u1) u2
  = ECS.assign_first es (ECSMore.merge u1 u2).
Proof.
  induction es as [|e es IH]; [reflexivity|]. cbn [ECS.assign_first].
  destruct (ECS.input e) as [inp|] eqn:Ei.
  - cbn [ECS.assign_first ECS.with_input ECS.input]. now rewrite assign_merge.
  - cbn [ECS.assign_first]. now rewrite Ei, IH.
Qed.

Lemma head_input_assign_first (es : list ECS.Entity) (u : ECS.InputUpdates) :
  match filter (fun e => forallb (ECS.has e) [ECS.C_INPUT]) (ECS.assign_first es u) with
  | ie :: _ => ECS.input ie
  | [] => None
  end
  = option_map (fun inp => ECS.assign inp u)
      match filter (fun e => forallb (ECS.has e) [ECS.C_INPUT]) es with
      | ie :: _ => ECS.input ie
      | [] => None
      end.
Proof.
  induction es as [|e es IH]; [reflexivity|]. cbn [ECS.assign_first].
  destruct (ECS.input e) as [inp|] eqn:Ei.
  - cbn [filter forallb ECS.has ECS.with_input ECS.input ECS.isSome andb].
    rewrite Ei. cbn [ECS.isSome andb option_map]. now rewrite Ei.
  - cbn [filter forallb ECS.has]. rewrite Ei. cbn [ECS.isSome andb]. exact IH.
Qed.

Lemma current_input_setInput (g : ECS.Game) (u : ECS.InputUpdates) :
  ECSSpec.current_input (ECS.setInput g u)
  = option_map (fun inp => ECS.assign inp u) (ECSSpec.current_input g).
Proof.
  unfold ECSSpec.current_input, ECS.findAllWith, ECS.setInput.
  cbn [ECS.with_entities ECS.entities]. apply head_input_assign_first.
Qed.

Lemma setInput_twice (g : ECS.Game) (u u' : ECS.InputUpdates) :
  ECS.setInput (ECS.setInput g u) u' = ECS.setInput g (ECSMore.merge u u').
Proof.
  unfold ECS.setInput. cbn [ECS.with_entities ECS.entities ECS.nextId ECS.score ECS.hp
                              ECS.gameState ECS.lastFireTime].
  now rewrite assign_first_twice.
Qed.

(** [setInput] is [Object.assign] on the input component of the first entity
    that has one: the fields given are overwritten and the others kept, no
    entity is added, removed or renumbered, two calls are one call with the
    later fields winning, and without an input entity nothing happens. *)
Theorem setInput_is_object_assign (g : ECS.Game) (u u' : ECS.InputUpdates) :
  ECSSpec.current_input (ECS.setInput g u)
  = option_map (fun inp => ECS.assign inp u) (ECSSpec.current_input g)
  /\ map ECS.id (ECS.entities (ECS.setInput g u)) = map ECS.id (ECS.entities g)
  /\ ECS.setInput (ECS.setInput g u) u' = ECS.setInput g (ECSMore.merge u u')
  /\ (ECS.findAllWith g [ECS.C_INPUT] = [] -> ECS.setInput g u = g).
Proof.
  split; [|split; [|split]].
  - apply current_input_setInput.
  - apply (similar_ids _ _ (similar_assign_first (ECS.entities g) u)).
  - apply setInput_twice.
  - unfold ECS.findAllWith, ECS.setInput. intro H.
    assert (E : ECS.assign_first (ECS.entities g) u = ECS.entities g).
    { induction (ECS.entities g) as [|e es IH]; [reflexivity|].
      cbn [filter forallb ECS.has] in H. cbn [ECS.assign_first].
      destruct (ECS.input e); [discriminate|]. cbn [ECS.isSome andb] in H.
      now rewrite IH. }
    unfold ECS.with_entities. rewrite E. destruct g; reflexivity.
Qed.

(** The keyboard handlers: a release undoes the press of the same key
    whatever came between the two on that key, auto-repeat of a pressed key
    changes nothing, each WASD key does what its arrow key does, and the two
    handlers only ever write the key's own flag. *)
Theorem key_release_cancels_press (g : ECS.Game) (code : string) :
  ECSHost.onKeyUp (ECSHost.onKeyDown g code) code = ECSHost.onKeyUp g code
  /\ ECSHost.onKeyDown (ECSHost.onKeyDown g code) code = ECSHost.onKeyDown g code
  /\ ECSHost.onKeyDown (ECSHost.onKeyUp g code) code = ECSHost.onKeyDown g code
  /\ (ECSHost.onKeyDown g "KeyA" = ECSHost.onKeyDown g "ArrowLeft"
      /\ ECSHost.onKeyDown g "KeyD" = ECSHost.onKeyDown g "ArrowRight"
      /\ ECSHost.onKeyDown g "KeyW" = ECSHost.onKeyDown g "ArrowUp"
      /\ ECSHost.onKeyDown g "KeyS" = ECSHost.onKeyDown g "ArrowDown")
  /\ ECSSpec.current_input (ECSHost.onKeyUp (ECSHost.onKeyDown g "Space") "Space")
     = option_map (fun inp => mkInput (left inp) (right inp) (up inp) (down inp) false
                                      (touching inp) (mousePos inp))
                  (ECSSpec.current_input g).
Proof.
  assert (Hm : forall u1 u2, ECS.setInput (ECS.setInput g u1) u2
                             = ECS.setInput g (ECSMore.merge u1 u2)).
  { intros u1 u2. apply setInput_twice. }
  split; [|split; [|split; [|split]]].
  - unfold ECSHost.onKeyUp, ECSHost.onKeyDown.
    destruct (_ || _); [apply Hm|]. destruct (_ || _); [apply Hm|].
    destruct (_ || _); [apply Hm|]. destruct (_ || _); [apply Hm|].
    destruct (ECSHost.is_code code "Space"); [apply Hm | reflexivity].
  - unfold ECSHost.onKeyDown.
    destruct (_ || _); [apply Hm|]. destruct (_ || _); [apply Hm|].
    destruct (_ || _); [apply Hm|]. destruct (_ || _); [apply Hm|].
    destruct (ECSHost.is_code code "Space"); [apply Hm | reflexivity].
  - unfold ECSHost.onKeyUp, ECSHost.onKeyDown.
    destruct (_ || _); [apply Hm|]. destruct (_ || _); [apply Hm|].
    destruct (_ || _); [apply Hm|]. destruct (_ || _); [apply Hm|].
    destruct (ECSHost.is_code code "Space"); [apply Hm | reflexivity].
  - repeat split.
  - change (ECSHost.onKeyUp (ECSHost.onKeyDown g "Space") "Space")
      with (ECS.setInput (ECS.setInput g (ECSHost.only_shoot true))
                         (ECSHost.only_shoot false)).
    rewrite Hm, current_input_setInput. reflexivity.
Qed.

(** A key code outside the nine handled ones is ignored by both handlers. *)
Theorem unknown_key_is_ignored (g : ECS.Game) (code : string) :
  ~ In code ["ArrowLeft"; "KeyA"; "ArrowRight"; "KeyD"; "ArrowUp"; "KeyW";
             "ArrowDown"; "KeyS"; "Space"]%string ->
  ECSHost.onKeyDown g code = g /\ ECSHost.onKeyUp g code = g.
Proof.
  intro H. unfold ECSHost.onKeyDown, ECSHost.onKeyUp, ECSHost.is_code.
  assert (E : forall s, In s ["ArrowLeft"; "KeyA"; "ArrowRight"; "KeyD"; "ArrowUp"; "KeyW";
                              "ArrowDown"; "KeyS"; "Space"]%string ->
                        String.eqb code s = false).
  { intros s Hs. apply String.eqb_neq. intro Heq. apply H. now rewrite Heq. }
  rewrite !E by (simpl; tauto). split; reflexivity.
Qed.

Lemma unknown_key_is_ignored_witness :
  ~ In "Enter"%string
       ["ArrowLeft"; "KeyA"; "ArrowRight"; "KeyD"; "ArrowUp"; "KeyW";
        "ArrowDown"; "KeyS"; "Space"]%string
  /\ ECSHost.onKeyDown Examples.ecs_over "Enter" = Examples.ecs_over.
Proof.
  assert (H : ~ In "Enter"%string
                   ["ArrowLeft"; "KeyA"; "ArrowRight"; "KeyD"; "ArrowUp"; "KeyW";
                    "ArrowDown"; "KeyS"; "Space"]%string).
  { simpl. intros [H|[H|[H|[H|[H|[H|[H|[H|[H|[]]]]]]]]]]; discriminate. }
  split; [exact H|].
  apply (unknown_key_is_ignored Examples.ecs_over "Enter" H).
Defined.

(** ** The pointer *)

Lemma reset_current_input (g : ECS.Game) (skipScore : bool) (ro : ECS.ResetOracle) :
  ECSSpec.current_input (ECS.reset g skipScore ro) = Some ECS.initialInput.
Proof. reflexivity. Qed.

(** A press on the canvas while the game is over restarts it and does
    nothing else, whatever the event was.  In the entity-component version
    the restart is a full reset: the input entity is made afresh, so every
    key is released, the position pressed is not recorded, and the fire
    clock restarts.  In the flat version the restart keeps the input object
    and the fire clock as they were. *)
Theorem pointer_press_restarts_when_over (g : ECS.Game) (gf : Flat.Game)
        (rect : option ECSHost.Rect) (e : ECSHost.PointerEvent)
        (ro : ECS.ResetOracle) (fro : Flat.ResetOracle) :
  ECS.gameState g = gameOver -> Flat.gameState gf = gameOver ->
  (ECSHost.handlePointerStart g rect e ro = ECS.reset g false ro
   /\ ECS.gameState (ECSHost.handlePointerStart g rect e ro) = playing
   /\ ECS.score (ECSHost.handlePointerStart g rect e ro) = 0%Z
   /\ ECS.hp (ECSHost.handlePointerStart g rect e ro) = 3%Z
   /\ ECSSpec.current_input (ECSHost.handlePointerStart g rect e ro) = Some ECS.initialInput
   /\ ECS.lastFireTime (ECSHost.handlePointerStart g rect e ro) = ECS.reset_now ro)
  /\ (FlatHost.handlePointerStart gf rect e fro = Flat.reset gf fro
      /\ Flat.gameState (FlatHost.handlePointerStart gf rect e fro) = playing
      /\ Flat.score (FlatHost.handlePointerStart gf rect e fro) = 0%Z
      /\ Flat.hp (FlatHost.handlePointerStart gf rect e fro) = 3%Z
      /\ Flat.input (FlatHost.handlePointerStart gf rect e fro) = Flat.input gf
      /\ Flat.lastFireTime (FlatHost.handlePointerStart gf rect e fro)
         = Flat.lastFireTime gf).
Proof.
  intros H Hf. split.
  - assert (E : ECSHost.handlePointerStart g rect e ro = ECS.reset g false ro).
    { unfold ECSHost.handlePointerStart, ECSHost.resetGame. now rewrite H. }
    rewrite E. destruct (reset_session g false ro) as (Hs & Hh & Hg).
    split; [reflexivity|]. split; [exact Hg|]. split; [exact Hs|]. split; [exact Hh|].
    split; [apply reset_current_input | apply reset_lastFireTime].
  - assert (E : FlatHost.handlePointerStart gf rect e fro = Flat.reset gf fro).
    { unfold FlatHost.handlePointerStart, FlatHost.resetGame. now rewrite Hf. }
    rewrite E. unfold Flat.reset.
    cbn [Flat.gameState Flat.score Flat.hp Flat.input Flat.lastFireTime].
    repeat split.
Qed.

Lemma pointer_press_restarts_when_over_witness :
  ECS.gameState Examples.ecs_over = gameOver
  /\ Flat.gameState Examples.flat_over = gameOver
  /\ ECS.gameState (ECSHost.handlePointerStart Examples.ecs_over None
                      (ECSHost.TouchEvent []) (Examples.ecs_stars0 1000)) = playing.
Proof.
  split; [reflexivity|]. split; [reflexivity|].
  apply (pointer_press_restarts_when_over Examples.ecs_over Examples.flat_over None
           (ECSHost.TouchEvent []) (Examples.ecs_stars0 1000) Examples.flat_stars0
           eq_refl eq_refl).
Defined.

Lemma flat_event_position (rect : option ECSHost.Rect) (e : ECSHost.PointerEvent) :
  FlatHost.getCanvasCoordinates rect e = ECSHost.event_position rect e.
Proof.
  destruct rect as [r|], e as [cx cy | [| [cx cy] ts]]; reflexivity.
Qed.

(** The handlers of the two versions write the same input.  If the input
    the entity-component systems read equals the flat version's [input]
    object before an event, it does so after it: in either phase for a key
    press or release, a pointer move and a pointer release, and while both
    games are playing for a pointer press.  Both versions take the position
    of an event the same way. *)
Theorem handlers_agree_across_versions (g : ECS.Game) (gf : Flat.Game) (code : string)
        (rect : option ECSHost.Rect) (e : ECSHost.PointerEvent)
        (ro : ECS.ResetOracle) (fro : Flat.ResetOracle) :
  ECSSpec.current_input g = Some (Flat.input gf) ->
  FlatHost.getCanvasCoordinates rect e = ECSHost.event_position rect e
  /\ ECSSpec.current_input (ECSHost.onKeyDown g code)
     = Some (Flat.input (FlatHost.handleKeyDown gf code))
  /\ ECSSpec.current_input (ECSHost.onKeyUp g code)
     = Some (Flat.input (FlatHost.handleKeyUp gf code))
  /\ (ECS.gameState g = playing -> Flat.gameState gf = playing ->
      ECSSpec.current_input (ECSHost.handlePointerStart g rect e ro)
      = Some (Flat.input (FlatHost.handlePointerStart gf rect e fro)))
  /\ ECSSpec.current_input (ECSHost.handlePointerMove g rect e)
     = Some (Flat.input (FlatHost.handlePointerMove gf rect e))
  /\ ECSSpec.current_input (ECSHost.handlePointerEnd g)
     = Some (Flat.input (FlatHost.handlePointerEnd gf)).
Proof.
  intros Hi. split; [apply flat_event_position|].
  split; [|split; [|split; [|split]]].
  - unfold ECSHost.onKeyDown, FlatHost.handleKeyDown.
    repeat (destruct (_ || _); [now rewrite current_input_setInput, Hi|]).
    destruct (ECSHost.is_code code "Space"); [now rewrite current_input_setInput, Hi|].
    exact Hi.
  - unfold ECSHost.onKeyUp, FlatHost.handleKeyUp.
    repeat (destruct (_ || _); [now rewrite current_input_setInput, Hi|]).
    destruct (ECSHost.is_code code "Space"); [now rewrite current_input_setInput, Hi|].
    exact Hi.
  - intros Hg Hf. unfold ECSHost.handlePointerStart, FlatHost.handlePointerStart.
    rewrite Hg, Hf, flat_event_position. cbn [Phase_eqb].
    destruct (ECSHost.event_position rect e);
      [now rewrite current_input_setInput, Hi | exact Hi].
  - unfold ECSHost.handlePointerMove, FlatHost.handlePointerMove.
    rewrite flat_event_position.
    destruct (ECSHost.event_position rect e);
      [now rewrite current_input_setInput, Hi | exact Hi].
  - unfold ECSHost.handlePointerEnd, FlatHost.handlePointerEnd.
    now rewrite current_input_setInput, Hi.
Qed.

Lemma handlers_agree_across_versions_witness :
  ECSSpec.current_input (ECS.mkGame 3 [ECS.newPlayer 1; ECS.newInput 2] 0 3 playing 0)
  = Some (Flat.input (Flat.set_input (Flat.new_Game Examples.flat_stars0) ECS.initialInput))
  /\ ECSSpec.current_input
       (ECSHost.onKeyDown (ECS.mkGame 3 [ECS.newPlayer 1; ECS.newInput 2] 0 3 playing 0) "KeyW")
     = Some (Flat.input
               (FlatHost.handleKeyDown
                  (Flat.set_input (Flat.new_Game Examples.flat_stars0) ECS.initialInput)
                  "KeyW")).
Proof.
  split; [reflexivity|].
  apply (handlers_agree_across_versions
           (ECS.mkGame 3 [ECS.newPlayer 1; ECS.newInput 2] 0 3 playing 0)
           (Flat.set_input (Flat.new_Game Examples.flat_stars0) ECS.initialInput)
           "KeyW" None (ECSHost.TouchEvent []) (Examples.ecs_stars0 0) Examples.flat_stars0
           eq_refl).
Defined.

Lemma event_position_unmounted (e : ECSHost.PointerEvent) :
  ECSHost.event_position None e = None.
Proof. destruct e as [cx cy | [| [cx cy] ts]]; reflexivity. Qed.

(** The pointer while playing.  A press records the position and sets
    [touching] and [shoot]; a move records the position and sets [touching]
    only; a release clears [touching] and [shoot] and keeps the position.
    None of them touches the four direction keys.  A move to the place of
    the press changes nothing, and an event without a position (a touch
    event with no touch, or a canvas that is not mounted) is ignored. *)
Theorem pointer_press_move_release (g : ECS.Game) (rect : option ECSHost.Rect)
        (e : ECSHost.PointerEvent) (ro : ECS.ResetOracle) (pos : Vec2) (inp : Input) :
  ECS.gameState g = playing ->
  ECSHost.event_position rect e = Some pos ->
  ECSSpec.current_input g = Some inp ->
  ECSSpec.current_input (ECSHost.handlePointerStart g rect e ro)
  = Some (mkInput (left inp) (right inp) (up inp) (down inp) true true pos)
  /\ ECSSpec.current_input (ECSHost.handlePointerMove g rect e)
     = Some (mkInput (left inp) (right inp) (up inp) (down inp) (shoot inp) true pos)
  /\ ECSSpec.current_input
       (ECSHost.handlePointerEnd (ECSHost.handlePointerStart g rect e ro))
     = Some (mkInput (left inp) (right inp) (up inp) (down inp) false false pos)
  /\ ECSHost.handlePointerMove (ECSHost.handlePointerStart g rect e ro) rect e
     = ECSHost.handlePointerStart g rect e ro
  /\ ECSHost.handlePointerStart g None e ro = g
  /\ ECSHost.handlePointerStart g rect (ECSHost.TouchEvent []) ro = g
  /\ ECSHost.handlePointerMove g None e = g
  /\ ECSHost.handlePointerMove g rect (ECSHost.TouchEvent []) = g.
Proof.
  intros Hg Hp Hi.
  assert (Es : ECSHost.handlePointerStart g rect e ro
               = ECS.setInput g (ECS.mkUpdates None None None None (Some true) (Some true)
                                               (Some pos))).
  { unfold ECSHost.handlePointerStart. now rewrite Hg, Hp. }
  assert (Em : forall g0, ECSHost.handlePointerMove g0 rect e
               = ECS.setInput g0 (ECS.mkUpdates None None None None None (Some true)
                                                (Some pos))).
  { intro g0. unfold ECSHost.handlePointerMove. now rewrite Hp. }
  split; [|split; [|split; [|split; [|split; [|split; [|split]]]]]].
  - rewrite Es, current_input_setInput, Hi. reflexivity.
  - rewrite Em, current_input_setInput, Hi. reflexivity.
  - unfold ECSHost.handlePointerEnd. rewrite Es, setInput_twice, current_input_setInput, Hi.
    reflexivity.
  - rewrite Em, Es, setInput_twice. reflexivity.
  - unfold ECSHost.handlePointerStart. now rewrite Hg, event_position_unmounted.
  - unfold ECSHost.handlePointerStart. now rewrite Hg.
  - unfold ECSHost.handlePointerMove. now rewrite event_position_unmounted.
  - reflexivity.
Qed.

Lemma pointer_press_move_release_witness :
  ECSHost.event_position (Some (ECSHost.mkRect 0 0 (Q2Qc 640) (Q2Qc 1136)))
                         (ECSHost.MouseEvent (Q2Qc 320) (Q2Qc 568))
  = Some (createVector2 (Q2Qc 160) (Q2Qc 284))
  /\ ECSSpec.current_input
       (ECSHost.handlePointerStart (ECS.mkGame 3 [ECS.newPlayer 1; ECS.newInput 2] 0 3 playing 0)
          (Some (ECSHost.mkRect 0 0 (Q2Qc 640) (Q2Qc 1136)))
          (ECSHost.MouseEvent (Q2Qc 320) (Q2Qc 568)) (Examples.ecs_stars0 0))
     = Some (mkInput false false false false true true (createVector2 (Q2Qc 160) (Q2Qc 284))).
Proof.
  assert (Hp : ECSHost.event_position (Some (ECSHost.mkRect 0 0 (Q2Qc 640) (Q2Qc 1136)))
                                      (ECSHost.MouseEvent (Q2Qc 320) (Q2Qc 568))
               = Some (createVector2 (Q2Qc 160) (Q2Qc 284))).
  { cbn [ECSHost.event_position ECSHost.getCanvasCoordinates]. f_equal.
    f_equal; apply Qc_is_canon; reflexivity. }
  split; [exact Hp|].
  apply (pointer_press_move_release
           (ECS.mkGame 3 [ECS.newPlayer 1; ECS.newInput 2] 0 3 playing 0)
           _ _ (Examples.ecs_stars0 0) _ ECS.initialInput eq_refl Hp eq_refl).
Defined.

(** ** Steering by keyboard *)

Lemma keyboard_targetVel (sqrt : Qc -> Qc) (inp : Input) (pos : Vec2) :
  touching inp = false ->
  targetVel sqrt inp pos
  = createVector2 (axis (right inp) (left inp)) (axis (down inp) (up inp)).
Proof.
  intro Ht. unfold targetVel. rewrite Ht. cbv zeta.
  destruct (left inp), (right inp), (up inp), (down inp); cbn [axis];
    f_equal; ring.
Qed.

Lemma axis_bound (p m : bool) : - PLAYER_SPEED <= axis p m /\ axis p m <= PLAYER_SPEED.
Proof. destruct p, m; split; vm_compute; discriminate. Qed.

Lemma lerp_keeps_bound (v t : Qc) :
  - PLAYER_SPEED <= v /\ v <= PLAYER_SPEED ->
  - PLAYER_SPEED <= t /\ t <= PLAYER_SPEED ->
  - PLAYER_SPEED <= lerp v t (15 # 100) /\ lerp v t (15 # 100) <= PLAYER_SPEED.
Proof. intros Hv Ht. unfold lerp. qc_arith. Qed.

(** Keyboard steering.  While the pointer is not down the target velocity
    is 4.5 times the balance of the keys on each axis, so opposite keys
    cancel; the velocity moves 15% of the way towards it, and a velocity
    whose components are within 4.5 in magnitude stays so, in both
    versions. *)
Theorem keyboard_steering (sqrt : Qc -> Qc) (inp : Input) (e : ECS.Entity) (pos vel : Vec2)
        (p : Flat.Player) :
  touching inp = false ->
  ECS.position e = Some pos -> ECS.velocity e = Some vel ->
  (- PLAYER_SPEED <= x vel /\ x vel <= PLAYER_SPEED)
  /\ (- PLAYER_SPEED <= y vel /\ y vel <= PLAYER_SPEED) ->
  (- PLAYER_SPEED <= x (Flat.velocity (Flat.player_base p))
   /\ x (Flat.velocity (Flat.player_base p)) <= PLAYER_SPEED)
  /\ (- PLAYER_SPEED <= y (Flat.velocity (Flat.player_base p))
      /\ y (Flat.velocity (Flat.player_base p)) <= PLAYER_SPEED) ->
  targetVel sqrt inp pos
  = createVector2 (axis (right inp) (left inp)) (axis (down inp) (up inp))
  /\ (exists vel',
         ECS.velocity (ECS.steer sqrt inp e) = Some vel'
         /\ x vel' = lerp (x vel) (axis (right inp) (left inp)) (15 # 100)
         /\ y vel' = lerp (y vel) (axis (down inp) (up inp)) (15 # 100)
         /\ (- PLAYER_SPEED <= x vel' /\ x vel' <= PLAYER_SPEED)
         /\ (- PLAYER_SPEED <= y vel' /\ y vel' <= PLAYER_SPEED))
  /\ ((- PLAYER_SPEED <= x (Flat.velocity (Flat.player_base (Flat.move_player sqrt inp p)))
       /\ x (Flat.velocity (Flat.player_base (Flat.move_player sqrt inp p))) <= PLAYER_SPEED)
      /\ (- PLAYER_SPEED <= y (Flat.velocity (Flat.player_base (Flat.move_player sqrt inp p)))
          /\ y (Flat.velocity (Flat.player_base (Flat.move_player sqrt inp p)))
             <= PLAYER_SPEED)).
Proof.
  intros Ht Hp Hv [Hx Hy] [Hfx Hfy].
  split; [now apply keyboard_targetVel|]. split.
  - unfold ECS.steer. rewrite Hp, Hv. cbv zeta. rewrite (keyboard_targetVel sqrt inp pos Ht).
    cbn [ECS.with_velocity ECS.velocity x y]. eexists. split; [reflexivity|].
    cbn [x y]. split; [reflexivity|]. split; [reflexivity|].
    split; apply lerp_keeps_bound; auto using axis_bound.
  - unfold Flat.move_player. cbv zeta.
    rewrite (keyboard_targetVel sqrt inp _ Ht).
    cbn [Flat.velocity Flat.player_base x y].
    split; apply lerp_keeps_bound; auto using axis_bound.
Qed.

Lemma keyboard_steering_witness :
  touching (mkInput true true false true false false (createVector2 0 0)) = false
  /\ targetVel sqrt_fix (mkInput true true false true false false (createVector2 0 0))
               (createVector2 (Q2Qc 160) (Q2Qc 508))
     = createVector2 0 PLAYER_SPEED.
Proof.
  split; [reflexivity|].
  apply (keyboard_steering sqrt_fix
           (mkInput true true false true false false (createVector2 0 0))
           (ECS.newPlayer 1) (createVector2 (Q2Qc 160) (Q2Qc 508)) (createVector2 0 0)
           Flat.initialPlayer eq_refl).
  - cbn [ECS.newPlayer ECS.position]. f_equal. f_equal; apply Qc_is_canon; reflexivity.
  - reflexivity.
  - repeat split; vm_compute; discriminate.
  - repeat split; vm_compute; discriminate.
Defined.

(** ** The census of the store *)

(** The star field and the input entity are permanent.  Every reachable
    state of the entity-component version stores exactly 50 stars and
    exactly one entity with an input component, so the handlers' [setInput]
    and the systems always find the input; the flat version always has
    50 stars. *)
Theorem stars_and_input_survive (sqrt : Qc -> Qc) (g : ECS.Game) (gf : Flat.Game) :
  ECS.reachable sqrt g -> Flat.reachable sqrt gf ->
  List.length (ECS.findAllWith g [ECS.C_STAR]) = STAR_COUNT
  /\ List.length (ECS.findAllWith g [ECS.C_INPUT]) = 1%nat
  /\ ECSSpec.current_input g <> None
  /\ List.length (Flat.stars gf) = STAR_COUNT.
Proof.
  intros Hr Hf. destruct (reachable_census sqrt g Hr) as (_ & Hstar & Hinp).
  rewrite !findAllWith_one. unfold ECSSpec.current_input. rewrite findAllWith_one.
  split; [exact Hstar|]. split; [exact Hinp|]. split.
  - unfold ECSMore.is_input in Hinp.
    destruct (filter (fun e => ECS.has e ECS.C_INPUT) (ECS.entities g)) as [|ie rest] eqn:E;
      [discriminate|].
    assert (Hin : In ie (filter (fun e => ECS.has e ECS.C_INPUT) (ECS.entities g)))
      by (rewrite E; now left).
    apply filter_In in Hin. destruct Hin as [_ Hh]. cbn [ECS.has] in Hh.
    destruct (ECS.input ie); [discriminate | discriminate].
  - now apply (flat_reachable_stars sqrt).
Qed.

Lemma stars_and_input_survive_witness :
  ECS.reachable sqrt_fix (ECS.tick sqrt_fix (ECS.new_Game (Examples.ecs_stars0 0)) 16
                                  (Examples.ecs_quiet 16))
  /\ Flat.reachable sqrt_fix (Flat.new_Game Examples.flat_stars0)
  /\ List.length (ECS.findAllWith
                    (ECS.tick sqrt_fix (ECS.new_Game (Examples.ecs_stars0 0)) 16
                              (Examples.ecs_quiet 16)) [ECS.C_STAR]) = STAR_COUNT.
Proof.
  assert (Hr : ECS.reachable sqrt_fix
                 (ECS.tick sqrt_fix (ECS.new_Game (Examples.ecs_stars0 0)) 16
                           (Examples.ecs_quiet 16))) by (apply ECS.reach_tick, ECS.reach_new).
  assert (Hf : Flat.reachable sqrt_fix (Flat.new_Game Examples.flat_stars0)) by (apply Flat.reach_new).
  split; [exact Hr|]. split; [exact Hf|].
  apply (stars_and_input_survive sqrt_fix _ _ Hr Hf).
Defined.
